(** * A-star on an 8-connected grid: the sequential solver and its driver

    A shallow embedding of [src/pathway/CPU-solver.cpp] (the sequential
    solver) and of the driver class [Pathway], followed by the properties
    of the pathfinding specification that concern them. *)

From Stdlib Require Import Ascii String ZArith List Bool Lia Reals Lra.
From Stdlib Require Import SpecFloat.
Import ListNotations.
Local Open Scope Z_scope.

(* ================================================================== *)
(** * Part I.  The program                                             *)
(* ================================================================== *)

(** ** Distances with exact sums

    The solver keeps distances in a C++ [float].  The embedding has the
    solver twice.  Module [F32] is the solver with 32-bit floats, every
    operation rounded as the machine rounds it.  Section [Solver] is the
    same control flow with exact sums: a distance is a sum of step costs,
    that is a number [n + m * sqrt 2] with [n] axial steps and [m]
    diagonal steps, kept as the two counters and compared as a real
    number.  What follows is the arithmetic of the exact sums. *)

Record cost := mkCost { units : Z; diags : Z }.

Definition cost_zero : cost := mkCost 0 0.

(** Modelled from the spec: the constant [SQRT2] is defined in a header
    that is not among the sources; it is the cost sqrt 2 of a diagonal
    step (section 3). *)
Definition SQRT2 : cost := mkCost 0 1.

(** The conversion of an [int] to a distance, the sum of two distances and
    the product of an [int] and a distance. *)
Definition cost_of_int (n : Z) : cost := mkCost n 0.
Definition cost_add (a b : cost) : cost :=
  mkCost (units a + units b) (diags a + diags b).
Definition cost_scale (n : Z) (c : cost) : cost :=
  mkCost (n * units c) (n * diags c).

(** [sqrt2_pos x y] decides [0 < x + y * sqrt 2] on integers. *)
Definition sqrt2_pos (x y : Z) : bool :=
  if (0 <=? x) && (0 <=? y) then (0 <? x) || (0 <? y)
  else if (x <=? 0) && (y <=? 0) then false
  else if 0 <? x then 2 * (y * y) <? x * x
  else x * x <? 2 * (y * y).

(** The C++ [a < b] on two distances. *)
Definition cost_ltb (a b : cost) : bool :=
  sqrt2_pos (units b - units a) (diags b - diags a).

(** The real number a distance stands for. *)
Definition cost_val (c : cost) : R :=
  (IZR (units c) + IZR (diags c) * sqrt 2)%R.

(** ** The problem instance: class [Pathway]

    An [int] is an integer of [Z].  The solver computes coordinates between
    [-1] and the larger dimension and identifiers of cells, so on a grid
    whose number of cells fits an [int] its arithmetic stays in range. *)

Definition vec2 : Type := (Z * Z)%type.

Record Pathway := mkPathway {
  m_width : Z;
  m_height : Z;
  m_inputModule : string;
  m_size : Z;
  m_graph : list Z;              (* vector<uint8_t>, one mask per cell *)
  m_sx : Z; m_sy : Z;
  m_ex : Z; m_ey : Z;
  cpuSolved : bool;
  gpuSolved : bool;
  cpuSuccessful : bool;
  gpuSuccessful : bool;
  cpuOptimal : cost;
  gpuOptimal : cost;
  cpuSolution : list vec2;
  gpuSolution : list vec2
}.

Definition width (p : Pathway) : Z := m_width p.
Definition height (p : Pathway) : Z := m_height p.
Definition sx (p : Pathway) : Z := m_sx p.
Definition sy (p : Pathway) : Z := m_sy p.
Definition ex (p : Pathway) : Z := m_ex p.
Definition ey (p : Pathway) : Z := m_ey p.

(** [p->graph()[i]]: the mask of cell [i].  Reading outside the vector is
    undefined in C++; the solver only reads at identifiers of cells. *)
Definition graph (p : Pathway) (i : Z) : Z := nth (Z.to_nat i) (m_graph p) 0.

(** Modelled from the spec: [Pathway::toID] is declared in pathway.hpp,
    which is not among the sources.  Section 3: cell ID is [y * W + x]. *)
Definition toID (p : Pathway) (x y : Z) : Z := y * width p + x.

(** Modelled from the spec: [Pathway::toXY], the inverse of [toID] on
    [0, N) (section 4.1), with the C++ truncating division. *)
Definition toXY (p : Pathway) (i : Z) : Z * Z :=
  (Z.rem i (width p), Z.quot i (width p)).

(** Modelled from the spec: [Pathway::toVec], the cell of an identifier as
    a [vec2]. *)
Definition toVec (p : Pathway) (i : Z) : vec2 := toXY p i.

(** Modelled from the spec: [Pathway::inrange], section 4.1:
    [0 <= x < W] and [0 <= y < H]. *)
Definition inrange (p : Pathway) (x y : Z) : bool :=
  (0 <=? x) && (x <? width p) && (0 <=? y) && (y <? height p).

(** Modelled from the spec: the step-cost table [COST] of pathway.hpp.
    Section 4.1: indices 0-3 are axial and cost 1, indices 4-7 are diagonal
    and cost sqrt 2. *)
Definition COST (i : Z) : cost :=
  if i <? 4 then cost_of_int 1 else SQRT2.

(** ** The driver: construction and [Pathway::output] *)

(** The parsed command line ([vm_options]): an option is present or not,
    and [width] and [height] are read with [as<int>()]. *)
Record options := mkOptions {
  opt_width : option Z;
  opt_height : option Z;
  opt_input_module : string
}.

Inductive construction :=
| Constructed (p : Pathway)
| Fatal (message : string).

(** The constructor [Pathway::Pathway].  Modelled from the spec: [help()]
    is not among the sources; section 6 makes a missing dimension a fatal
    configuration error reported to the user, so the constructor does not
    complete once [help()] is called.  The fields that the constructor
    leaves unset are given as [blank]. *)
Definition Pathway_new (vm : options) (blank : Pathway) : construction :=
  match opt_width vm, opt_height vm with
  | Some w, Some h =>
      Constructed
        (mkPathway w h (opt_input_module vm) (w * h)
                   (m_graph blank) (m_sx blank) (m_sy blank)
                   (m_ex blank) (m_ey blank)
                   false false false false
                   (cpuOptimal blank) (gpuOptimal blank)
                   (cpuSolution blank) (gpuSolution blank))
  | _, _ => Fatal "Please set the width and height for your graph."
  end.

(** A dimension as the specification wants it (section 6): present and a
    positive integer. *)
Definition valid_dimension (o : option Z) : bool :=
  match o with
  | Some n => 0 <? n
  | None => false
  end.

(** What [output] prints and plots. *)
Inductive event :=
| SolutionFrom (solver : string) (solution : list vec2)
| NoSolutionFrom (solver : string)
| OptimalFrom (solver : string) (optimal : cost)
| Plot (solution : list vec2) (file : string).

Section Driver.

(** [float_equal] is declared in a header that is not among the sources:
    the comparison of two costs up to the tolerance is a parameter. *)
Variable float_equal : cost -> cost -> bool.

Definition output (p : Pathway) : bool * list event :=
  if cpuSolved p && gpuSolved p
     && negb (Bool.eqb (cpuSuccessful p) (gpuSuccessful p))
  then (false, [])
  else if cpuSolved p && gpuSolved p
          && negb (float_equal (cpuOptimal p) (gpuOptimal p))
  then (false, [])
  else
    (true,
     (if cpuSolved p then
        if cpuSuccessful p then [SolutionFrom "CPU" (cpuSolution p)]
        else [NoSolutionFrom "CPU"]
      else [])
     ++ (if gpuSolved p then
           if gpuSuccessful p then [SolutionFrom "GPU" (gpuSolution p)]
           else [NoSolutionFrom "GPU"]
         else [])
     ++ (if cpuSuccessful p then
           [OptimalFrom "CPU" (cpuOptimal p);
            Plot (cpuSolution p) "pathwayCPU.bmp"]
         else [])
     ++ (if gpuSuccessful p then
           [OptimalFrom "GPU" (gpuOptimal p);
            Plot (gpuSolution p) "pathwayGPU.bmp"]
         else [])).

End Driver.

(** ** The driver: [prepare] and [generateGraph] *)

(** The interface [PathwayInput] is not among the sources.  An input is
    taken as what it does through the three calls of [generateGraph]: the
    byte it leaves at each index of the buffer it is handed, and the two
    end points it reports. *)
Record PathwayInput := mkInput {
  generate : nat -> Z;
  getStartPoint : vec2;
  getEndPoint : vec2
}.

(** [Pathway::generateGraph], on a problem whose number of cells
    [width() * height()] is a non-negative [int]: the vector is cleared and
    resized to that many bytes, the input fills it, then the end points
    are read.  A byte is a [uint8_t].  On other problems the product
    overflows or [resize] throws: [prepare] below looks at these cases
    before it calls [generateGraph]. *)
Definition generateGraph (p : Pathway) (input : PathwayInput) : Pathway :=
  mkPathway (m_width p) (m_height p) (m_inputModule p) (m_size p)
            (map (fun k => generate input k mod 256)
                 (seq 0 (Z.to_nat (width p * height p))))
            (fst (getStartPoint input)) (snd (getStartPoint input))
            (fst (getEndPoint input)) (snd (getEndPoint input))
            (cpuSolved p) (gpuSolved p)
            (cpuSuccessful p) (gpuSuccessful p)
            (cpuOptimal p) (gpuOptimal p)
            (cpuSolution p) (gpuSolution p).

(** What a call of [prepare] comes to. *)
Inductive prepared :=
| Prepared (p : Pathway)
| PrepareFatal (message : string)
| LengthError         (* [vector::resize] throws [std::length_error] *)
| IntOverflow.        (* [width() * height()] overflows an [int] *)

(** The values of an [int] of 32 bits. *)
Definition is_int (n : Z) : bool := (- 2 ^ 31 <=? n) && (n <? 2 ^ 31).

(** [Pathway::prepare].  Its first statement resizes the vector to
    [m_size] bytes, and so does [generateGraph] to [width() * height()]
    bytes: a negative [int] becomes a size beyond [max_size()], and
    [resize] throws.  The class [CustomPathwayInput] is not among the
    sources: [custom h w] stands for the input it constructs from the
    height and the width, in that order.  The call of [help()] ends the
    program, as in the constructor. *)
Definition prepare (custom : Z -> Z -> PathwayInput) (p : Pathway)
  : prepared :=
  if m_size p <? 0 then LengthError
  else if String.eqb (m_inputModule p) "custom" then
    if negb (is_int (width p * height p)) then IntOverflow
    else if width p * height p <? 0 then LengthError
    else Prepared (generateGraph p (custom (m_height p) (m_width p)))
  else PrepareFatal "Please set your input-module parameter correctly.".

(** ** The driver: [printSolution] *)

(** One call of [printf]: a fixed text, or the format [(%d %d)] with its
    two arguments. *)
Inductive printed :=
| Text (s : string)
| Coordinates (x y : Z).

Definition tab : string := String "009"%char EmptyString.
Definition newline_tab : string := String "010"%char tab.
Definition arrow : string := " -> ".

(** The loop of [printSolution] from the value [count] on. *)
Fixpoint printSolution_loop (count : Z) (solution : list vec2)
  : list printed :=
  match solution with
  | [] => []
  | v :: rest =>
      (if count =? 0 then [] else [Text arrow])
      ++ (if Z.rem (count + 1) 10 =? 0 then [Text newline_tab] else [])
      ++ Coordinates (fst v) (snd v) :: printSolution_loop (count + 1) rest
  end.

Definition printSolution (solution : list vec2) : list printed :=
  Text tab :: printSolution_loop 0 solution.

(** ** The driver: the canvas of [plotSolution] and [drawPixel] *)

(** The values [0 .. n-1] of a loop [for (int i = 0; i < n; ++i)]. *)
Definition upto (n : Z) : list Z := map Z.of_nat (seq 0 (Z.to_nat n)).

(** One call of [image.set_pixel(x, y, r, g, b)]. *)
Definition set_pixel : Type := (Z * Z * (Z * Z * Z))%type.

(** [drawPixel(image, pixel_size, y, x, r, g, b)]: the calls of
    [set_pixel] it makes, in order. *)
Definition drawPixel (pixel_size y x : Z) (rgb : Z * Z * Z) : list set_pixel :=
  flat_map (fun p =>
              map (fun q => (x * pixel_size + p, y * pixel_size + q, rgb))
                  (upto pixel_size))
           (upto pixel_size).

(** The loops "draw visited nodes" and "draw edge" of [plotSolution].  The
    difference [a - b] of two [vec2] is taken coordinate by coordinate. *)
Definition plot_visited (solution : list vec2) (pixel_size : Z)
  : list set_pixel :=
  flat_map (fun v => drawPixel pixel_size (3 * fst v + 1) (3 * snd v + 1)
                               (0, 255, 0))
           solution.

Fixpoint plot_edges (solution : list vec2) (pixel_size : Z)
  : list set_pixel :=
  match solution with
  | a :: ((b :: _) as rest) =>
      let d := (fst a - fst b, snd a - snd b) in
      drawPixel pixel_size (3 * fst a + 1 - fst d) (3 * snd a + 1 - snd d)
                (0, 255, 0)
      ++ drawPixel pixel_size (3 * fst b + 1 + fst d) (3 * snd b + 1 + snd d)
                   (0, 255, 0)
      ++ plot_edges rest pixel_size
  | _ => []
  end.

(** Consecutive cells of a path differ by at most one in each
    coordinate. *)
Fixpoint stepwise (solution : list vec2) : Prop :=
  match solution with
  | a :: ((b :: _) as rest) =>
      -1 <= fst a - fst b <= 1 /\ -1 <= snd a - snd b <= 1 /\ stepwise rest
  | _ => True
  end.


(** The first lines of [plotSolution]: the size of a pixel, the early
    return when it is 0, and the size of the image.  A dimension 0 makes
    the division undefined. *)
Inductive canvas :=
| DivisionByZero
| TooSmall                      (* "Warning:  too small pixel to plot" *)
| Image (image_width image_height pixel_size : Z).

Definition plotSolution_canvas (p : Pathway) : canvas :=
  if (width p =? 0) || (height p =? 0) then DivisionByZero
  else
    let pixel_size :=
      Z.min (Z.quot (Z.quot 1024 3) (width p))
            (Z.quot (Z.quot 768 3) (height p)) in
    if pixel_size =? 0 then TooSmall
    else Image (width p * 3 * pixel_size) (height p * 3 * pixel_size)
               pixel_size.


(** ** The solver: class [CPUPathwaySolver] *)

(** [prev] is a pointer to another node.  The global table owns one node
    per cell identifier and no node is freed while a query runs, so a
    pointer to a node is represented by the identifier of its cell. *)
Record node_t := mkNode { id : Z; dist : cost; prev : option Z }.

(** An element of the open list: [pair<float, node_t*>]. *)
Definition entry : Type := (cost * Z)%type.

(** [globalList] lists the nodes newest first: the position of a node
    records when it was created. *)
Record CPUPathwaySolver := mkSolver {
  globalList : list node_t;
  openList : list entry;
  closeList : list Z;
  target : vec2;
  targetID : Z
}.

(** [globalList.count(nid)] and [globalList[nid]]. *)
Fixpoint find_node (nid : Z) (g : list node_t) : option node_t :=
  match g with
  | [] => None
  | n :: g' => if id n =? nid then Some n else find_node nid g'
  end.

(** [onode->dist = d] for the node of cell [nid]: the node is shared by the
    table and by every open-list element that points to it. *)
Fixpoint set_dist (nid : Z) (d : cost) (g : list node_t) : list node_t :=
  match g with
  | [] => []
  | n :: g' =>
      if id n =? nid then mkNode (id n) d (prev n) :: g'
      else n :: set_dist nid d g'
  end.

(** [closeList.count(i)]. *)
Definition closed (i : Z) (c : list Z) : bool := existsb (Z.eqb i) c.

(** ** The solver with 32-bit floats: module [F32]

    The distances of the solver are C++ [float]s.  This module is the
    solver with the arithmetic of IEEE 754 binary32 (24 bits of precision,
    exponents below 128), every operation rounded to the nearest value,
    ties to even, as a machine that evaluates [float] expressions in
    [float] does.  The control flow is that of the source; section
    [Solver] below repeats it with exact sums. *)

Module F32.

(** A [float], with the operations of the library [SpecFloat] at the
    precision and the largest exponent of binary32. *)
Definition float : Type := spec_float.

Definition prec : Z := 24.
Definition emax : Z := 128.

(** The conversion of an [int] to a [float], and the C++ operators [+],
    [*] and [<] on two [float]s. *)
Definition of_int (n : Z) : float := binary_normalize prec emax n 0 false.
Definition add (a b : float) : float := SFadd prec emax a b.
Definition mul (a b : float) : float := SFmul prec emax a b.
Definition ltb (a b : float) : bool := SFltb a b.

(** Modelled from the spec: the constant [SQRT2] of the absent header, as
    the [float] nearest to sqrt 2, which is 11863283 * 2^-23. *)
Definition SQRT2 : float := S754_finite false 11863283 (-23).

(** Modelled from the spec: the step-cost table [COST], a table of
    [float]s: 1 for the directions 0-3 and [SQRT2] for the directions
    4-7. *)
Definition COST (i : Z) : float := if i <? 4 then of_int 1 else SQRT2.

(** The node [struct node_t { int id; float dist; node_t *prev; }], a
    pointer to a node being the identifier of its cell. *)
Record node_t := mkNode { id : Z; dist : float; prev : option Z }.

(** An element of the open list: [pair<float, node_t*>]. *)
Definition entry : Type := (float * Z)%type.

(** [globalList] lists the nodes newest first. *)
Record CPUPathwaySolver := mkSolver {
  globalList : list node_t;
  openList : list entry;
  closeList : list Z;
  target : vec2;
  targetID : Z
}.

(** [globalList.count(nid)] and [globalList[nid]]. *)
Fixpoint find_node (nid : Z) (g : list node_t) : option node_t :=
  match g with
  | [] => None
  | n :: g' => if id n =? nid then Some n else find_node nid g'
  end.

(** [onode->dist = d] for the node of cell [nid]. *)
Fixpoint set_dist (nid : Z) (d : float) (g : list node_t) : list node_t :=
  match g with
  | [] => []
  | n :: g' =>
      if id n =? nid then mkNode (id n) d (prev n) :: g'
      else n :: set_dist nid d g'
  end.

Section Tables.

(** The direction tables [DX] and [DY] of pathway.hpp are not among the
    sources, and neither is the declaration of [openList]: they are
    parameters of the embedding. *)
Variable DX DY : Z -> Z.

(** [ble a b]: element [a] leaves the priority queue no later than [b]. *)
Variable ble : entry -> entry -> bool.

(** [openList.push(e)].  Modelled from the spec: the queue is declared in
    CPU-solver.hpp (not among the sources); section 3: a priority structure
    ordered by [f], smallest first, that tolerates duplicates.  The list is
    kept in the order in which its elements will leave. *)
Fixpoint push (e : entry) (q : list entry) : list entry :=
  match q with
  | [] => [e]
  | x :: q' => if ble e x then e :: q else x :: push e q'
  end.

(** The loop [do { node = openList.top().second; openList.pop(); }
    while (closeList.count(node->id));].  [None]: [top()] was called on an
    empty queue. *)
Fixpoint pop_open (c : list Z) (q : list entry) : option (entry * list entry) :=
  match q with
  | [] => None
  | e :: q' => if closed (snd e) c then pop_open c q' else Some (e, q')
  end.

(** [node->dist + min(dx, dy)*SQRT2 + abs(dx-dy)]: the two [int]s are
    converted to [float], and the product and the two sums are rounded
    one after the other. *)
Definition computeFValue (p : Pathway) (node : node_t) : float :=
  let '(x, y) := toXY p (id node) in
  let dx := Z.abs (x - ex p) in
  let dy := Z.abs (y - ey p) in
  add (add (dist node) (mul (of_int (Z.min dx dy)) SQRT2))
      (of_int (Z.abs (dx - dy))).

(** [initialize] overwrites every field of the solver it is called on;
    the start node is [node_t(startID, 0, nullptr)]. *)
Definition initialize (p : Pathway) (s : CPUPathwaySolver) : CPUPathwaySolver :=
  let s1 := mkSolver [] (openList s) (closeList s) (target s) (targetID s) in
  let s2 := mkSolver (globalList s1) [] [] (target s1) (targetID s1) in
  let s3 := mkSolver (globalList s2) (openList s2) (closeList s2)
                     (ex p, ey p) (toID p (ex p) (ey p)) in
  let startID := toID p (sx p) (sy p) in
  let startNode := mkNode startID (of_int 0) None in
  mkSolver (startNode :: globalList s3)
           (push (computeFValue p startNode, id startNode) (openList s3))
           (closeList s3) (target s3) (targetID s3).

(** One turn of the loop [for (int i = 0; i < 8; ++i)] for the node of cell
    [u] at [(x, y)]: [float dist = node->dist + COST[i]], and the test
    [dist < onode->dist] on two [float]s.  [None]: a pointer to a node that
    is not in the table was followed. *)
Definition expand (p : Pathway) (u x y : Z) (i : Z) (s : CPUPathwaySolver)
  : option CPUPathwaySolver :=
  if negb (Z.land (Z.lnot (graph p u)) (Z.shiftl 1 i) =? 0) then Some s
  else
    let nx := x + DX i in
    let ny := y + DY i in
    if inrange p nx ny then
      let nid := toID p nx ny in
      match find_node u (globalList s) with
      | None => None
      | Some node =>
          let d := add (dist node) (COST i) in
          match find_node nid (globalList s) with
          | None =>
              let nnode := mkNode nid d (Some (id node)) in
              Some (mkSolver (nnode :: globalList s)
                             (push (computeFValue p nnode, nid) (openList s))
                             (closeList s) (target s) (targetID s))
          | Some onode =>
              if ltb d (dist onode) then
                let onode' := mkNode (id onode) d (prev onode) in
                Some (mkSolver (set_dist nid d (globalList s))
                               (push (computeFValue p onode', nid) (openList s))
                               (closeList s) (target s) (targetID s))
              else Some s
          end
      end
    else Some s.

Fixpoint expand_all (p : Pathway) (u x y : Z) (dirs : list Z)
  (s : CPUPathwaySolver) : option CPUPathwaySolver :=
  match dirs with
  | [] => Some s
  | i :: dirs' =>
      match expand p u x y i s with
      | None => None
      | Some s' => expand_all p u x y dirs' s'
      end
  end.

(** The loop [while (node) { solution->push_back(...); node = node->prev; }].
    The outer [None]: the loop was cut after [fuel] turns; the inner
    [None]: a pointer to a node that is not in the table was followed. *)
Fixpoint walk_back (fuel : nat) (p : Pathway) (g : list node_t)
  (node : option Z) : option (option (list vec2)) :=
  match node with
  | None => Some (Some [])
  | Some i =>
      match fuel with
      | O => None
      | S fuel' =>
          match find_node i g with
          | None => Some None
          | Some n =>
              match walk_back fuel' p g (prev n) with
              | Some (Some l) => Some (Some (toVec p (id n) :: l))
              | r => r
              end
          end
      end
  end.

(** What a call of [solve] comes to. *)
Inductive outcome :=
| Found (optimal : float) (solution : list vec2)  (* returns true *)
| NoPath                                          (* returns false *)
| Undefined                                       (* undefined behaviour *)
| OutOfFuel.                                      (* the model was cut short *)

Inductive progress :=
| Running (s : CPUPathwaySolver)
| Returned (o : outcome).

(** One turn of the loop [while (!openList.empty())]. *)
Definition iteration (fuel : nat) (p : Pathway) (s : CPUPathwaySolver)
  : progress :=
  match openList s with
  | [] => Returned NoPath
  | _ :: _ =>
      match pop_open (closeList s) (openList s) with
      | None => Returned Undefined
      | Some (e, q) =>
          let node := snd e in
          let s1 := mkSolver (globalList s) q (node :: closeList s)
                             (target s) (targetID s) in
          match find_node node (globalList s1) with
          | None => Returned Undefined
          | Some n =>
              if id n =? targetID s1 then
                match walk_back fuel p (globalList s1) (Some node) with
                | None => Returned OutOfFuel
                | Some None => Returned Undefined
                | Some (Some l) => Returned (Found (dist n) (rev l))
                end
              else
                let '(x, y) := toXY p (id n) in
                match expand_all p (id n) x y [0; 1; 2; 3; 4; 5; 6; 7] s1 with
                | None => Returned Undefined
                | Some s2 => Running s2
                end
          end
      end
  end.

Fixpoint solve_loop (wfuel fuel : nat) (p : Pathway) (s : CPUPathwaySolver)
  : outcome :=
  match fuel with
  | O => OutOfFuel
  | S fuel' =>
      match iteration wfuel p s with
      | Returned o => o
      | Running s' => solve_loop wfuel fuel' p s'
      end
  end.

Definition solve (fuel : nat) (p : Pathway) (s : CPUPathwaySolver) : outcome :=
  solve_loop fuel fuel p s.

End Tables.

End F32.

(** ** Concrete conventions and inputs *)

(** One pair of direction tables that follows the reference convention:
    east, west, south, north, then the four diagonals. *)
Definition DX_ref (i : Z) : Z :=
  match i with
  | 0 => 1 | 1 => -1 | 2 => 0 | 3 => 0
  | 4 => 1 | 5 => 1 | 6 => -1 | 7 => -1
  | _ => 0
  end.

Definition DY_ref (i : Z) : Z :=
  match i with
  | 0 => 0 | 1 => 0 | 2 => 1 | 3 => -1
  | 4 => 1 | 5 => -1 | 6 => 1 | 7 => -1
  | _ => 0
  end.

(** A queue order on [f] alone. *)
Definition by_f (a b : entry) : bool := negb (cost_ltb (fst b) (fst a)).

Definition grid (w h : Z) (g : list Z) (s t : vec2) : Pathway :=
  mkPathway w h "custom" (w * h) g (fst s) (snd s) (fst t) (snd t)
            false false false false cost_zero cost_zero [] [].

(** 3 x 3, start (0,0), target (2,2), every edge open in both directions:
    (0,0)-(1,0), (0,0)-(1,1), (1,0)-(2,0), (1,1)-(2,0), (2,0)-(2,1) and
    (2,1)-(2,2).  Cell (2,0) is reached first over two diagonals through
    (1,1), then over two axial steps through (1,0). *)
Definition detour_grid : Pathway :=
  grid 3 3 [17; 3; 70;  0; 160; 12;  0; 0; 8] (0, 0) (2, 2).

(** 3 x 4, start (0,0), target (1,3): the edges (0,0)-(1,0), (0,0)-(1,1),
    (1,0)-(2,0) and (1,1)-(2,0), and no edge at the target. *)
Definition walled_grid : Pathway :=
  grid 3 4 [17; 3; 66;  0; 160; 0;  0; 0; 0;  0; 0; 0] (0, 0) (1, 3).

(** 1 x 1, start = target = (0,0) (scenario S4). *)
Definition single_cell_grid : Pathway := grid 1 1 [0] (0, 0) (0, 0).

(** The scenarios S1, S2, S3 and S6 of the specification (section 8), with
    the masks written for the tables [DX_ref] and [DY_ref]: a 3 x 3 grid
    with every edge; a 5 x 5 grid with the axial edges only; a 4 x 4 grid
    whose column 2 is cut from columns 1 and 3; a 2 x 2 grid with the one
    edge (0,0) -> (1,1). *)
Definition scenario_S1 : Pathway :=
  grid 3 3 [21; 87; 70;  61; 255; 206;  41; 171; 138] (0, 0) (2, 2).

Definition scenario_S2 : Pathway :=
  grid 5 5 [ 5;  7;  7;  7;  6;
            13; 15; 15; 15; 14;
            13; 15; 15; 15; 14;
            13; 15; 15; 15; 14;
             9; 11; 11; 11; 10] (0, 0) (4, 4).

Definition scenario_S3 : Pathway :=
  grid 4 4 [21;  70;  4;  4;
            61; 206; 12; 12;
            61; 206; 12; 12;
            41; 138;  8;  8] (0, 0) (3, 3).

Definition scenario_S6 : Pathway :=
  grid 2 2 [16; 0;  0; 0] (0, 0) (1, 1).

(** The detour grid as an input module, and a problem that [prepare] has
    not filled yet. *)
Definition detour_input : PathwayInput :=
  mkInput (fun k => nth k [17; 3; 70;  0; 160; 12;  0; 0; 8] 0) (0, 0) (2, 2).

Definition unfilled_3x3 : Pathway := grid 3 3 [] (0, 0) (0, 0).

(** 1 x 129, without edges: a grid that [plotSolution] draws with pixels
    of size 1. *)
Definition tall_grid : Pathway := grid 1 129 (repeat 0 129) (0, 0) (0, 128).


(** 2 x 1, start (0,0), target (1,0), without any edge. *)
Definition island_grid : Pathway := grid 2 1 [0; 0] (0, 0) (1, 0).


(** The order of a queue of [pair<float, node_t*>] that compares the keys
    first and the addresses of the nodes next, as the order on pairs does;
    [address i] is the address of the node of cell [i]. *)
Definition by_f_then_address (address : Z -> Z) (a b : F32.entry) : bool :=
  SFltb (fst a) (fst b)
  || (SFeqb (fst a) (fst b) && (address (snd a) <=? address (snd b))).

(** The [w] x [h] grid with every edge, for the tables [DX_ref] and
    [DY_ref]: bit [i] of a cell is set when its neighbour in direction [i]
    is on the grid. *)
Definition open_mask (w h x y : Z) : Z :=
  fold_right (fun i m =>
                if (0 <=? x + DX_ref i) && (x + DX_ref i <? w)
                   && (0 <=? y + DY_ref i) && (y + DY_ref i <? h)
                then Z.lor m (Z.shiftl 1 i) else m)
             0 [0; 1; 2; 3; 4; 5; 6; 7].

Definition open_grid (w h : Z) (s t : vec2) : Pathway :=
  grid w h (flat_map (fun y => map (fun x => open_mask w h x y) (upto w))
                     (upto h)) s t.

Definition open_8x8 : Pathway := open_grid 8 8 (0, 0) (7, 7).

Definition blank_solver32 : F32.CPUPathwaySolver :=
  F32.mkSolver [] [] [] (0, 0) 0.


(** A solver as a previous query may have left it. *)
Definition used_solver : CPUPathwaySolver :=
  mkSolver [mkNode 7 (mkCost 1 1) (Some 3); mkNode 3 cost_zero None]
           [(mkCost 9 0, 3)] [7; 5] (1, 1) 4.

Section Solver.

(** The direction tables [DX] and [DY] of pathway.hpp are not among the
    sources, and neither is the declaration of [openList]: they are
    parameters of the embedding. *)
Variable DX DY : Z -> Z.

(** [ble a b]: element [a] leaves the priority queue no later than [b]. *)
Variable ble : entry -> entry -> bool.

(** [openList.push(e)].  Modelled from the spec: the queue is declared in
    CPU-solver.hpp (not among the sources); section 3: a priority structure
    ordered by [f], smallest first, that tolerates duplicates.  The list is
    kept in the order in which its elements will leave. *)
Fixpoint push (e : entry) (q : list entry) : list entry :=
  match q with
  | [] => [e]
  | x :: q' => if ble e x then e :: q else x :: push e q'
  end.

(** The loop [do { node = openList.top().second; openList.pop(); }
    while (closeList.count(node->id));].  [None]: [top()] was called on an
    empty queue. *)
Fixpoint pop_open (c : list Z) (q : list entry) : option (entry * list entry) :=
  match q with
  | [] => None
  | e :: q' => if closed (snd e) c then pop_open c q' else Some (e, q')
  end.

Definition computeFValue (p : Pathway) (node : node_t) : cost :=
  let '(x, y) := toXY p (id node) in
  let dx := Z.abs (x - ex p) in
  let dy := Z.abs (y - ey p) in
  cost_add (cost_add (dist node) (cost_scale (Z.min dx dy) SQRT2))
           (cost_of_int (Z.abs (dx - dy))).

(** [initialize] overwrites every field of the solver it is called on. *)
Definition initialize (p : Pathway) (s : CPUPathwaySolver) : CPUPathwaySolver :=
  let s1 := mkSolver [] (openList s) (closeList s) (target s) (targetID s) in
  let s2 := mkSolver (globalList s1) [] [] (target s1) (targetID s1) in
  let s3 := mkSolver (globalList s2) (openList s2) (closeList s2)
                     (ex p, ey p) (toID p (ex p) (ey p)) in
  let startID := toID p (sx p) (sy p) in
  let startNode := mkNode startID cost_zero None in
  mkSolver (startNode :: globalList s3)
           (push (computeFValue p startNode, id startNode) (openList s3))
           (closeList s3) (target s3) (targetID s3).

(** One turn of the loop [for (int i = 0; i < 8; ++i)] for the node of cell
    [u] at [(x, y)].  [None]: a pointer to a node that is not in the table
    was followed. *)
Definition expand (p : Pathway) (u x y : Z) (i : Z) (s : CPUPathwaySolver)
  : option CPUPathwaySolver :=
  if negb (Z.land (Z.lnot (graph p u)) (Z.shiftl 1 i) =? 0) then Some s
  else
    let nx := x + DX i in
    let ny := y + DY i in
    if inrange p nx ny then
      let nid := toID p nx ny in
      match find_node u (globalList s) with
      | None => None
      | Some node =>
          let d := cost_add (dist node) (COST i) in
          match find_node nid (globalList s) with
          | None =>
              let nnode := mkNode nid d (Some (id node)) in
              Some (mkSolver (nnode :: globalList s)
                             (push (computeFValue p nnode, nid) (openList s))
                             (closeList s) (target s) (targetID s))
          | Some onode =>
              if cost_ltb d (dist onode) then
                let onode' := mkNode (id onode) d (prev onode) in
                Some (mkSolver (set_dist nid d (globalList s))
                               (push (computeFValue p onode', nid) (openList s))
                               (closeList s) (target s) (targetID s))
              else Some s
          end
      end
    else Some s.

Fixpoint expand_all (p : Pathway) (u x y : Z) (dirs : list Z)
  (s : CPUPathwaySolver) : option CPUPathwaySolver :=
  match dirs with
  | [] => Some s
  | i :: dirs' =>
      match expand p u x y i s with
      | None => None
      | Some s' => expand_all p u x y dirs' s'
      end
  end.

Definition directions : list Z := [0; 1; 2; 3; 4; 5; 6; 7].

(** The loop [while (node) { solution->push_back(...); node = node->prev; }].
    The outer [None]: the loop was cut after [fuel] turns; the inner
    [None]: a pointer to a node that is not in the table was followed. *)
Fixpoint walk_back (fuel : nat) (p : Pathway) (g : list node_t)
  (node : option Z) : option (option (list vec2)) :=
  match node with
  | None => Some (Some [])
  | Some i =>
      match fuel with
      | O => None
      | S fuel' =>
          match find_node i g with
          | None => Some None
          | Some n =>
              match walk_back fuel' p g (prev n) with
              | Some (Some l) => Some (Some (toVec p (id n) :: l))
              | r => r
              end
          end
      end
  end.

(** What a call of [solve] comes to. *)
Inductive outcome :=
| Found (optimal : cost) (solution : list vec2)   (* returns true *)
| NoPath                                          (* returns false *)
| Undefined                                       (* undefined behaviour *)
| OutOfFuel.                                      (* the model was cut short *)

Inductive progress :=
| Running (s : CPUPathwaySolver)
| Returned (o : outcome).

(** One turn of the loop [while (!openList.empty())]. *)
Definition iteration (fuel : nat) (p : Pathway) (s : CPUPathwaySolver)
  : progress :=
  match openList s with
  | [] => Returned NoPath
  | _ :: _ =>
      match pop_open (closeList s) (openList s) with
      | None => Returned Undefined
      | Some (e, q) =>
          let node := snd e in
          let s1 := mkSolver (globalList s) q (node :: closeList s)
                             (target s) (targetID s) in
          match find_node node (globalList s1) with
          | None => Returned Undefined
          | Some n =>
              if id n =? targetID s1 then
                match walk_back fuel p (globalList s1) (Some node) with
                | None => Returned OutOfFuel
                | Some None => Returned Undefined
                | Some (Some l) => Returned (Found (dist n) (rev l))
                end
              else
                let '(x, y) := toXY p (id n) in
                match expand_all p (id n) x y directions s1 with
                | None => Returned Undefined
                | Some s2 => Running s2
                end
          end
      end
  end.

Fixpoint solve_loop (wfuel fuel : nat) (p : Pathway) (s : CPUPathwaySolver)
  : outcome :=
  match fuel with
  | O => OutOfFuel
  | S fuel' =>
      match iteration wfuel p s with
      | Returned o => o
      | Running s' => solve_loop wfuel fuel' p s'
      end
  end.

Definition solve (fuel : nat) (p : Pathway) (s : CPUPathwaySolver) : outcome :=
  solve_loop fuel fuel p s.

(** [Pathway::cpuSolve]: [solve] writes [cpuOptimal] and [cpuSolution] only
    when it returns true.  [None]: [solve] did not return. *)
Definition cpuSolve (fuel : nat) (p : Pathway) (s : CPUPathwaySolver)
  : option Pathway :=
  let record successful optimal solution :=
    mkPathway (m_width p) (m_height p) (m_inputModule p) (m_size p)
              (m_graph p) (m_sx p) (m_sy p) (m_ex p) (m_ey p)
              true (gpuSolved p) successful (gpuSuccessful p)
              optimal (gpuOptimal p) solution (gpuSolution p) in
  match solve fuel p s with
  | Found optimal solution => Some (record true optimal solution)
  | NoPath => Some (record false (cpuOptimal p) (cpuSolution p))
  | Undefined | OutOfFuel => None
  end.


(** The loop "draw the background" of [plotSolution]: for the cell of row
    [i] and column [j], whose mask is the next byte of the buffer, a white
    pixel in the middle of a 3 x 3 block and one pixel per direction,
    light when the bit of the direction is set. *)
Definition plot_background (p : Pathway) (pixel_size : Z) : list set_pixel :=
  flat_map (fun i =>
    flat_map (fun j =>
      let buf := graph p (i * width p + j) in
      let x := 3 * i + 1 in
      let y := 3 * j + 1 in
      drawPixel pixel_size x y (255, 255, 255)
      ++ flat_map (fun k =>
           let col := if Z.land buf (Z.shiftl 1 k) =? 0 then 128 else 255 in
           drawPixel pixel_size (x + DX k) (y + DY k) (col, col, col))
         directions)
      (upto (width p)))
    (upto (height p)).


(** The solver after [k] turns of the main loop, while it is running. *)
Fixpoint turns (k : nat) (wfuel : nat) (p : Pathway) (s : CPUPathwaySolver)
  : progress :=
  match k with
  | O => Running s
  | S k' =>
      match iteration wfuel p s with
      | Returned o => Returned o
      | Running s' => turns k' wfuel p s'
      end
  end.

(* ================================================================== *)
(** * Part II.  The vocabulary of the specification                    *)
(* ================================================================== *)

Definition startID (p : Pathway) : Z := toID p (sx p) (sy p).

(** [N = W * H], the number of cells. *)
Definition cells (p : Pathway) : Z := width p * height p.

(** The neighbour of cell [u] in direction [i]: the bit of the direction is
    set in the mask of [u] and the neighbour is in range (section 4.1). *)
Definition neighbour (p : Pathway) (u i : Z) : option Z :=
  let '(x, y) := toXY p u in
  if Z.testbit (graph p u) i && inrange p (x + DX i) (y + DY i)
  then Some (toID p (x + DX i) (y + DY i))
  else None.

Definition step (p : Pathway) (u i v : Z) : Prop :=
  In i directions /\ neighbour p u i = Some v.

(** [route p a b c]: some 8-connected path leads from cell [a] to cell [b]
    and its step costs add up to [c]. *)
Inductive route (p : Pathway) (a : Z) : Z -> cost -> Prop :=
| route_here : route p a a cost_zero
| route_step b c i v :
    route p a b c -> step p b i v -> route p a v (cost_add c (COST i)).

(** The heuristic in the words of section 4.2:
    [min(dx, dy) * sqrt 2 + |dx - dy|]. *)
Definition octile (p : Pathway) (x y : Z) : cost :=
  let dx := Z.abs (x - ex p) in
  let dy := Z.abs (y - ey p) in
  mkCost (Z.abs (dx - dy)) (Z.min dx dy).

Definition h (p : Pathway) (u : Z) : cost :=
  let '(x, y) := toXY p u in octile p x y.

(** The cost of going from cell [a] to the adjacent cell [b]: the step cost
    of a direction that leads from [a] to [b] and whose bit is set. *)
Definition hop (p : Pathway) (a b : vec2) : option cost :=
  match
    filter (fun i => Z.testbit (graph p (toID p (fst a) (snd a))) i
                     && (DX i =? fst b - fst a) && (DY i =? snd b - snd a))
           directions
  with
  | i :: _ => Some (COST i)
  | [] => None
  end.

(** The sum of the step costs along a path; [None] when two consecutive
    cells are not joined by an edge of the grid. *)
Fixpoint solution_cost (p : Pathway) (sol : list vec2) : option cost :=
  match sol with
  | a :: ((b :: _) as rest) =>
      match hop p a b, solution_cost p rest with
      | Some c, Some r => Some (cost_add c r)
      | _, _ => None
      end
  | _ => Some cost_zero
  end.

(** The table lists each cell once, and the predecessor of a node is a node
    that was created before it. *)
Inductive creation_order : list node_t -> Prop :=
| creation_nil : creation_order []
| creation_cons n g :
    creation_order g ->
    find_node (id n) g = None ->
    (forall u, prev n = Some u -> find_node u g <> None) ->
    creation_order (n :: g).

(** [chain g i ids]: [ids] lists the cells met from the node of [i] along
    [prev] until a node without predecessor. *)
Inductive chain (g : list node_t) : Z -> list Z -> Prop :=
| chain_start i n :
    find_node i g = Some n -> prev n = None -> chain g i [i]
| chain_next i n u ids :
    find_node i g = Some n -> prev n = Some u -> chain g u ids ->
    chain g i (i :: ids).

(** [trail p a b ids]: [ids] is a path of the grid from cell [a] to cell
    [b]: it starts at [a], ends at [b], and each cell is followed by one of
    its neighbours. *)
Inductive trail (p : Pathway) (a : Z) : Z -> list Z -> Prop :=
| trail_one : trail p a a [a]
| trail_snoc b c d ids :
    trail p a b ids -> step p b d c -> trail p a c (ids ++ [c]).

(** What holds of the solver between two turns of the main loop, whatever
    the direction tables and the order of the queue. *)
Record structure (p : Pathway) (s : CPUPathwaySolver) : Prop := {
  st_order : creation_order (globalList s);
  st_cells : forall i n, find_node i (globalList s) = Some n -> 0 <= i < cells p;
  st_start : exists n, find_node (startID p) (globalList s) = Some n
                       /\ prev n = None;
  st_others : forall i n, find_node i (globalList s) = Some n ->
                          i <> startID p -> prev n <> None;
  st_closed : forall i, In i (closeList s) -> find_node i (globalList s) <> None;
  st_nodup : NoDup (closeList s);
  st_open : forall e, In e (openList s) -> find_node (snd e) (globalList s) <> None;
  st_target : targetID s = toID p (ex p) (ey p);
  st_edge : forall i n u, find_node i (globalList s) = Some n ->
                          prev n = Some u -> exists d, step p u d i;
  st_route : forall i n, find_node i (globalList s) = Some n ->
                         route p (startID p) i (dist n)
}.

(** The queue is in the order of [f]. *)
Inductive f_sorted : list entry -> Prop :=
| f_sorted_nil : f_sorted []
| f_sorted_cons e q :
    f_sorted q ->
    (forall e', In e' q -> (cost_val (fst e) <= cost_val (fst e'))%R) ->
    f_sorted (e :: q).

(** The search invariant.  [D u i] says that direction [i] of the closed
    cell [u] has been looked at. *)
Record search (p : Pathway) (D : Z -> Z -> Prop) (s : CPUPathwaySolver)
  : Prop := {
  se_structure : structure p s;
  se_zero : forall n, find_node (startID p) (globalList s) = Some n ->
                      dist n = cost_zero;
  se_best : forall i n c,
      In i (closeList s) -> find_node i (globalList s) = Some n ->
      route p (startID p) i c -> (cost_val (dist n) <= cost_val c)%R;
  se_succ : forall u nu i v,
      In u (closeList s) -> D u i ->
      find_node u (globalList s) = Some nu -> step p u i v ->
      exists nv, find_node v (globalList s) = Some nv
                 /\ (cost_val (dist nv) <= cost_val (dist nu) + cost_val (COST i))%R;
  se_open : forall k i, In (k, i) (openList s) ->
      exists n, find_node i (globalList s) = Some n
                /\ (cost_val (computeFValue p n) <= cost_val k)%R;
  se_cover : forall i n, find_node i (globalList s) = Some n ->
      ~ In i (closeList s) -> In (computeFValue p n, i) (openList s);
  se_sorted : f_sorted (openList s)
}.

(** What one turn of the expansion loop does to the solver, case by case:
    no edge in direction [i]; a cell seen for the first time; a known cell
    reached at a smaller distance; a known cell left as it is. *)
Inductive relaxes (p : Pathway) (u i : Z) (s : CPUPathwaySolver)
  : CPUPathwaySolver -> Prop :=
| relaxes_no_edge :
    neighbour p u i = None -> relaxes p u i s s
| relaxes_new v nu :
    neighbour p u i = Some v ->
    find_node u (globalList s) = Some nu ->
    find_node v (globalList s) = None ->
    relaxes p u i s
      (mkSolver
         (mkNode v (cost_add (dist nu) (COST i)) (Some u) :: globalList s)
         (push (computeFValue p (mkNode v (cost_add (dist nu) (COST i)) (Some u)),
                v) (openList s))
         (closeList s) (target s) (targetID s))
| relaxes_better v nu nv :
    neighbour p u i = Some v ->
    find_node u (globalList s) = Some nu ->
    find_node v (globalList s) = Some nv ->
    cost_ltb (cost_add (dist nu) (COST i)) (dist nv) = true ->
    relaxes p u i s
      (mkSolver
         (set_dist v (cost_add (dist nu) (COST i)) (globalList s))
         (push (computeFValue p (mkNode v (cost_add (dist nu) (COST i)) (prev nv)),
                v) (openList s))
         (closeList s) (target s) (targetID s))
| relaxes_keep v nu nv :
    neighbour p u i = Some v ->
    find_node u (globalList s) = Some nu ->
    find_node v (globalList s) = Some nv ->
    cost_ltb (cost_add (dist nu) (COST i)) (dist nv) = false ->
    relaxes p u i s s.

(** The cells of the table with their predecessors, newest first. *)
Definition skeleton (g : list node_t) : list (Z * option Z) :=
  map (fun n => (id n, prev n)) g.

(** From [s] to [s'] the table only gains nodes: the nodes of [s] keep
    their place and their predecessor. *)
Definition grows (s s' : CPUPathwaySolver) : Prop :=
  exists fresh, skeleton (globalList s') = fresh ++ skeleton (globalList s).

(** From [s] to [s'] every node of the table is still there, at a distance
    that is not larger. *)
Definition improves (s s' : CPUPathwaySolver) : Prop :=
  forall i n, find_node i (globalList s) = Some n ->
    exists n', find_node i (globalList s') = Some n'
               /\ (cost_val (dist n') <= cost_val (dist n))%R.

(** The cells among the calls of [printf], and the number of times a text
    is printed. *)
Fixpoint printed_cells (out : list printed) : list vec2 :=
  match out with
  | [] => []
  | Coordinates x y :: out' => (x, y) :: printed_cells out'
  | Text _ :: out' => printed_cells out'
  end.

Fixpoint count_text (t : string) (out : list printed) : Z :=
  match out with
  | [] => 0
  | Text s :: out' => (if String.eqb s t then 1 else 0) + count_text t out'
  | Coordinates _ _ :: out' => count_text t out'
  end.

(** The calls of [printf] other than those of the text [t]. *)
Definition without_text (t : string) (out : list printed) : list printed :=
  filter (fun c => match c with
                   | Text s => negb (String.eqb s t)
                   | Coordinates _ _ => true
                   end) out.

(** [sep] between every two consecutive elements of a list. *)
Fixpoint intersperse (sep : printed) (l : list printed) : list printed :=
  match l with
  | [] => []
  | a :: rest =>
      match rest with
      | [] => [a]
      | _ :: _ => a :: sep :: intersperse sep rest
      end
  end.


Definition blank_solver : CPUPathwaySolver := mkSolver [] [] [] (0, 0) 0.

(** ** Paths and their costs, in real numbers and in 32-bit floats *)

(** [walk p a b c]: some 8-connected path leads from cell [a] to cell [b],
    and [c] is its cost: 1 for each axial step and [sqrt 2] for each
    diagonal step (section 3). *)
Inductive walk (p : Pathway) (a : Z) : Z -> R -> Prop :=
| walk_here : walk p a a 0%R
| walk_step b c i v :
    walk p a b c -> step p b i v ->
    walk p a v (c + (if i <? 4 then 1 else sqrt 2))%R.

(** The two step costs as 32-bit floats: 1 is [8388608 * 2^-23], and the
    float nearest to [sqrt 2] is [11863283 * 2^-23]. *)
Definition step_cost32 (i : Z) : spec_float :=
  if i <? 4 then S754_finite false 8388608 (-23)
  else S754_finite false 11863283 (-23).

(** [route32 p a b c]: some 8-connected path leads from cell [a] to cell
    [b], and [c] is the sum of its step costs in 32-bit floats, added one
    after the other from [a] on. *)
Inductive route32 (p : Pathway) (a : Z) : Z -> spec_float -> Prop :=
| route32_here : route32 p a a (S754_zero false)
| route32_step b c i v :
    route32 p a b c -> step p b i v ->
    route32 p a v (SFadd 24 128 c (step_cost32 i)).

(** The real number that a finite float stands for. *)
Definition float_val (f : spec_float) : R :=
  match f with
  | S754_finite s m e =>
      ((if s then -1 else 1) * IZR (Zpos m) * powerRZ 2 e)%R
  | _ => 0%R
  end.

Inductive creation_order32 : list F32.node_t -> Prop :=
| creation32_nil : creation_order32 []
| creation32_cons n g :
    creation_order32 g ->
    F32.find_node (F32.id n) g = None ->
    (forall u, F32.prev n = Some u -> F32.find_node u g <> None) ->
    creation_order32 (n :: g).

Inductive chain32 (g : list F32.node_t) : Z -> list Z -> Prop :=
| chain32_start i n :
    F32.find_node i g = Some n -> F32.prev n = None -> chain32 g i [i]
| chain32_next i n u ids :
    F32.find_node i g = Some n -> F32.prev n = Some u -> chain32 g u ids ->
    chain32 g i (i :: ids).

(** What holds of the solver of [F32] between two turns of the expansion
    loop, whatever the direction tables, the order of the queue and the
    rounding of the sums.  [D u i] says that direction [i] of the closed
    cell [u] has been looked at. *)
Record structure32 (p : Pathway) (D : Z -> Z -> Prop)
  (s : F32.CPUPathwaySolver) : Prop := {
  f_order : creation_order32 (F32.globalList s);
  f_cells : forall i n, F32.find_node i (F32.globalList s) = Some n ->
                        0 <= i < cells p;
  f_start : F32.find_node (startID p) (F32.globalList s) <> None;
  f_closed : forall i, In i (F32.closeList s) ->
                       F32.find_node i (F32.globalList s) <> None;
  f_nodup : NoDup (F32.closeList s);
  f_open : forall e, In e (F32.openList s) ->
                     F32.find_node (snd e) (F32.globalList s) <> None;
  f_target : F32.targetID s = toID p (ex p) (ey p);
  f_route : forall i n, F32.find_node i (F32.globalList s) = Some n ->
                        route32 p (startID p) i (F32.dist n);
  f_cover : forall i, F32.find_node i (F32.globalList s) <> None ->
                      ~ In i (F32.closeList s) ->
                      exists k, In (k, i) (F32.openList s);
  f_succ : forall u i v, In u (F32.closeList s) -> D u i -> step p u i v ->
                         F32.find_node v (F32.globalList s) <> None;
  f_first : forall n, F32.find_node (startID p) (F32.globalList s) = Some n ->
                      F32.prev n = None;
  f_others : forall i n, F32.find_node i (F32.globalList s) = Some n ->
                         i <> startID p -> F32.prev n <> None;
  f_edge : forall i n u, F32.find_node i (F32.globalList s) = Some n ->
                         F32.prev n = Some u -> exists d, step p u d i
}.


(* ================================================================== *)
(** * Part III.  Properties                                            *)
(* ================================================================== *)

(** ** Distances are compared as real numbers *)

Lemma sqrt2_sq : (sqrt 2 * sqrt 2 = 2)%R.
Proof. apply sqrt_sqrt. lra. Qed.

Lemma sqrt2_gt0 : (0 < sqrt 2)%R.
Proof. apply sqrt_lt_R0. lra. Qed.

Lemma sqrt2_gt1 : (1 < sqrt 2)%R.
Proof.
  pose proof sqrt2_sq as Hs. pose proof sqrt2_gt0 as Hp.
  destruct (Rlt_le_dec 1 (sqrt 2)) as [|Hle]; [assumption|exfalso].
  assert (sqrt 2 * sqrt 2 <= 1 * 1)%R by (apply Rmult_le_compat; lra).
  lra.
Qed.

Lemma sqrt2_lt2 : (sqrt 2 < 2)%R.
Proof.
  pose proof sqrt2_sq as Hs. pose proof sqrt2_gt0 as Hp.
  destruct (Rlt_le_dec (sqrt 2) 2) as [|Hle]; [assumption|exfalso].
  assert (2 * 2 <= sqrt 2 * sqrt 2)%R by (apply Rmult_le_compat; lra).
  lra.
Qed.

(** For positive [a] and [b], [b * sqrt 2 < a] is a comparison of squares. *)
Lemma sq_compare (a b s : R) :
  (s * s = 2 -> 0 < s -> 0 < a -> 0 < b ->
   (b * s < a <-> 2 * (b * b) < a * a))%R.
Proof.
  intros Hs Hp Ha Hb.
  assert (Hbs : (0 < b * s)%R) by (apply Rmult_lt_0_compat; assumption).
  assert (Hfac : ((a - b * s) * (a + b * s) = a * a - 2 * (b * b))%R).
  { replace 2%R with (s * s)%R. ring. }
  split; intros Hlt.
  - assert (0 < (a - b * s) * (a + b * s))%R
      by (apply Rmult_lt_0_compat; lra).
    lra.
  - destruct (Rlt_le_dec (b * s) a) as [|Hle]; [assumption|exfalso].
    assert (0 <= (b * s - a) * (a + b * s))%R by (apply Rmult_le_pos; lra).
    lra.
Qed.

Lemma sqrt2_pos_spec (x y : Z) :
  sqrt2_pos x y = true <-> (0 < IZR x + IZR y * sqrt 2)%R.
Proof.
  pose proof sqrt2_sq as Hs. pose proof sqrt2_gt0 as Hp.
  generalize dependent (sqrt 2). intros s Hs Hp.
  unfold sqrt2_pos.
  destruct (Z.leb_spec 0 x) as [Hx|Hx], (Z.leb_spec 0 y) as [Hy|Hy];
    cbn [andb].
  - rewrite orb_true_iff, !Z.ltb_lt.
    pose proof (IZR_le _ _ Hx) as Hx'. pose proof (IZR_le _ _ Hy) as Hy'.
    assert (0 <= IZR y * s)%R by (apply Rmult_le_pos; lra).
    split.
    + intros [Hlt|Hlt]; apply IZR_lt in Hlt; [lra|].
      assert (0 < IZR y * s)%R by (apply Rmult_lt_0_compat; lra). lra.
    + intros Hlt. destruct (Z.eq_dec x 0) as [->|]; [|left; lia].
      destruct (Z.eq_dec y 0) as [->|]; [|right; lia]. exfalso; lra.
  - destruct (Z.leb_spec x 0) as [Hx0|Hx0]; cbn [andb].
    + assert (x = 0) by lia; subst.
      replace (y <=? 0) with true by (symmetry; apply Z.leb_le; lia).
      apply IZR_lt in Hy.
      assert (0 < - IZR y * s)%R by (apply Rmult_lt_0_compat; lra).
      split; [discriminate|lra].
    + replace (0 <? x) with true by (symmetry; apply Z.ltb_lt; lia).
      rewrite Z.ltb_lt. apply IZR_lt in Hx0, Hy.
      pose proof (sq_compare (IZR x) (- IZR y) s Hs Hp) as C.
      split; intros Hlt.
      * apply IZR_lt in Hlt. rewrite !mult_IZR in Hlt.
        assert (- IZR y * s < IZR x)%R by (apply C; lra). lra.
      * apply lt_IZR. rewrite !mult_IZR.
        assert (2 * (- IZR y * - IZR y) < IZR x * IZR x)%R by (apply C; lra).
        lra.
  - destruct (Z.leb_spec x 0) as [Hx0|Hx0]; [|lia]. cbn [andb].
    destruct (Z.leb_spec y 0) as [Hy0|Hy0].
    + assert (y = 0) by lia; subst. apply IZR_lt in Hx.
      split; [discriminate|lra].
    + replace (0 <? x) with false by (symmetry; apply Z.ltb_ge; lia).
      rewrite Z.ltb_lt. apply IZR_lt in Hx, Hy0.
      pose proof (sq_compare (- IZR x) (IZR y) s Hs Hp) as C.
      assert (Hys : (0 < IZR y * s)%R) by (apply Rmult_lt_0_compat; lra).
      assert (Hfac : ((IZR x + IZR y * s) * (IZR x - IZR y * s)
                      = IZR x * IZR x - 2 * (IZR y * IZR y))%R).
      { replace 2%R with (s * s)%R. ring. }
      split; intros Hlt.
      * apply IZR_lt in Hlt. rewrite !mult_IZR in Hlt.
        destruct (Rlt_le_dec 0 (IZR x + IZR y * s)) as [|Hle];
          [assumption|exfalso].
        assert (0 <= (- (IZR x + IZR y * s)) * (- (IZR x - IZR y * s)))%R
          by (apply Rmult_le_pos; lra).
        lra.
      * apply lt_IZR. rewrite !mult_IZR.
        assert (0 < (IZR x + IZR y * s) * (- (IZR x - IZR y * s)))%R
          by (apply Rmult_lt_0_compat; lra).
        lra.
  - replace (x <=? 0) with true by (symmetry; apply Z.leb_le; lia).
    replace (y <=? 0) with true by (symmetry; apply Z.leb_le; lia).
    cbn. apply IZR_lt in Hx, Hy.
    assert (0 < - IZR y * s)%R by (apply Rmult_lt_0_compat; lra).
    split; [discriminate|lra].
Qed.

Lemma cost_ltb_lt (a b : cost) :
  cost_ltb a b = true <-> (cost_val a < cost_val b)%R.
Proof.
  unfold cost_ltb, cost_val. rewrite sqrt2_pos_spec, !minus_IZR.
  split; intros Hlt; lra.
Qed.

Lemma cost_ltb_ge (a b : cost) :
  cost_ltb a b = false <-> (cost_val b <= cost_val a)%R.
Proof.
  pose proof (cost_ltb_lt a b) as L.
  destruct (cost_ltb a b).
  - split; [discriminate|]. intros Hc.
    assert (cost_val a < cost_val b)%R by (apply L; reflexivity). lra.
  - split; [|reflexivity]. intros _.
    destruct (Rlt_le_dec (cost_val a) (cost_val b)) as [Hlt|]; [|assumption].
    apply L in Hlt. discriminate.
Qed.

Lemma cost_val_zero : cost_val cost_zero = 0%R.
Proof. unfold cost_val; cbn. lra. Qed.

Lemma cost_val_add (a b : cost) :
  cost_val (cost_add a b) = (cost_val a + cost_val b)%R.
Proof. unfold cost_val, cost_add; cbn. rewrite !plus_IZR. ring. Qed.

Lemma cost_val_COST (i : Z) :
  cost_val (COST i) = if i <? 4 then 1%R else sqrt 2.
Proof. unfold COST. destruct (i <? 4); unfold cost_val; cbn; lra. Qed.

Lemma cost_val_COST_pos (i : Z) : (0 < cost_val (COST i))%R.
Proof.
  rewrite cost_val_COST. pose proof sqrt2_gt0. destruct (i <? 4); lra.
Qed.

(** ** The grid *)

Lemma inrange_true (p : Pathway) (x y : Z) :
  inrange p x y = true <-> 0 <= x < width p /\ 0 <= y < height p.
Proof.
  unfold inrange. rewrite !andb_true_iff, !Z.leb_le, !Z.ltb_lt. lia.
Qed.

Lemma toXY_toID (p : Pathway) (x y : Z) :
  inrange p x y = true -> toXY p (toID p x y) = (x, y).
Proof.
  rewrite inrange_true. intros [Hx Hy]. unfold toXY, toID.
  assert (0 <= y * width p) by nia.
  rewrite Z.rem_mod_nonneg, Z.quot_div_nonneg by lia.
  f_equal.
  - rewrite Z.add_comm, Z.mod_add by lia. apply Z.mod_small; lia.
  - rewrite Z.add_comm, Z.div_add by lia. rewrite Z.div_small by lia. lia.
Qed.

Lemma toID_cell (p : Pathway) (x y : Z) :
  inrange p x y = true -> 0 <= toID p x y < cells p.
Proof.
  rewrite inrange_true. unfold toID, cells. intros [Hx Hy]. nia.
Qed.

(** The test [~mask & 1 << i] of the expansion loop reads bit [i]. *)
Lemma mask_test (g i : Z) :
  0 <= i ->
  (Z.land (Z.lnot g) (Z.shiftl 1 i) =? 0) = Z.testbit g i.
Proof.
  intros Hi.
  assert (Hbit : forall n, 0 <= n ->
            Z.testbit (Z.land (Z.lnot g) (Z.shiftl 1 i)) n
            = negb (Z.testbit g n) && (n =? i)).
  { intros n Hn. rewrite Z.land_spec, Z.lnot_spec, Z.shiftl_spec by lia.
    f_equal. destruct (Z.eqb_spec n i) as [->|Hne].
    - rewrite Z.sub_diag. reflexivity.
    - destruct (Z.ltb_spec n i).
      + apply Z.testbit_neg_r. lia.
      + apply Z.bits_above_log2; cbn; lia. }
  destruct (Z.testbit g i) eqn:Hg.
  - apply Z.eqb_eq. apply Z.bits_inj'. intros n Hn.
    rewrite Hbit, Z.bits_0 by lia.
    destruct (Z.eqb_spec n i) as [->|]; [rewrite Hg|]; cbn;
      auto using andb_false_r.
  - apply Z.eqb_neq. intros H0.
    pose proof (Hbit i Hi) as Hb. rewrite H0, Z.bits_0, Hg, Z.eqb_refl in Hb.
    discriminate.
Qed.

(** ** The global table *)

Lemma find_node_id (i : Z) (g : list node_t) (n : node_t) :
  find_node i g = Some n -> id n = i.
Proof.
  induction g as [|m g IH]; cbn; [discriminate|].
  destruct (Z.eqb_spec (id m) i); [|exact IH].
  intros [= <-]. assumption.
Qed.

Lemma find_node_cons (i : Z) (m : node_t) (g : list node_t) :
  find_node i (m :: g) = if id m =? i then Some m else find_node i g.
Proof. reflexivity. Qed.

Lemma find_node_keys (i : Z) (g : list node_t) :
  find_node i g <> None <-> In i (map id g).
Proof.
  induction g as [|m g IH]; cbn.
  - split; [congruence|tauto].
  - destruct (Z.eqb_spec (id m) i).
    + split; [auto|discriminate].
    + rewrite IH. split; [auto|]. intros [?|?]; [contradiction|assumption].
Qed.

Lemma find_node_skeleton (i : Z) (g : list node_t) :
  option_map (fun n => (id n, prev n)) (find_node i g)
  = find (fun e => fst e =? i) (skeleton g).
Proof.
  induction g as [|m g IH]; cbn; [reflexivity|].
  destruct (id m =? i); [reflexivity|exact IH].
Qed.

Lemma find_set_dist_same (v : Z) (d : cost) (g : list node_t) (n : node_t) :
  find_node v g = Some n ->
  find_node v (set_dist v d g) = Some (mkNode v d (prev n)).
Proof.
  induction g as [|m g IH]; cbn; [discriminate|].
  destruct (Z.eqb_spec (id m) v) as [He|Hne]; cbn.
  - intros [= <-]. rewrite He, Z.eqb_refl. reflexivity.
  - intros Hf. destruct (Z.eqb_spec (id m) v); [contradiction|]. auto.
Qed.

Lemma find_set_dist_other (v i : Z) (d : cost) (g : list node_t) :
  i <> v -> find_node i (set_dist v d g) = find_node i g.
Proof.
  intros Hne. induction g as [|m g IH]; cbn; [reflexivity|].
  destruct (Z.eqb_spec (id m) v) as [He|Hv]; cbn.
  - destruct (Z.eqb_spec (id m) i); [congruence|reflexivity].
  - destruct (id m =? i); [reflexivity|exact IH].
Qed.

Lemma skeleton_set_dist (v : Z) (d : cost) (g : list node_t) :
  skeleton (set_dist v d g) = skeleton g.
Proof.
  induction g as [|m g IH]; cbn; [reflexivity|].
  destruct (id m =? v); cbn; [reflexivity|]. f_equal. exact IH.
Qed.

Lemma find_set_dist_none (v i : Z) (d : cost) (g : list node_t) :
  find_node i (set_dist v d g) = None <-> find_node i g = None.
Proof.
  pose proof (find_node_skeleton i (set_dist v d g)) as H1.
  pose proof (find_node_skeleton i g) as H2.
  rewrite skeleton_set_dist, <- H2 in H1.
  destruct (find_node i (set_dist v d g)), (find_node i g);
    cbn in H1; try discriminate; split; congruence.
Qed.

Lemma creation_order_set_dist (v : Z) (d : cost) (g : list node_t) :
  creation_order g -> creation_order (set_dist v d g).
Proof.
  induction 1 as [|n g Hg IH Hfresh Hprev]; cbn; [constructor|].
  destruct (id n =? v).
  - constructor; assumption.
  - constructor; cbn.
    + exact IH.
    + apply find_set_dist_none. exact Hfresh.
    + intros u Hu. rewrite find_set_dist_none. apply Hprev, Hu.
Qed.

(** The predecessor of a node of the table is a node of the table. *)
Lemma creation_order_prev (g : list node_t) (i u : Z) (n : node_t) :
  creation_order g -> find_node i g = Some n -> prev n = Some u ->
  find_node u g <> None.
Proof.
  induction 1 as [|m g Hg IH Hfresh Hprev]; cbn; [discriminate|].
  destruct (Z.eqb_spec (id m) i) as [He|Hne].
  - intros [= <-] Hu. specialize (Hprev u Hu).
    destruct (Z.eqb_spec (id m) u); [discriminate|assumption].
  - intros Hf Hu. destruct (id m =? u); [discriminate|]. eauto.
Qed.

Lemma creation_order_length (g : list node_t) (n : Z) :
  creation_order g ->
  (forall i m, find_node i g = Some m -> 0 <= i < n) ->
  (length g <= Z.to_nat n)%nat.
Proof.
  intros Hg Hrange.
  assert (Hnd : NoDup (map id g)).
  { induction Hg as [|m g Hg IH Hfresh _]; cbn; constructor.
    - rewrite <- find_node_keys. intros Hin. contradiction.
    - apply IH. intros i k Hf. apply (Hrange i k). cbn.
      destruct (Z.eqb_spec (id m) i) as [He|]; [|assumption].
      rewrite <- He, Hfresh in Hf. discriminate. }
  rewrite <- (length_map id g), <- (length_seq (Z.to_nat n) 0),
    <- (length_map Z.of_nat (seq 0 (Z.to_nat n))).
  apply NoDup_incl_length; [exact Hnd|].
  intros i Hi. apply find_node_keys in Hi.
  destruct (find_node i g) as [m|] eqn:Hf; [|contradiction].
  apply Hrange in Hf. apply in_map_iff. exists (Z.to_nat i).
  split; [lia|]. apply in_seq. lia.
Qed.

(** ** Walking back along the predecessors *)

Lemma walk_back_older (p : Pathway) (n : node_t) (g : list node_t) :
  creation_order (n :: g) ->
  forall fuel i, find_node i g <> None ->
    walk_back fuel p (n :: g) (Some i) = walk_back fuel p g (Some i).
Proof.
  intros Hng. inversion Hng as [|? ? Hg Hfresh Hprev]; subst.
  induction fuel as [|fuel IH]; intros i Hi; [reflexivity|].
  cbn [walk_back]. rewrite find_node_cons.
  destruct (Z.eqb_spec (id n) i) as [He|Hne].
  - rewrite <- He in Hi. contradiction.
  - destruct (find_node i g) as [m|] eqn:Hf; [|contradiction].
    destruct (prev m) as [u|] eqn:Hu.
    + rewrite IH; [reflexivity|].
      eapply creation_order_prev; eassumption.
    + destruct fuel; reflexivity.
Qed.

(** The walk from a node of the table ends before the table is exhausted. *)
Lemma walk_back_total (p : Pathway) (g : list node_t) :
  creation_order g ->
  forall i fuel, find_node i g <> None -> (length g <= fuel)%nat ->
    exists l, walk_back fuel p g (Some i) = Some (Some l)
              /\ (length l <= length g)%nat.
Proof.
  induction 1 as [|n g Hg IH Hfresh Hprev]; intros i fuel Hi Hfuel.
  - cbn in Hi. contradiction.
  - assert (Hng : creation_order (n :: g)) by (constructor; assumption).
    cbn [length] in *. destruct fuel as [|fuel]; [lia|].
    destruct (Z.eqb_spec (id n) i) as [He|Hne].
    + cbn [walk_back]. rewrite find_node_cons, He, Z.eqb_refl.
      destruct (prev n) as [u|] eqn:Hu.
      * rewrite walk_back_older by auto.
        destruct (IH u fuel (Hprev u eq_refl) ltac:(lia)) as (l & -> & Hl).
        eexists; split; [reflexivity|]. cbn. lia.
      * destruct fuel; eexists; (split; [reflexivity|]); cbn; lia.
    + assert (Hi' : find_node i g <> None).
      { rewrite find_node_cons in Hi.
        destruct (Z.eqb_spec (id n) i); [contradiction|assumption]. }
      rewrite walk_back_older by assumption.
      destruct (IH i (S fuel) Hi' ltac:(lia)) as (l & -> & Hl).
      eexists; split; [reflexivity|]. lia.
Qed.

Lemma walk_back_more (p : Pathway) (g : list node_t) :
  forall fuel fuel' x r, (fuel <= fuel')%nat ->
    walk_back fuel p g x = Some r -> walk_back fuel' p g x = Some r.
Proof.
  induction fuel as [|fuel IH]; intros fuel' x r Hle Hw.
  - destruct x; cbn in Hw; [discriminate|].
    destruct fuel'; exact Hw.
  - destruct fuel' as [|fuel']; [lia|]. destruct x as [i|]; [|exact Hw].
    cbn [walk_back] in *. destruct (find_node i g) as [m|]; [|exact Hw].
    destruct (walk_back fuel p g (prev m)) as [r'|] eqn:Hr; [|discriminate].
    rewrite (IH fuel' (prev m) r') by (auto; lia). exact Hw.
Qed.

(** ** The open list *)

Lemma closed_In (i : Z) (c : list Z) : closed i c = true <-> In i c.
Proof.
  unfold closed. rewrite existsb_exists. split.
  - intros (j & Hj & He). apply Z.eqb_eq in He. subst. assumption.
  - intros Hi. exists i. split; [assumption|apply Z.eqb_refl].
Qed.

Lemma closed_not_In (i : Z) (c : list Z) : closed i c = false <-> ~ In i c.
Proof.
  rewrite <- closed_In. destruct (closed i c); split; congruence.
Qed.

Lemma In_push (e x : entry) (q : list entry) :
  In x (push e q) <-> x = e \/ In x q.
Proof.
  induction q as [|y q IH]; cbn.
  - intuition congruence.
  - destruct (ble e y); cbn; [|rewrite IH]; intuition congruence.
Qed.

Lemma pop_open_some (c : list Z) (q q' : list entry) (e : entry) :
  pop_open c q = Some (e, q') ->
  exists stale, q = stale ++ e :: q'
                /\ (forall x, In x stale -> In (snd x) c)
                /\ ~ In (snd e) c.
Proof.
  induction q as [|x q IH]; cbn; [discriminate|].
  destruct (closed (snd x) c) eqn:Hx.
  - intros Hp. destruct (IH Hp) as (stale & -> & Hs & He).
    exists (x :: stale). split; [reflexivity|]. split; [|assumption].
    intros y [<-|Hy]; [apply closed_In; assumption|auto].
  - intros [= <- <-]. exists []. split; [reflexivity|].
    split; [intros ? []|apply closed_not_In; assumption].
Qed.

Lemma pop_open_none (c : list Z) (q : list entry) :
  pop_open c q = None -> forall x, In x q -> In (snd x) c.
Proof.
  induction q as [|y q IH]; cbn; [intros _ ? []|].
  destruct (closed (snd y) c) eqn:Hy; [|discriminate].
  intros Hp x [<-|Hx]; [apply closed_In; assumption|auto].
Qed.

Lemma f_sorted_app (q1 q2 : list entry) :
  f_sorted (q1 ++ q2) -> f_sorted q2.
Proof.
  induction q1 as [|x q1 IH]; cbn; [auto|].
  intros Hs. inversion Hs; auto.
Qed.

(** ** The heuristic *)

Lemma computeFValue_h (p : Pathway) (n : node_t) :
  computeFValue p n = cost_add (dist n) (h p (id n)).
Proof.
  unfold computeFValue, h. destruct (toXY p (id n)) as [x y].
  unfold octile, cost_add, cost_scale, cost_of_int, SQRT2; cbn.
  f_equal; lia.
Qed.

Lemma computeFValue_val (p : Pathway) (n : node_t) :
  cost_val (computeFValue p n)
  = (cost_val (dist n) + cost_val (h p (id n)))%R.
Proof. rewrite computeFValue_h. apply cost_val_add. Qed.

Lemma h_target (p : Pathway) :
  inrange p (ex p) (ey p) = true -> h p (toID p (ex p) (ey p)) = cost_zero.
Proof.
  intros Hr. unfold h. rewrite (toXY_toID p _ _ Hr).
  unfold octile. rewrite !Z.sub_diag. reflexivity.
Qed.

Lemma neighbour_some (p : Pathway) (u i v : Z) :
  neighbour p u i = Some v ->
  exists x y, toXY p u = (x, y)
              /\ Z.testbit (graph p u) i = true
              /\ inrange p (x + DX i) (y + DY i) = true
              /\ v = toID p (x + DX i) (y + DY i).
Proof.
  unfold neighbour. destruct (toXY p u) as [x y].
  destruct (Z.testbit (graph p u) i); cbn; [|discriminate].
  destruct (inrange p (x + DX i) (y + DY i)) eqn:Hr; [|discriminate].
  intros [= <-]. exists x, y. auto.
Qed.

Lemma neighbour_cell (p : Pathway) (u i v : Z) :
  neighbour p u i = Some v -> 0 <= v < cells p.
Proof.
  intros Hn. apply neighbour_some in Hn as (x & y & _ & _ & Hr & ->).
  apply toID_cell. assumption.
Qed.

Lemma In_directions (i : Z) : In i directions <-> 0 <= i < 8.
Proof. unfold directions; cbn. lia. Qed.

(** ** One turn of the expansion loop *)

Lemma expand_relaxes (p : Pathway) (u x y i : Z) (s : CPUPathwaySolver)
  (nu : node_t) :
  0 <= i -> toXY p u = (x, y) ->
  find_node u (globalList s) = Some nu ->
  exists s', expand p u x y i s = Some s' /\ relaxes p u i s s'.
Proof.
  intros Hi Hxy Hu. unfold expand. rewrite mask_test by assumption.
  pose proof (find_node_id _ _ _ Hu) as Hid.
  destruct (Z.testbit (graph p u) i) eqn:Hbit; cbn [negb].
  2:{ exists s. split; [reflexivity|]. apply relaxes_no_edge.
      unfold neighbour. rewrite Hxy, Hbit. reflexivity. }
  destruct (inrange p (x + DX i) (y + DY i)) eqn:Hr.
  2:{ exists s. split; [reflexivity|]. apply relaxes_no_edge.
      unfold neighbour. rewrite Hxy, Hbit, Hr. reflexivity. }
  assert (Hn : neighbour p u i = Some (toID p (x + DX i) (y + DY i))).
  { unfold neighbour. rewrite Hxy, Hbit, Hr. reflexivity. }
  rewrite Hu.
  destruct (find_node (toID p (x + DX i) (y + DY i)) (globalList s))
    as [nv|] eqn:Hv.
  - pose proof (find_node_id _ _ _ Hv) as Hidv.
    destruct (cost_ltb (cost_add (dist nu) (COST i)) (dist nv)) eqn:Hlt.
    + eexists. split; [reflexivity|]. rewrite Hidv.
      eapply relaxes_better; eassumption.
    + exists s. split; [reflexivity|]. eapply relaxes_keep; eassumption.
  - eexists. split; [reflexivity|]. rewrite Hid.
    eapply relaxes_new; eassumption.
Qed.

Lemma find_node_weaken (i : Z) (m : node_t) (g : list node_t) :
  find_node i g <> None -> find_node i (m :: g) <> None.
Proof.
  intros Hf. rewrite find_node_cons. destruct (id m =? i); congruence.
Qed.

Lemma find_node_fresh (i v : Z) (m : node_t) (g : list node_t) :
  id m = v -> find_node v g = None -> find_node i g <> None ->
  find_node i (m :: g) = find_node i g.
Proof.
  intros Hm Hv Hi. rewrite find_node_cons.
  destruct (Z.eqb_spec (id m) i); [congruence|reflexivity].
Qed.

Lemma find_set_dist_some (v i : Z) (d : cost) (g : list node_t) (n : node_t) :
  find_node i (set_dist v d g) = Some n ->
  exists m, find_node i g = Some m /\ prev n = prev m
            /\ (i <> v -> n = m) /\ (i = v -> dist n = d).
Proof.
  intros Hf. destruct (Z.eq_dec i v) as [->|Hne].
  - destruct (find_node v g) as [m|] eqn:Hm.
    + rewrite (find_set_dist_same _ d _ _ Hm) in Hf. injection Hf as <-.
      exists m. cbn. intuition congruence.
    + apply (find_set_dist_none v v d) in Hm. congruence.
  - rewrite find_set_dist_other in Hf by assumption.
    exists n. intuition congruence.
Qed.

Lemma grows_refl (s : CPUPathwaySolver) : grows s s.
Proof. exists []. reflexivity. Qed.

Lemma grows_trans (s1 s2 s3 : CPUPathwaySolver) :
  grows s1 s2 -> grows s2 s3 -> grows s1 s3.
Proof.
  intros [f1 H1] [f2 H2]. exists (f2 ++ f1).
  rewrite H2, H1. apply app_assoc.
Qed.

Lemma grows_keeps (s s' : CPUPathwaySolver) (j : Z) :
  grows s s' -> find_node j (globalList s) <> None ->
  find_node j (globalList s') <> None.
Proof.
  intros [fresh Hsk]. rewrite !find_node_keys.
  assert (Hk : forall g, map id g = map fst (skeleton g)).
  { intros g. unfold skeleton. rewrite map_map. reflexivity. }
  rewrite !Hk, Hsk, map_app. intros Hj. apply in_or_app. right. assumption.
Qed.

Lemma relaxes_structure (p : Pathway) (u i : Z) (s s' : CPUPathwaySolver) :
  structure p s -> In i directions -> relaxes p u i s s' ->
  structure p s' /\ closeList s' = closeList s /\ grows s s'.
Proof.
  intros St Hi Hrel.
  destruct Hrel as [Hn|v nu Hn Hu Hv|v nu nv Hn Hu Hv Hlt|v nu nv Hn Hu Hv Hlt];
    try (split; [assumption|split; [reflexivity|apply grows_refl]]).
  - (* a new node *)
    destruct St as [Ho Hc [n0 [Hs0 Hp0]] Hoth Hcl Hnd Hop Ht He Hr].
    split; [|split; [reflexivity|exists [(v, Some u)]; reflexivity]].
    constructor; cbn [globalList openList closeList targetID].
    + constructor; cbn; [assumption|assumption|].
      intros w [= <-]. congruence.
    + intros j n. rewrite find_node_cons. cbn [id].
      destruct (Z.eqb_spec v j) as [<-|]; [|apply Hc].
      intros _. eapply neighbour_cell; eassumption.
    + exists n0. split; [|assumption].
      rewrite find_node_fresh with (v := v); auto; congruence.
    + intros j n. rewrite find_node_cons. cbn [id].
      destruct (Z.eqb_spec v j) as [<-|]; [|apply Hoth].
      intros [= <-] _. cbn. discriminate.
    + intros j Hj. apply find_node_weaken. auto.
    + assumption.
    + intros e He'. apply In_push in He' as [->|He'].
      * cbn. rewrite Z.eqb_refl. discriminate.
      * apply find_node_weaken. auto.
    + assumption.
    + intros j n w. rewrite find_node_cons. cbn [id].
      destruct (Z.eqb_spec v j) as [<-|]; [|apply He].
      intros [= <-] [= <-]. exists i. split; assumption.
    + intros j n. rewrite find_node_cons. cbn [id].
      destruct (Z.eqb_spec v j) as [<-|]; [|apply Hr].
      intros [= <-]. cbn [dist]. econstructor; [eauto|split; assumption].
  - (* a smaller distance *)
    destruct St as [Ho Hc [n0 [Hs0 Hp0]] Hoth Hcl Hnd Hop Ht He Hr].
    split; [|split; [reflexivity|]].
    2:{ exists []. cbn. apply skeleton_set_dist. }
    constructor; cbn [globalList openList closeList targetID].
    + apply creation_order_set_dist. assumption.
    + intros j n Hf. apply find_set_dist_some in Hf as (m & Hm & _).
      eapply Hc; eassumption.
    + destruct (Z.eq_dec (startID p) v) as [He'|Hne].
      * rewrite He' in *. rewrite (find_set_dist_same _ _ _ _ Hv).
        eexists. split; [reflexivity|]. cbn. congruence.
      * exists n0. rewrite find_set_dist_other by assumption. auto.
    + intros j n Hf Hj. apply find_set_dist_some in Hf as (m & Hm & -> & _).
      eapply Hoth; eassumption.
    + intros j Hj. rewrite find_set_dist_none. auto.
    + assumption.
    + intros e He'. rewrite find_set_dist_none.
      apply In_push in He' as [->|He']; [cbn; congruence|auto].
    + assumption.
    + intros j n w Hf. apply find_set_dist_some in Hf as (m & Hm & -> & _).
      eapply He; eassumption.
    + intros j n Hf.
      apply find_set_dist_some in Hf as (m & Hm & _ & Hne & Heq).
      destruct (Z.eq_dec j v) as [->|Hj].
      * rewrite (Heq eq_refl). econstructor; [eauto|split; assumption].
      * rewrite (Hne Hj). auto.
Qed.

Lemma expand_all_structure (p : Pathway) (u x y : Z) (dirs : list Z) :
  toXY p u = (x, y) -> incl dirs directions ->
  forall s, structure p s -> find_node u (globalList s) <> None ->
    exists s', expand_all p u x y dirs s = Some s'
               /\ structure p s' /\ closeList s' = closeList s /\ grows s s'.
Proof.
  intros Hxy. induction dirs as [|i dirs IH]; intros Hdirs s St Hu.
  - exists s. cbn. auto using grows_refl.
  - destruct (find_node u (globalList s)) as [nu|] eqn:Hnu; [|contradiction].
    assert (Hi : In i directions) by (apply Hdirs; left; reflexivity).
    destruct (expand_relaxes p u x y i s nu) as (s1 & He & Hrel);
      [apply In_directions in Hi; lia|assumption|assumption|].
    destruct (relaxes_structure p u i s s1 St Hi Hrel) as (St1 & Hc1 & Hg1).
    destruct (IH (fun j Hj => Hdirs j (or_intror Hj)) s1 St1)
      as (s' & He' & St' & Hc' & Hg').
    + apply (grows_keeps s s1 u Hg1). congruence.
    + exists s'. cbn [expand_all]. rewrite He.
      split; [assumption|]. split; [assumption|].
      split; [congruence|eapply grows_trans; eassumption].
Qed.

(** ** One turn of the main loop *)

Lemma iteration_cases (wf : nat) (p : Pathway) (s : CPUPathwaySolver) :
  structure p s ->
  (openList s = [] /\ iteration wf p s = Returned NoPath)
  \/ (openList s <> []
      /\ pop_open (closeList s) (openList s) = None
      /\ iteration wf p s = Returned Undefined)
  \/ (exists e q n,
        pop_open (closeList s) (openList s) = Some (e, q)
        /\ find_node (snd e) (globalList s) = Some n
        /\ ((snd e = targetID s
             /\ iteration wf p s
                = match walk_back wf p (globalList s) (Some (snd e)) with
                  | None => Returned OutOfFuel
                  | Some None => Returned Undefined
                  | Some (Some l) => Returned (Found (dist n) (rev l))
                  end)
            \/ (snd e <> targetID s
                /\ iteration wf p s
                   = match
                       expand_all p (snd e) (fst (toXY p (snd e)))
                         (snd (toXY p (snd e))) directions
                         (mkSolver (globalList s) q (snd e :: closeList s)
                                   (target s) (targetID s))
                     with
                     | None => Returned Undefined
                     | Some s2 => Running s2
                     end))).
Proof.
  intros St. unfold iteration.
  destruct (openList s) as [|e0 q0] eqn:Hq; [left; auto|right].
  destruct (pop_open (closeList s) (e0 :: q0)) as [[e q]|] eqn:Hp.
  2:{ left. split; [discriminate|auto]. }
  right. cbn [globalList targetID].
  destruct (pop_open_some _ _ _ _ Hp) as (stale & Hsplit & _ & _).
  assert (He : In e (openList s)).
  { rewrite Hq, Hsplit. apply in_or_app. right. left. reflexivity. }
  pose proof (st_open p s St e He) as Hf.
  destruct (find_node (snd e) (globalList s)) as [n|] eqn:Hn; [|contradiction].
  pose proof (find_node_id _ _ _ Hn) as Hid.
  exists e, q, n. split; [reflexivity|]. split; [exact Hn|].
  rewrite Hid. destruct (Z.eqb_spec (snd e) (targetID s)) as [Ht|Ht].
  - left. auto.
  - right. split; [assumption|]. destruct (toXY p (snd e)); reflexivity.
Qed.

Lemma pop_structure (p : Pathway) (s : CPUPathwaySolver) (e : entry)
  (q : list entry) :
  structure p s -> pop_open (closeList s) (openList s) = Some (e, q) ->
  structure p (mkSolver (globalList s) q (snd e :: closeList s)
                        (target s) (targetID s)).
Proof.
  intros St Hp. destruct (pop_open_some _ _ _ _ Hp) as (stale & Hq & _ & Hne).
  destruct St as [Ho Hc Hs Hoth Hcl Hnd Hop Ht He Hr].
  assert (Hsub : forall x, In x (e :: q) -> In x (openList s)).
  { intros x Hx. rewrite Hq. apply in_or_app. right. assumption. }
  constructor; cbn [globalList openList closeList targetID]; auto.
  - intros j [<-|Hj]; [apply Hop, Hsub; left; reflexivity|auto].
  - constructor; assumption.
  - intros x Hx. apply Hop, Hsub. right. assumption.
Qed.

Lemma iteration_running (wf : nat) (p : Pathway) (s s' : CPUPathwaySolver) :
  structure p s -> iteration wf p s = Running s' ->
  structure p s'
  /\ (exists u, closeList s' = u :: closeList s /\ u <> targetID s)
  /\ grows s s'.
Proof.
  intros St Hrun.
  destruct (iteration_cases wf p s St)
    as [[_ Hi]|[(_ & _ & Hi)|(e & q & n & Hp & Hn & [[Ht Hi]|[Ht Hi]])]];
    rewrite Hi in Hrun; try discriminate.
  - destruct (walk_back wf p (globalList s) (Some (snd e))) as [[l|]|];
      discriminate.
  - pose proof (pop_structure p s e q St Hp) as St1.
    assert (Hxy : toXY p (snd e)
                  = (fst (toXY p (snd e)), snd (toXY p (snd e))))
      by (destruct (toXY p (snd e)); reflexivity).
    destruct (expand_all_structure p _ _ _ directions Hxy (incl_refl _) _ St1)
      as (s2 & He & St2 & Hc2 & Hg2).
    { cbn. congruence. }
    rewrite He in Hrun. injection Hrun as <-.
    split; [assumption|]. split; [|exact Hg2].
      exists (snd e). split; assumption.
Qed.

(** ** Initialisation, termination and the role of the fuel *)

Lemma initialize_eq (p : Pathway) (s : CPUPathwaySolver) :
  initialize p s
  = mkSolver [mkNode (startID p) cost_zero None]
             [(computeFValue p (mkNode (startID p) cost_zero None), startID p)]
             [] (ex p, ey p) (toID p (ex p) (ey p)).
Proof. reflexivity. Qed.

Lemma initialize_structure (p : Pathway) (s : CPUPathwaySolver) :
  inrange p (sx p) (sy p) = true -> structure p (initialize p s).
Proof.
  intros Hr. rewrite initialize_eq.
  constructor; cbn [globalList openList closeList targetID].
  - constructor; [constructor|reflexivity|discriminate].
  - intros i n. cbn. destruct (Z.eqb_spec (startID p) i) as [<-|];
      [|discriminate].
    intros _. apply toID_cell. assumption.
  - eexists. cbn. rewrite Z.eqb_refl. split; reflexivity.
  - intros i n. cbn. destruct (Z.eqb_spec (startID p) i); congruence.
  - intros i [].
  - constructor.
  - intros e [<-|[]]. cbn. rewrite Z.eqb_refl. discriminate.
  - reflexivity.
  - intros i n u. cbn. destruct (Z.eqb_spec (startID p) i); [|discriminate].
    intros [= <-]. discriminate.
  - intros i n. cbn. destruct (Z.eqb_spec (startID p) i) as [<-|];
      [|discriminate].
    intros [= <-]. constructor.
Qed.

Lemma bounded_nodup_length (l : list Z) (n : Z) :
  NoDup l -> (forall i, In i l -> 0 <= i < n) ->
  (length l <= Z.to_nat n)%nat.
Proof.
  intros Hnd Hrange.
  rewrite <- (length_seq (Z.to_nat n) 0),
    <- (length_map Z.of_nat (seq 0 (Z.to_nat n))).
  apply NoDup_incl_length; [exact Hnd|].
  intros i Hi. apply Hrange in Hi. apply in_map_iff. exists (Z.to_nat i).
  split; [lia|]. apply in_seq. lia.
Qed.

Lemma structure_closed_length (p : Pathway) (s : CPUPathwaySolver) :
  structure p s -> (length (closeList s) <= Z.to_nat (cells p))%nat.
Proof.
  intros St. apply bounded_nodup_length; [apply (st_nodup p s St)|].
  intros i Hi. apply (st_closed p s St) in Hi.
  destruct (find_node i (globalList s)) as [n|] eqn:Hf; [|contradiction].
  eapply st_cells; eassumption.
Qed.

Lemma structure_table_length (p : Pathway) (s : CPUPathwaySolver) :
  structure p s -> (length (globalList s) <= Z.to_nat (cells p))%nat.
Proof.
  intros St. apply creation_order_length; [apply (st_order p s St)|].
  apply (st_cells p s St).
Qed.

Lemma structure_walk_back (p : Pathway) (s : CPUPathwaySolver) (i : Z)
  (fuel : nat) :
  structure p s -> find_node i (globalList s) <> None ->
  (Z.to_nat (cells p) <= fuel)%nat ->
  exists l, walk_back fuel p (globalList s) (Some i) = Some (Some l)
            /\ walk_back (Z.to_nat (cells p)) p (globalList s) (Some i)
               = Some (Some l)
            /\ (length l <= Z.to_nat (cells p))%nat.
Proof.
  intros St Hi Hfuel. pose proof (structure_table_length p s St) as Hlen.
  destruct (walk_back_total p _ (st_order p s St) i (length (globalList s)) Hi
              (le_n _)) as (l & Hw & Hl).
  exists l. split; [|split; [|lia]];
    (eapply walk_back_more; [|exact Hw]); lia.
Qed.

Lemma iteration_fuel (p : Pathway) (s : CPUPathwaySolver) (wf wf' : nat) :
  structure p s ->
  (Z.to_nat (cells p) <= wf)%nat -> (Z.to_nat (cells p) <= wf')%nat ->
  iteration wf p s = iteration wf' p s
  /\ iteration wf p s <> Returned OutOfFuel.
Proof.
  intros St Hwf Hwf'. unfold iteration.
  destruct (openList s) as [|e0 q0]; [split; [reflexivity|discriminate]|].
  destruct (pop_open (closeList s) (e0 :: q0)) as [[e q]|];
    [|split; [reflexivity|discriminate]].
  cbn [globalList targetID].
  destruct (find_node (snd e) (globalList s)) as [n|] eqn:Hn;
    [|split; [reflexivity|discriminate]].
  destruct (id n =? targetID s).
  - destruct (structure_walk_back p s (snd e) wf St) as (l & -> & Hl & _);
      [congruence|assumption|].
    destruct (structure_walk_back p s (snd e) wf' St) as (l' & -> & Hl' & _);
      [congruence|assumption|].
    rewrite Hl in Hl'. injection Hl' as <-. split; [reflexivity|discriminate].
  - destruct (toXY p (id n)) as [x y]. split; [reflexivity|].
    destruct (expand_all _ _ _ _ _ _); discriminate.
Qed.

Lemma solve_loop_fuel (p : Pathway) (wf wf' : nat) :
  (Z.to_nat (cells p) <= wf)%nat -> (Z.to_nat (cells p) <= wf')%nat ->
  forall fuel fuel' s,
    structure p s ->
    (Z.to_nat (cells p) < fuel + length (closeList s))%nat ->
    (Z.to_nat (cells p) < fuel' + length (closeList s))%nat ->
    solve_loop wf fuel p s = solve_loop wf' fuel' p s
    /\ solve_loop wf fuel p s <> OutOfFuel.
Proof.
  intros Hwf Hwf'.
  induction fuel as [|fuel IH]; intros fuel' s St Hf Hf';
    pose proof (structure_closed_length p s St) as Hlen; [lia|].
  destruct fuel' as [|fuel']; [lia|]. cbn [solve_loop].
  destruct (iteration_fuel p s wf wf' St Hwf Hwf') as [<- Hne].
  destruct (iteration wf p s) as [s1|o] eqn:Hi.
  - destruct (iteration_running wf p s s1 St Hi) as (St1 & (u & Hc & _) & _).
    apply IH; [assumption|rewrite Hc; cbn; lia|rewrite Hc; cbn; lia].
  - split; [reflexivity|congruence].
Qed.

Lemma turns_structure (p : Pathway) (wf : nat) :
  forall k s s', structure p s -> turns k wf p s = Running s' ->
                 structure p s'.
Proof.
  induction k as [|k IH]; intros s s' St Hk; cbn in Hk.
  - injection Hk as <-. assumption.
  - destruct (iteration wf p s) as [s1|o] eqn:Hi; [|discriminate].
    apply (IH s1 s'); [|assumption].
    apply (iteration_running wf p s s1 St Hi).
Qed.

(** ** The path that [solve] writes *)

Lemma walk_back_chain (p : Pathway) (g : list node_t) :
  forall fuel i l, walk_back fuel p g (Some i) = Some (Some l) ->
    exists ids, chain g i ids /\ l = map (toVec p) ids.
Proof.
  induction fuel as [|fuel IH]; intros i l Hw; [discriminate|].
  cbn [walk_back] in Hw.
  destruct (find_node i g) as [n|] eqn:Hn; [|discriminate].
  pose proof (find_node_id _ _ _ Hn) as Hid.
  destruct (prev n) as [u|] eqn:Hu.
  - destruct (walk_back fuel p g (Some u)) as [[l'|]|] eqn:Hw';
      try discriminate.
    injection Hw as <-. destruct (IH u l' Hw') as (ids & Hc & ->).
    exists (i :: ids). split; [econstructor; eassumption|].
    cbn. rewrite Hid. reflexivity.
  - assert (Hnil : walk_back fuel p g None = Some (Some []))
      by (destruct fuel; reflexivity).
    rewrite Hnil in Hw. injection Hw as <-.
    exists [i]. split; [econstructor; eassumption|].
    cbn. rewrite Hid. reflexivity.
Qed.


Lemma solve_loop_found (p : Pathway) (wf : nat) (d : cost) (sol : list vec2) :
  forall fuel s,
    structure p s -> solve_loop wf fuel p s = Found d sol ->
    exists s', structure p s' /\ iteration wf p s' = Returned (Found d sol).
Proof.
  induction fuel as [|fuel IH]; intros s St Hs; [discriminate|].
  cbn [solve_loop] in Hs.
  destruct (iteration wf p s) as [s1|o] eqn:Hi.
  - apply (IH s1); [|assumption]. apply (iteration_running wf p s s1 St Hi).
  - subst o. exists s. auto.
Qed.

Lemma solve_found_route (p : Pathway) (s0 : CPUPathwaySolver) (fuel : nat)
  (d : cost) (sol : list vec2) :
  inrange p (sx p) (sy p) = true ->
  solve fuel p (initialize p s0) = Found d sol ->
  exists s l,
    structure p s
    /\ find_node (toID p (ex p) (ey p)) (globalList s) <> None
    /\ route p (startID p) (toID p (ex p) (ey p)) d
    /\ walk_back fuel p (globalList s) (Some (toID p (ex p) (ey p)))
       = Some (Some l)
    /\ sol = rev l.
Proof.
  intros Hr Hs.
  destruct (solve_loop_found p fuel d sol fuel _
              (initialize_structure p s0 Hr) Hs) as (s & St & Hi).
  destruct (iteration_cases fuel p s St)
    as [[_ Hi']|[(_ & _ & Hi')|(e & q & n & Hp & Hn & [[Ht Hi']|[Ht Hi']])]];
    rewrite Hi' in Hi; try discriminate.
  - destruct (walk_back fuel p (globalList s) (Some (snd e)))
      as [[l|]|] eqn:Hw; try discriminate.
    injection Hi as <- <-. exists s, l.
    rewrite <- (st_target p s St), <- Ht.
    split; [assumption|]. split; [congruence|].
    split; [apply (st_route p s St); assumption|]. auto.
  - destruct (expand_all _ _ _ _ _ _); discriminate.
Qed.


(** X2.  When no path leads from the start to the target, [solve] ends
    without returning true: it returns false, or the pop loop runs the
    queue empty. *)
Lemma solve_no_route (p : Pathway) (s0 : CPUPathwaySolver) (fuel : nat) :
  inrange p (sx p) (sy p) = true ->
  (forall c, ~ route p (startID p) (toID p (ex p) (ey p)) c) ->
  (Z.to_nat (cells p) < fuel)%nat ->
  solve fuel p (initialize p s0) = NoPath
  \/ solve fuel p (initialize p s0) = Undefined.
Proof.
  intros Hr Hno Hfuel.
  destruct (solve fuel p (initialize p s0)) as [d sol| | |] eqn:Hs; auto.
  - destruct (solve_found_route p s0 fuel d sol Hr Hs)
      as (_ & _ & _ & _ & Hroute & _).
    apply Hno in Hroute. contradiction.
  - exfalso. unfold solve in Hs.
    destruct (solve_loop_fuel p fuel fuel ltac:(lia) ltac:(lia) fuel fuel
                (initialize p s0) (initialize_structure p s0 Hr)) as [_ Hne].
    + rewrite initialize_eq. cbn [closeList length]. lia.
    + rewrite initialize_eq. cbn [closeList length]. lia.
    + contradiction.
Qed.

(** ** Further properties of the table, the closed list and the path *)

Lemma creation_order_nodup (g : list node_t) :
  creation_order g -> NoDup (map id g).
Proof.
  induction 1 as [|m g Hg IH Hfresh _]; cbn; constructor; [|exact IH].
  rewrite <- find_node_keys. intros Hin. contradiction.
Qed.

Lemma reached_structure (p : Pathway) (s0 s : CPUPathwaySolver) (k wf : nat) :
  inrange p (sx p) (sy p) = true ->
  turns k wf p (initialize p s0) = Running s -> structure p s.
Proof.
  intros Hr Hk. eapply turns_structure; [|exact Hk].
  apply initialize_structure. assumption.
Qed.

(** X3.  In every state that the main loop reaches, the table holds at
    most one record per cell, every record is for a cell of the grid, so
    that there are at most [N] records, and every element of the open list
    and every closed identifier has its record in the table. *)
Theorem table_one_record_per_cell (p : Pathway) (s0 s : CPUPathwaySolver)
  (k wf : nat) :
  inrange p (sx p) (sy p) = true ->
  turns k wf p (initialize p s0) = Running s ->
  NoDup (map id (globalList s))
  /\ (length (globalList s) <= Z.to_nat (cells p))%nat
  /\ (forall n, In n (globalList s) -> 0 <= id n < cells p)
  /\ (forall e, In e (openList s) -> In (snd e) (map id (globalList s)))
  /\ (forall i, In i (closeList s) -> In i (map id (globalList s))).
Proof.
  intros Hr Hk. pose proof (reached_structure p s0 s k wf Hr Hk) as St.
  split; [apply creation_order_nodup, (st_order p s St)|].
  split; [apply structure_table_length; assumption|].
  split; [|split].
  - intros n Hn.
    assert (Hkey : find_node (id n) (globalList s) <> None)
      by (apply find_node_keys, in_map; assumption).
    destruct (find_node (id n) (globalList s)) as [m|] eqn:Hm;
      [|contradiction].
    apply (st_cells p s St _ _ Hm).
  - intros e He. apply find_node_keys, (st_open p s St). assumption.
  - intros i Hi. apply find_node_keys, (st_closed p s St). assumption.
Qed.

(** X4.  A turn of the main loop that does not return closes exactly one
    cell: a cell that was not closed before and that is not the target.
    Identifiers are only added to the closed list, at most once each. *)
Theorem turn_closes_one_cell (p : Pathway) (s0 s s' : CPUPathwaySolver)
  (k wf : nat) :
  inrange p (sx p) (sy p) = true ->
  turns k wf p (initialize p s0) = Running s ->
  iteration wf p s = Running s' ->
  exists u, closeList s' = u :: closeList s
            /\ ~ In u (closeList s)
            /\ u <> toID p (ex p) (ey p)
            /\ NoDup (closeList s').
Proof.
  intros Hr Hk Hi. pose proof (reached_structure p s0 s k wf Hr Hk) as St.
  destruct (iteration_running wf p s s' St Hi) as (St' & (u & Hc & Hu) & _).
  pose proof (st_nodup p s' St') as Hnd. exists u.
  split; [assumption|]. rewrite Hc in Hnd. inversion Hnd; subst.
  split; [assumption|]. split; [|rewrite Hc; assumption].
  rewrite <- (st_target p s St). assumption.
Qed.

Lemma improves_refl (s : CPUPathwaySolver) : improves s s.
Proof. intros i n Hn. exists n. split; [assumption|apply Rle_refl]. Qed.

Lemma improves_trans (s1 s2 s3 : CPUPathwaySolver) :
  improves s1 s2 -> improves s2 s3 -> improves s1 s3.
Proof.
  intros H12 H23 i n Hn.
  destruct (H12 i n Hn) as (n2 & Hn2 & Hle2).
  destruct (H23 i n2 Hn2) as (n3 & Hn3 & Hle3).
  exists n3. split; [assumption|lra].
Qed.

Lemma expand_improves (p : Pathway) (u x y i : Z) (s s' : CPUPathwaySolver) :
  expand p u x y i s = Some s' -> improves s s'.
Proof.
  unfold expand.
  destruct (negb (Z.land (Z.lnot (graph p u)) (Z.shiftl 1 i) =? 0));
    [intros [= <-]; apply improves_refl|].
  destruct (inrange p (x + DX i) (y + DY i));
    [|intros [= <-]; apply improves_refl].
  destruct (find_node u (globalList s)) as [nu|]; [|discriminate].
  destruct (find_node (toID p (x + DX i) (y + DY i)) (globalList s))
    as [nv|] eqn:Hv.
  - destruct (cost_ltb (cost_add (dist nu) (COST i)) (dist nv)) eqn:Hlt;
      [|intros [= <-]; apply improves_refl].
    intros [= <-] j n Hn. cbn [globalList].
    destruct (Z.eq_dec j (toID p (x + DX i) (y + DY i))) as [->|Hj].
    + rewrite (find_set_dist_same _ _ _ _ Hv). eexists.
      split; [reflexivity|]. cbn [dist]. apply cost_ltb_lt in Hlt.
      replace n with nv by congruence. lra.
    + rewrite find_set_dist_other by assumption. exists n.
      split; [assumption|apply Rle_refl].
  - intros [= <-] j n Hn. cbn [globalList]. exists n.
    split; [|apply Rle_refl].
    rewrite find_node_cons. cbn [id].
    destruct (Z.eqb_spec (toID p (x + DX i) (y + DY i)) j); congruence.
Qed.

Lemma expand_all_improves (p : Pathway) (u x y : Z) (dirs : list Z) :
  forall s s', expand_all p u x y dirs s = Some s' -> improves s s'.
Proof.
  induction dirs as [|i dirs IH]; intros s s' He; cbn in He.
  - injection He as <-. apply improves_refl.
  - destruct (expand p u x y i s) as [s1|] eqn:H1; [|discriminate].
    eapply improves_trans; [eapply expand_improves; eassumption|auto].
Qed.

(** X5.  Across a turn of the main loop no record leaves the table and no
    distance grows: [g] only ever decreases. *)
Theorem dist_never_increases (p : Pathway) (s s' : CPUPathwaySolver)
  (wf : nat) :
  iteration wf p s = Running s' -> improves s s'.
Proof.
  unfold iteration.
  destruct (openList s) as [|e0 q0]; [discriminate|].
  destruct (pop_open (closeList s) (e0 :: q0)) as [[e q]|]; [|discriminate].
  cbn [globalList targetID].
  destruct (find_node (snd e) (globalList s)) as [n|]; [|discriminate].
  destruct (id n =? targetID s).
  - destruct (walk_back wf p (globalList s) (Some (snd e))) as [[l|]|];
      discriminate.
  - destruct (toXY p (id n)) as [x y].
    destruct (expand_all _ _ _ _ _ _) as [s2|] eqn:He; [|discriminate].
    intros [= <-]. apply expand_all_improves in He. exact He.
Qed.


Lemma chain_keys (g : list node_t) (i : Z) (ids : list Z) :
  chain g i ids -> forall j, In j ids -> find_node j g <> None.
Proof.
  induction 1 as [i n Hn Hp|i n u ids Hn Hp Hc IH]; intros j Hj.
  - destruct Hj as [<-|[]]. congruence.
  - destruct Hj as [<-|Hj]; [congruence|auto].
Qed.

Lemma chain_older (n : node_t) (g : list node_t) :
  creation_order (n :: g) ->
  forall i ids, chain (n :: g) i ids -> find_node i g <> None ->
                chain g i ids.
Proof.
  intros Hng. inversion Hng as [|? ? Hg Hfresh Hprev]; subst.
  assert (Hsame : forall i, find_node i g <> None ->
                            find_node i (n :: g) = find_node i g).
  { intros i Hi. rewrite find_node_cons.
    destruct (Z.eqb_spec (id n) i); [congruence|reflexivity]. }
  induction 1 as [i m Hm Hp|i m u ids Hm Hp Hc IH]; intros Hi;
    rewrite (Hsame i Hi) in Hm.
  - econstructor; eassumption.
  - econstructor; [eassumption|eassumption|].
    apply IH. eapply creation_order_prev; eassumption.
Qed.

Lemma chain_nodup (g : list node_t) :
  creation_order g -> forall i ids, chain g i ids -> NoDup ids.
Proof.
  induction 1 as [|n g Hg IH Hfresh Hprev]; intros i ids Hc.
  - inversion Hc; discriminate.
  - assert (Hng : creation_order (n :: g)) by (constructor; assumption).
    assert (Hi : find_node i (n :: g) <> None).
    { apply (chain_keys _ _ _ Hc). inversion Hc; left; reflexivity. }
    destruct (Z.eq_dec (id n) i) as [He|Hne].
    + inversion Hc as [? m Hm Hp|? m u ids' Hm Hp Hc']; subst.
      * constructor; [intros []|constructor].
      * rewrite find_node_cons, Z.eqb_refl in Hm. injection Hm as <-.
        pose proof (chain_older n g Hng u ids' Hc' (Hprev u Hp)) as Hold.
        constructor; [|eapply IH; eassumption].
        intros Hin. apply (chain_keys _ _ _ Hold) in Hin. contradiction.
    + apply (IH i). apply (chain_older n g Hng); [assumption|].
      rewrite find_node_cons in Hi.
      destruct (Z.eqb_spec (id n) i); [contradiction|assumption].
Qed.

(** X7.  Whenever [solve] returns true, the path it writes names no cell
    twice, and it has at least one and at most [N] cells. *)
Theorem solution_visits_cells_once (p : Pathway) (s0 : CPUPathwaySolver)
  (fuel : nat) (d : cost) (sol : list vec2) :
  inrange p (sx p) (sy p) = true ->
  solve fuel p (initialize p s0) = Found d sol ->
  exists ids, sol = map (toVec p) ids
              /\ NoDup ids
              /\ (1 <= length sol <= Z.to_nat (cells p))%nat.
Proof.
  intros Hr Hs.
  destruct (solve_found_route p s0 fuel d sol Hr Hs)
    as (s & l & St & _ & _ & Hw & ->).
  destruct (walk_back_chain p _ _ _ _ Hw) as (ids & Hc & ->).
  pose proof (chain_nodup _ (st_order p s St) _ _ Hc) as Hnd.
  exists (rev ids). split; [symmetry; apply map_rev|].
  split; [apply NoDup_rev; assumption|].
  rewrite length_rev, length_map. split.
  - inversion Hc; cbn; lia.
  - apply bounded_nodup_length; [assumption|].
    intros j Hj. apply (chain_keys _ _ _ Hc) in Hj.
    destruct (find_node j (globalList s)) as [m|] eqn:Hm; [|contradiction].
    apply (st_cells p s St _ _ Hm).
Qed.

(** X8.  On a problem filled by [generateGraph], the mask vector has
    exactly [W * H] bytes, and in every state that the main loop reaches
    every record of the table is for an index inside the vector: the
    expansion never reads a mask out of bounds. *)
Theorem solver_reads_inside_graph (p : Pathway) (input : PathwayInput)
  (s0 s : CPUPathwaySolver) (k wf : nat) :
  inrange (generateGraph p input)
          (sx (generateGraph p input)) (sy (generateGraph p input)) = true ->
  turns k wf (generateGraph p input)
        (initialize (generateGraph p input) s0) = Running s ->
  length (m_graph (generateGraph p input)) = Z.to_nat (width p * height p)
  /\ forall i n,
       find_node i (globalList s) = Some n ->
       0 <= i
       /\ (Z.to_nat i < length (m_graph (generateGraph p input)))%nat
       /\ 0 <= graph (generateGraph p input) i < 256.
Proof.
  intros Hr Hk.
  pose proof (reached_structure _ s0 s k wf Hr Hk) as St.
  assert (Hlen : length (m_graph (generateGraph p input))
                 = Z.to_nat (width p * height p)).
  { cbn [generateGraph m_graph]. rewrite length_map, length_seq. reflexivity. }
  split; [exact Hlen|]. intros i n Hn.
  pose proof (st_cells _ s St i n Hn) as Hi.
  change (cells (generateGraph p input)) with (width p * height p) in Hi.
  split; [lia|]. split; [lia|].
  unfold graph. cbn [generateGraph m_graph].
  set (byte := fun k => generate input k mod 256).
  rewrite nth_indep with (d' := byte O)
    by (rewrite length_map, length_seq; lia).
  rewrite map_nth. apply Z.mod_pos_bound. lia.
Qed.


(** ** The search invariant

    From here on the queue hands out an element of least [f] first, and
    the direction tables follow the reference convention: directions 0-3
    move by one along one axis, directions 4-7 by one along both. *)

Hypothesis ble_total : forall a b, ble a b = true \/ ble b a = true.
Hypothesis ble_f :
  forall a b, ble a b = true -> (cost_val (fst a) <= cost_val (fst b))%R.
Hypothesis axial :
  forall i, 0 <= i < 4 -> Z.abs (DX i) + Z.abs (DY i) = 1.
Hypothesis diagonal :
  forall i, 4 <= i < 8 -> Z.abs (DX i) = 1 /\ Z.abs (DY i) = 1.

Lemma f_sorted_push (e : entry) (q : list entry) :
  f_sorted q -> f_sorted (push e q).
Proof.
  induction 1 as [|x q Hq IH Hx]; cbn.
  - constructor; [constructor|intros ? []].
  - destruct (ble e x) eqn:Hb.
    + constructor; [constructor; assumption|].
      apply ble_f in Hb. intros e' [<-|He']; [assumption|].
      specialize (Hx e' He'). lra.
    + constructor; [assumption|].
      intros e' He'. apply In_push in He' as [->|He']; [|auto].
      destruct (ble_total e x) as [Hc|Hc]; [congruence|].
      apply ble_f. assumption.
Qed.

(** The octile distance changes by at most the cost of the step. *)
Lemma octile_step (p : Pathway) (x y i : Z) :
  In i directions ->
  (cost_val (octile p x y)
   <= cost_val (COST i) + cost_val (octile p (x + DX i) (y + DY i)))%R.
Proof.
  intros Hi. apply In_directions in Hi.
  pose proof sqrt2_gt1 as H1. pose proof sqrt2_lt2 as H2.
  rewrite cost_val_COST. unfold octile, cost_val; cbn [units diags].
  set (U := Z.abs (Z.abs (x - ex p) - Z.abs (y - ey p))).
  set (m := Z.min (Z.abs (x - ex p)) (Z.abs (y - ey p))).
  set (U' := Z.abs (Z.abs (x + DX i - ex p) - Z.abs (y + DY i - ey p))).
  set (m' := Z.min (Z.abs (x + DX i - ex p)) (Z.abs (y + DY i - ey p))).
  destruct (Z.ltb_spec i 4) as [Hlt|Hge].
  - pose proof (axial i ltac:(lia)) as Ha.
    assert (Hc : (m' = m - 1 /\ U + 1 <= U') \/ (m' = m /\ U - 1 <= U')
                 \/ (m' = m + 1 /\ U - 2 <= U')) by (subst U m U' m'; lia).
    destruct Hc as [[-> Hu]|[[-> Hu]|[-> Hu]]]; apply IZR_le in Hu;
      rewrite ?plus_IZR, ?minus_IZR in *; lra.
  - pose proof (diagonal i ltac:(lia)) as [Hdx Hdy].
    assert (Hc : (m' = m - 1 /\ U <= U') \/ (m' = m /\ U - 1 <= U')
                 \/ (m' = m + 1 /\ U - 2 <= U')) by (subst U m U' m'; lia).
    destruct Hc as [[-> Hu]|[[-> Hu]|[-> Hu]]]; apply IZR_le in Hu;
      rewrite ?plus_IZR, ?minus_IZR in *; lra.
Qed.

(** Consistency: [h(u) <= cost(u, v) + h(v)] on every edge. *)
Lemma h_consistent (p : Pathway) (u i v : Z) :
  step p u i v ->
  (cost_val (h p u) <= cost_val (COST i) + cost_val (h p v))%R.
Proof.
  intros [Hi Hn]. apply neighbour_some in Hn as (x & y & Hxy & _ & Hr & ->).
  unfold h. rewrite Hxy, (toXY_toID p _ _ Hr). apply octile_step. assumption.
Qed.

Lemma route_nonneg (p : Pathway) (a b : Z) (c : cost) :
  route p a b c -> (0 <= cost_val c)%R.
Proof.
  induction 1 as [|b c i v Hr IH Hs].
  - rewrite cost_val_zero. lra.
  - rewrite cost_val_add. pose proof (cost_val_COST_pos i). lra.
Qed.

Lemma search_weaken (p : Pathway) (D1 D2 : Z -> Z -> Prop)
  (s : CPUPathwaySolver) :
  (forall a j, In j directions -> D2 a j -> D1 a j) ->
  search p D1 s -> search p D2 s.
Proof.
  intros HD [St Hz Hb Hs Ho Hc Hq].
  constructor; auto.
  intros u nu i v Hu HD2 Hf Hst. eapply Hs; eauto.
  apply HD; [apply Hst|assumption].
Qed.

(** Along every route from the start there is a cell that is still open
    and whose [f] is at most the cost of the route plus [h] at its end,
    unless the end of the route is closed at a distance within the cost. *)
Lemma frontier (p : Pathway) (s : CPUPathwaySolver) :
  search p (fun _ _ => True) s ->
  forall v c, route p (startID p) v c ->
    (exists n, In v (closeList s) /\ find_node v (globalList s) = Some n
               /\ (cost_val (dist n) <= cost_val c)%R)
    \/ (exists w n, find_node w (globalList s) = Some n
                    /\ ~ In w (closeList s)
                    /\ (cost_val (dist n) + cost_val (h p w)
                        <= cost_val c + cost_val (h p v))%R).
Proof.
  intros [St Hz Hb Hs Ho Hc Hq].
  induction 1 as [|b c i v Hroute IH Hstep].
  - destruct (st_start p s St) as (n0 & Hn0 & _).
    pose proof (Hz n0 Hn0) as Hd.
    destruct (in_dec Z.eq_dec (startID p) (closeList s)) as [Hin|Hout].
    + left. exists n0. rewrite Hd. split; [assumption|].
      split; [assumption|lra].
    + right. exists (startID p), n0. rewrite Hd.
      split; [assumption|]. split; [assumption|lra].
  - pose proof (h_consistent p b i v Hstep) as Hcons.
    rewrite cost_val_add.
    destruct IH as [(nb & Hbc & Hnb & Hle)|(w & n & Hw & Hwo & Hle)].
    + destruct (Hs b nb i v Hbc I Hnb Hstep) as (nv & Hnv & Hlev).
      destruct (in_dec Z.eq_dec v (closeList s)) as [Hin|Hout].
      * left. exists nv. split; [assumption|]. split; [assumption|lra].
      * right. exists v, nv. split; [assumption|]. split; [assumption|lra].
    + right. exists w, n. split; [assumption|]. split; [assumption|lra].
Qed.

(** Closing the cell that the pop loop hands out. *)
Lemma pop_search (p : Pathway) (s : CPUPathwaySolver) (e : entry)
  (q : list entry) :
  search p (fun _ _ => True) s ->
  pop_open (closeList s) (openList s) = Some (e, q) ->
  search p (fun a _ => a <> snd e)
         (mkSolver (globalList s) q (snd e :: closeList s)
                   (target s) (targetID s)).
Proof.
  intros Se Hp. pose proof (frontier p s Se) as Hfront.
  destruct Se as [St Hz Hb Hs Ho Hc Hq].
  pose proof (st_route p s St) as Hr.
  destruct (pop_open_some _ _ _ _ Hp) as (stale & Hsplit & Hstale & Hne).
  assert (Hrest : forall k j, In (k, j) (openList s) -> ~ In j (closeList s) ->
                    (k, j) = e \/ In (k, j) q).
  { intros k j Hin Hj. rewrite Hsplit in Hin.
    apply in_app_or in Hin as [Hin|[Hin|Hin]]; auto.
    apply Hstale in Hin. contradiction. }
  assert (Hsort : f_sorted (e :: q)).
  { rewrite Hsplit in Hq. eapply f_sorted_app. exact Hq. }
  constructor; cbn [globalList openList closeList targetID]; auto.
  - apply pop_structure; assumption.
  - intros i n c [<-|Hi] Hn Hroute; [|eauto].
    destruct (Hfront _ _ Hroute)
      as [(? & Hin & _)|(w & nw & Hw & Hwo & Hle)]; [contradiction|].
    assert (Hfe : (cost_val (computeFValue p n) <= cost_val (fst e))%R).
    { destruct e as [k j]. cbn in *.
      destruct (Ho k j) as (n' & Hn' & Hk).
      - rewrite Hsplit. apply in_or_app. right. left. reflexivity.
      - congruence. }
    assert (Hew : (cost_val (fst e) <= cost_val (computeFValue p nw))%R).
    { destruct (Hrest _ _ (Hc w nw Hw Hwo) Hwo) as [<-|Hin]; [cbn; lra|].
      inversion Hsort as [|? ? _ Hmin]; subst.
      apply (Hmin _ Hin). }
    rewrite !computeFValue_val in *.
    rewrite (find_node_id _ _ _ Hn), (find_node_id _ _ _ Hw) in *. lra.
  - intros u nu i v [<-|Hu] Hd Hnu Hstep; [contradiction|eauto].
  - intros k i Hin. apply Ho. rewrite Hsplit. apply in_or_app.
    right. right. assumption.
  - intros i n Hn Hi.
    assert (Hi' : ~ In i (closeList s)) by (intros Hin; apply Hi; right; exact Hin).
    destruct (Hrest (computeFValue p n) i (Hc i n Hn Hi') Hi') as [<-|Hin];
      [|assumption].
    exfalso. apply Hi. left. reflexivity.
  - inversion Hsort; assumption.
Qed.

Lemma step_unique (p : Pathway) (u i v w : Z) :
  neighbour p u i = Some v -> step p u i w -> w = v.
Proof. intros Hv [_ Hw]. congruence. Qed.

(** One turn of the expansion loop keeps the search invariant and settles
    direction [i] of the cell [u] that is being expanded. *)
Lemma relaxes_search (p : Pathway) (D : Z -> Z -> Prop) (u i : Z)
  (s s' : CPUPathwaySolver) :
  search p D s -> In u (closeList s) -> In i directions ->
  relaxes p u i s s' ->
  search p (fun a j => D a j \/ (a = u /\ j = i)) s'.
Proof.
  intros Se Hu Hi Hrel.
  pose proof (relaxes_structure p u i s s' (se_structure p D s Se) Hi Hrel)
    as (St' & _ & _).
  destruct Se as [St Hz Hb Hs Ho Hc Hq].
  pose proof (st_route p s St) as Hr.
  destruct Hrel as [Hn|v nu Hn Hnu Hv|v nu nv Hn Hnu Hv Hlt|v nu nv Hn Hnu Hv Hlt].
  - (* no edge *)
    constructor; auto.
    intros a na j w Ha [Hd|[-> ->]] Hna Hst; [eauto|].
    destruct Hst as [_ Hst]. congruence.
  - (* a cell seen for the first time *)
    assert (Hstep : step p u i v) by (split; assumption).
    assert (Hold : forall j, find_node j (globalList s) <> None ->
              find_node j (mkNode v (cost_add (dist nu) (COST i)) (Some u)
                             :: globalList s)
              = find_node j (globalList s)).
    { intros j Hj. apply find_node_fresh with (v := v); auto. }
    assert (Hclosed : forall j, In j (closeList s) -> j <> v).
    { intros j Hj ->. apply (st_closed p s St) in Hj. contradiction. }
    constructor; cbn [globalList openList closeList targetID]; auto.
    + intros n. destruct (st_start p s St) as (n0 & Hn0 & _).
      rewrite Hold by congruence. apply Hz.
    + intros j n c Hj. rewrite Hold by (apply (st_closed p s St); assumption).
      apply Hb. assumption.
    + intros a na j w Ha Hd.
      rewrite Hold by (apply (st_closed p s St); assumption).
      intros Hna Hst. destruct Hd as [Hd|[-> ->]].
      * destruct (Hs a na j w Ha Hd Hna Hst) as (nw & Hnw & Hle).
        exists nw. rewrite Hold by congruence. auto.
      * rewrite (step_unique p u i v w Hn Hst).
        eexists. rewrite find_node_cons. cbn [id]. rewrite Z.eqb_refl.
        split; [reflexivity|]. cbn [dist]. rewrite cost_val_add.
        replace na with nu by congruence. lra.
    + intros k j Hin. apply In_push in Hin as [[= -> ->]|Hin].
      * eexists. rewrite find_node_cons. cbn [id]. rewrite Z.eqb_refl.
        split; [reflexivity|lra].
      * destruct (Ho k j Hin) as (n & Hfn & Hle). exists n.
        rewrite Hold by congruence. auto.
    + intros j n. rewrite find_node_cons. cbn [id].
      destruct (Z.eqb_spec v j) as [<-|].
      * intros [= <-] _. apply In_push. left. reflexivity.
      * intros Hfn Hj. apply In_push. right. auto.
    + apply f_sorted_push. assumption.
  - (* a known cell reached at a smaller distance *)
    assert (Hstep : step p u i v) by (split; assumption).
    apply cost_ltb_lt in Hlt.
    assert (Hroute : route p (startID p) v (cost_add (dist nu) (COST i)))
      by (econstructor; eauto).
    assert (Hopen : ~ In v (closeList s)).
    { intros Hin. pose proof (Hb v nv _ Hin Hv Hroute). lra. }
    assert (Hns : v <> startID p).
    { intros ->. rewrite (Hz nv Hv), cost_val_zero in Hlt.
      apply route_nonneg in Hroute. lra. }
    assert (Hclosed : forall j, In j (closeList s) -> j <> v) by congruence.
    constructor; cbn [globalList openList closeList targetID]; auto.
    + intros n. rewrite find_set_dist_other by congruence. apply Hz.
    + intros j n c Hj. rewrite find_set_dist_other by auto. apply Hb.
      assumption.
    + intros a na j w Ha Hd. rewrite find_set_dist_other by auto.
      intros Hna Hst.
      assert (Hw : exists nw, find_node w (globalList s) = Some nw
                /\ (w = v -> (cost_val (cost_add (dist nu) (COST i))
                              <= cost_val (dist na) + cost_val (COST j))%R)
                /\ (w <> v -> (cost_val (dist nw)
                               <= cost_val (dist na) + cost_val (COST j))%R)).
      { destruct Hd as [Hd|[-> ->]].
        - destruct (Hs a na j w Ha Hd Hna Hst) as (nw & Hnw & Hle).
          exists nw. split; [assumption|]. split; [|auto].
          intros ->. replace nw with nv in Hle by congruence. lra.
        - rewrite (step_unique p u i v w Hn Hst). exists nv.
          split; [assumption|]. split; [|congruence].
          intros _. rewrite cost_val_add.
          replace na with nu by congruence. lra. }
      destruct Hw as (nw & Hnw & Hsame & Hother).
      destruct (Z.eq_dec w v) as [->|Hwv].
      * rewrite (find_set_dist_same _ _ _ _ Hv). eexists.
        split; [reflexivity|]. cbn [dist]. auto.
      * rewrite find_set_dist_other by assumption. eauto.
    + intros k j Hin. apply In_push in Hin as [[= -> ->]|Hin].
      * rewrite (find_set_dist_same _ _ _ _ Hv). eexists.
        split; [reflexivity|lra].
      * destruct (Ho k j Hin) as (n & Hfn & Hle).
        destruct (Z.eq_dec j v) as [->|Hj].
        -- rewrite (find_set_dist_same _ _ _ _ Hv). eexists.
           split; [reflexivity|].
           replace n with nv in Hle by congruence.
           rewrite !computeFValue_val in *. cbn [dist id].
           rewrite (find_node_id _ _ _ Hv) in Hle. lra.
        -- rewrite find_set_dist_other by assumption. eauto.
    + intros j n Hfn Hj. apply In_push.
      destruct (Z.eq_dec j v) as [->|Hjv].
      * left. rewrite (find_set_dist_same _ _ _ _ Hv) in Hfn.
        injection Hfn as <-. reflexivity.
      * right. rewrite find_set_dist_other in Hfn by assumption. auto.
    + apply f_sorted_push. assumption.
  - (* a known cell left as it is *)
    apply cost_ltb_ge in Hlt. rewrite cost_val_add in Hlt.
    constructor; auto.
    intros a na j w Ha [Hd|[-> ->]] Hna Hst; [eauto|].
    rewrite (step_unique p u i v w Hn Hst). exists nv.
    split; [assumption|]. replace na with nu by congruence. lra.
Qed.

Lemma expand_all_search (p : Pathway) (u x y : Z) (dirs : list Z) :
  toXY p u = (x, y) -> incl dirs directions ->
  forall D s s',
    search p D s -> In u (closeList s) ->
    expand_all p u x y dirs s = Some s' ->
    search p (fun a j => D a j \/ (a = u /\ In j dirs)) s'
    /\ closeList s' = closeList s.
Proof.
  intros Hxy. induction dirs as [|i dirs IH]; intros Hdirs D s s' Se Hu He.
  - cbn in He. injection He as <-. split; [|reflexivity].
    eapply search_weaken; [|exact Se]. cbn. tauto.
  - cbn [expand_all] in He.
    assert (Hi : In i directions) by (apply Hdirs; left; reflexivity).
    pose proof (st_closed p s (se_structure p D s Se) u Hu) as Hnu.
    destruct (find_node u (globalList s)) as [nu|] eqn:Hfu; [|contradiction].
    destruct (expand_relaxes p u x y i s nu) as (s1 & He1 & Hrel); auto.
    { apply In_directions in Hi. lia. }
    rewrite He1 in He.
    pose proof (relaxes_search p D u i s s1 Se Hu Hi Hrel) as Se1.
    pose proof (relaxes_structure p u i s s1 (se_structure p D s Se) Hi Hrel)
      as (_ & Hc1 & _).
    destruct (IH (fun j Hj => Hdirs j (or_intror Hj)) _ s1 s' Se1) as [Se' Hc'];
      [rewrite Hc1; assumption|assumption|].
    split; [|congruence].
    eapply search_weaken; [|exact Se']. cbn. intros a j _ [Hd|[-> [<-|Hj]]]; auto.
Qed.

(** One turn of the main loop keeps the search invariant. *)
Lemma iteration_search (wf : nat) (p : Pathway) (s s' : CPUPathwaySolver) :
  search p (fun _ _ => True) s -> iteration wf p s = Running s' ->
  search p (fun _ _ => True) s'.
Proof.
  intros Se Hrun. pose proof (se_structure p _ s Se) as St.
  destruct (iteration_cases wf p s St)
    as [[_ Hi]|[(_ & _ & Hi)|(e & q & n & Hp & Hn & [[Ht Hi]|[Ht Hi]])]];
    rewrite Hi in Hrun; try discriminate.
  - destruct (walk_back wf p (globalList s) (Some (snd e))) as [[l|]|];
      discriminate.
  - pose proof (pop_search p s e q Se Hp) as Se1.
    destruct (expand_all _ _ _ _ _ _) as [s2|] eqn:He; [|discriminate].
    injection Hrun as <-.
    eapply expand_all_search in He as [Se2 _];
      [| destruct (toXY p (snd e)); reflexivity
       | apply incl_refl | exact Se1 | left; reflexivity ].
    eapply search_weaken; [|exact Se2]. cbn.
    intros a j Hj _. destruct (Z.eq_dec a (snd e)); auto.
Qed.

Lemma initialize_search (p : Pathway) (s : CPUPathwaySolver) :
  inrange p (sx p) (sy p) = true ->
  search p (fun _ _ => True) (initialize p s).
Proof.
  intros Hr. pose proof (initialize_structure p s Hr) as St.
  rewrite initialize_eq in *.
  constructor; cbn [globalList openList closeList targetID]; auto.
  - intros n. cbn. rewrite Z.eqb_refl. intros [= <-]. reflexivity.
  - intros i n c [].
  - intros u nu i v [].
  - intros k i [[= <- <-]|[]]. eexists. cbn [find_node id].
    rewrite Z.eqb_refl. split; [reflexivity|apply Rle_refl].
  - intros i n. cbn. destruct (Z.eqb_spec (startID p) i) as [<-|];
      [|discriminate].
    intros [= <-] _. left. reflexivity.
  - constructor; [constructor|intros ? []].
Qed.

(** While the target is reachable and not closed, the main loop goes on
    until it pops the target, at the least cost of a route to it. *)
Lemma solve_loop_optimal (p : Pathway) (wf : nat) (c0 : cost) :
  (Z.to_nat (cells p) <= wf)%nat ->
  route p (startID p) (toID p (ex p) (ey p)) c0 ->
  forall fuel s,
    search p (fun _ _ => True) s ->
    ~ In (toID p (ex p) (ey p)) (closeList s) ->
    (Z.to_nat (cells p) < fuel + length (closeList s))%nat ->
    exists d sol,
      solve_loop wf fuel p s = Found d sol
      /\ route p (startID p) (toID p (ex p) (ey p)) d
      /\ forall c, route p (startID p) (toID p (ex p) (ey p)) c ->
                   (cost_val d <= cost_val c)%R.
Proof.
  intros Hwf Hroute.
  induction fuel as [|fuel IH]; intros s Se Hopen Hfuel;
    pose proof (se_structure p _ s Se) as St;
    pose proof (structure_closed_length p s St) as Hlen; [lia|].
  pose proof (st_target p s St) as Htgt.
  (* some cell of the table is still open, and the queue holds it *)
  destruct (frontier p s Se _ _ Hroute)
    as [(? & Hin & _)|(w & nw & Hw & Hwo & _)]; [contradiction|].
  pose proof (se_cover p _ s Se w nw Hw Hwo) as Hqueue.
  cbn [solve_loop].
  destruct (iteration_cases wf p s St)
    as [[Hq Hi]|[(_ & Hp & Hi)|(e & q & n & Hp & Hn & [[Ht Hi]|[Ht Hi]])]].
  - rewrite Hq in Hqueue. destruct Hqueue.
  - apply (pop_open_none _ _ Hp) in Hqueue. contradiction.
  - (* the target is popped *)
    rewrite Hi.
    destruct (structure_walk_back p s (snd e) wf St) as (l & -> & _);
      [congruence|assumption|].
    exists (dist n), (rev l). split; [reflexivity|].
    pose proof (pop_search p s e q Se Hp) as Se1.
    rewrite <- Htgt, <- Ht. split.
    + apply (st_route p s St). assumption.
    + intros c Hc. apply (se_best p _ _ Se1 (snd e) n c); auto.
      left. reflexivity.
  - (* another cell is popped and expanded *)
    pose proof (pop_structure p s e q St Hp) as St1.
    assert (Hxy : toXY p (snd e)
                  = (fst (toXY p (snd e)), snd (toXY p (snd e))))
      by (destruct (toXY p (snd e)); reflexivity).
    destruct (expand_all_structure p _ _ _ directions Hxy (incl_refl _) _ St1)
      as (s1 & He & _).
    { cbn. congruence. }
    rewrite He in Hi. rewrite Hi.
    destruct (iteration_running wf p s s1 St Hi) as (_ & (u & Hc & Hu) & _).
    apply IH.
    + eapply iteration_search; eassumption.
    + rewrite Hc. intros [Heq|Hin]; [congruence|contradiction].
    + rewrite Hc. cbn. lia.
Qed.

(** ** The solver with 32-bit floats

    The lemmas of this section are about the solver of module [F32].  They
    use no property of the float operations: they hold whatever the sums
    round to and whatever the order of the queue. *)

Section Float32.

Variable ble32 : F32.entry -> F32.entry -> bool.

(** The table [COST] holds the two float step costs. *)
Lemma COST_step_cost32 (i : Z) : F32.COST i = step_cost32 i.
Proof. unfold F32.COST, step_cost32. destruct (i <? 4); reflexivity. Qed.

Lemma find32_id (i : Z) (g : list F32.node_t) (n : F32.node_t) :
  F32.find_node i g = Some n -> F32.id n = i.
Proof.
  induction g as [|m g IH]; cbn; [discriminate|].
  destruct (Z.eqb_spec (F32.id m) i); [|exact IH].
  intros [= <-]. assumption.
Qed.

Lemma find32_cons (i : Z) (m : F32.node_t) (g : list F32.node_t) :
  F32.find_node i (m :: g)
  = if F32.id m =? i then Some m else F32.find_node i g.
Proof. reflexivity. Qed.

Lemma find32_weaken (i : Z) (m : F32.node_t) (g : list F32.node_t) :
  F32.find_node i g <> None -> F32.find_node i (m :: g) <> None.
Proof.
  intros Hf. rewrite find32_cons. destruct (F32.id m =? i); congruence.
Qed.

Lemma find32_keys (i : Z) (g : list F32.node_t) :
  F32.find_node i g <> None <-> In i (map F32.id g).
Proof.
  induction g as [|m g IH]; cbn.
  - split; [congruence|tauto].
  - destruct (Z.eqb_spec (F32.id m) i).
    + split; [auto|discriminate].
    + rewrite IH. split; [auto|]. intros [?|?]; [contradiction|assumption].
Qed.

(** [onode->dist = d] changes the distance of the node of cell [v] and
    nothing else. *)
Lemma find32_set_dist (i v : Z) (d : F32.float) (g : list F32.node_t) :
  F32.find_node i (F32.set_dist v d g)
  = option_map (fun n => if i =? v
                         then F32.mkNode (F32.id n) d (F32.prev n) else n)
               (F32.find_node i g).
Proof.
  induction g as [|m g IH]; cbn; [reflexivity|].
  destruct (Z.eqb_spec (F32.id m) v) as [Hv|Hv]; cbn.
  - destruct (Z.eqb_spec (F32.id m) i) as [Hi|Hi]; cbn.
    + replace (i =? v) with true by (symmetry; apply Z.eqb_eq; congruence).
      reflexivity.
    + replace (i =? v) with false by (symmetry; apply Z.eqb_neq; congruence).
      destruct (F32.find_node i g); reflexivity.
  - destruct (Z.eqb_spec (F32.id m) i) as [Hi|Hi]; cbn; [|exact IH].
    replace (i =? v) with false by (symmetry; apply Z.eqb_neq; congruence).
    reflexivity.
Qed.

Lemma find32_set_dist_keys (i v : Z) (d : F32.float) (g : list F32.node_t) :
  F32.find_node i (F32.set_dist v d g) <> None <-> F32.find_node i g <> None.
Proof.
  rewrite find32_set_dist.
  destruct (F32.find_node i g); cbn; split; congruence.
Qed.

Lemma creation32_set_dist (v : Z) (d : F32.float) (g : list F32.node_t) :
  creation_order32 g -> creation_order32 (F32.set_dist v d g).
Proof.
  induction 1 as [|n g Hg IH Hfresh Hprev]; cbn; [constructor|].
  destruct (F32.id n =? v).
  - constructor; assumption.
  - constructor; cbn.
    + exact IH.
    + rewrite find32_set_dist, Hfresh. reflexivity.
    + intros u Hu. apply find32_set_dist_keys. apply Hprev, Hu.
Qed.

Lemma creation32_prev (g : list F32.node_t) (i u : Z) (n : F32.node_t) :
  creation_order32 g -> F32.find_node i g = Some n -> F32.prev n = Some u ->
  F32.find_node u g <> None.
Proof.
  induction 1 as [|m g Hg IH Hfresh Hprev]; cbn; [discriminate|].
  destruct (Z.eqb_spec (F32.id m) i) as [He|Hne].
  - intros [= <-] Hu. specialize (Hprev u Hu).
    destruct (Z.eqb_spec (F32.id m) u); [discriminate|assumption].
  - intros Hf Hu. destruct (F32.id m =? u); [discriminate|]. eauto.
Qed.

Lemma creation32_length (g : list F32.node_t) (n : Z) :
  creation_order32 g ->
  (forall i m, F32.find_node i g = Some m -> 0 <= i < n) ->
  (length g <= Z.to_nat n)%nat.
Proof.
  intros Hg Hrange.
  assert (Hnd : NoDup (map F32.id g)).
  { induction Hg as [|m g Hg IH Hfresh _]; cbn; constructor.
    - rewrite <- find32_keys. intros Hin. contradiction.
    - apply IH. intros i k Hf. apply (Hrange i k). cbn.
      destruct (Z.eqb_spec (F32.id m) i) as [He|]; [|assumption].
      rewrite <- He, Hfresh in Hf. discriminate. }
  rewrite <- (length_map F32.id g). apply bounded_nodup_length; [exact Hnd|].
  intros i Hi. apply find32_keys in Hi.
  destruct (F32.find_node i g) as [m|] eqn:Hf; [|contradiction].
  eapply Hrange; eassumption.
Qed.

(** *** Walking back along the predecessors *)

Lemma walk32_older (p : Pathway) (n : F32.node_t) (g : list F32.node_t) :
  creation_order32 (n :: g) ->
  forall fuel i, F32.find_node i g <> None ->
    F32.walk_back fuel p (n :: g) (Some i) = F32.walk_back fuel p g (Some i).
Proof.
  intros Hng. inversion Hng as [|? ? Hg Hfresh Hprev]; subst.
  induction fuel as [|fuel IH]; intros i Hi; [reflexivity|].
  cbn [F32.walk_back]. rewrite find32_cons.
  destruct (Z.eqb_spec (F32.id n) i) as [He|Hne].
  - rewrite <- He in Hi. contradiction.
  - destruct (F32.find_node i g) as [m|] eqn:Hf; [|contradiction].
    destruct (F32.prev m) as [u|] eqn:Hu.
    + rewrite IH; [reflexivity|].
      eapply creation32_prev; eassumption.
    + destruct fuel; reflexivity.
Qed.

Lemma walk32_total (p : Pathway) (g : list F32.node_t) :
  creation_order32 g ->
  forall i fuel, F32.find_node i g <> None -> (length g <= fuel)%nat ->
    exists l, F32.walk_back fuel p g (Some i) = Some (Some l)
              /\ (length l <= length g)%nat.
Proof.
  induction 1 as [|n g Hg IH Hfresh Hprev]; intros i fuel Hi Hfuel.
  - cbn in Hi. contradiction.
  - assert (Hng : creation_order32 (n :: g)) by (constructor; assumption).
    cbn [length] in *. destruct fuel as [|fuel]; [lia|].
    destruct (Z.eqb_spec (F32.id n) i) as [He|Hne].
    + cbn [F32.walk_back]. rewrite find32_cons, He, Z.eqb_refl.
      destruct (F32.prev n) as [u|] eqn:Hu.
      * rewrite walk32_older by auto.
        destruct (IH u fuel (Hprev u eq_refl) ltac:(lia)) as (l & -> & Hl).
        eexists; split; [reflexivity|]. cbn. lia.
      * destruct fuel; eexists; (split; [reflexivity|]); cbn; lia.
    + assert (Hi' : F32.find_node i g <> None).
      { rewrite find32_cons in Hi.
        destruct (Z.eqb_spec (F32.id n) i); [contradiction|assumption]. }
      rewrite walk32_older by assumption.
      destruct (IH i (S fuel) Hi' ltac:(lia)) as (l & -> & Hl).
      eexists; split; [reflexivity|]. lia.
Qed.

Lemma walk32_more (p : Pathway) (g : list F32.node_t) :
  forall fuel fuel' x r, (fuel <= fuel')%nat ->
    F32.walk_back fuel p g x = Some r -> F32.walk_back fuel' p g x = Some r.
Proof.
  induction fuel as [|fuel IH]; intros fuel' x r Hle Hw.
  - destruct x; cbn in Hw; [discriminate|].
    destruct fuel'; exact Hw.
  - destruct fuel' as [|fuel']; [lia|]. destruct x as [i|]; [|exact Hw].
    cbn [F32.walk_back] in *.
    destruct (F32.find_node i g) as [m|]; [|exact Hw].
    destruct (F32.walk_back fuel p g (F32.prev m)) as [r'|] eqn:Hr;
      [|discriminate].
    rewrite (IH fuel' (F32.prev m) r') by (auto; lia). exact Hw.
Qed.

Lemma walk32_chain (p : Pathway) (g : list F32.node_t) :
  forall fuel i l, F32.walk_back fuel p g (Some i) = Some (Some l) ->
    exists ids, chain32 g i ids /\ l = map (toVec p) ids.
Proof.
  induction fuel as [|fuel IH]; intros i l Hw; [discriminate|].
  cbn [F32.walk_back] in Hw.
  destruct (F32.find_node i g) as [n|] eqn:Hn; [|discriminate].
  pose proof (find32_id _ _ _ Hn) as Hid.
  destruct (F32.prev n) as [u|] eqn:Hu.
  - destruct (F32.walk_back fuel p g (Some u)) as [[l'|]|] eqn:Hw';
      try discriminate.
    injection Hw as <-. destruct (IH u l' Hw') as (ids & Hc & ->).
    exists (i :: ids). split; [econstructor; eassumption|].
    cbn. rewrite Hid. reflexivity.
  - assert (Hnil : F32.walk_back fuel p g None = Some (Some []))
      by (destruct fuel; reflexivity).
    rewrite Hnil in Hw. injection Hw as <-.
    exists [i]. split; [econstructor; eassumption|].
    cbn. rewrite Hid. reflexivity.
Qed.

(** *** The open list *)

Lemma In_push32 (e x : F32.entry) (q : list F32.entry) :
  In x (F32.push ble32 e q) <-> x = e \/ In x q.
Proof.
  induction q as [|y q IH]; cbn.
  - intuition congruence.
  - destruct (ble32 e y); cbn; [|rewrite IH]; intuition congruence.
Qed.

Lemma pop32_some (c : list Z) (q q' : list F32.entry) (e : F32.entry) :
  F32.pop_open c q = Some (e, q') ->
  exists stale, q = stale ++ e :: q'
                /\ (forall x, In x stale -> In (snd x) c)
                /\ ~ In (snd e) c.
Proof.
  induction q as [|x q IH]; cbn; [discriminate|].
  destruct (closed (snd x) c) eqn:Hx.
  - intros Hp. destruct (IH Hp) as (stale & -> & Hs & He).
    exists (x :: stale). split; [reflexivity|]. split; [|assumption].
    intros y [<-|Hy]; [apply closed_In; assumption|auto].
  - intros [= <- <-]. exists []. split; [reflexivity|].
    split; [intros ? []|apply closed_not_In; assumption].
Qed.


(** *** One turn of the expansion loop *)

Lemma structure32_weaken (p : Pathway) (D1 D2 : Z -> Z -> Prop)
  (s : F32.CPUPathwaySolver) :
  (forall a j, In j directions -> D2 a j -> D1 a j) ->
  structure32 p D1 s -> structure32 p D2 s.
Proof.
  intros HD [Ho Hc Hs Hcl Hnd Hop Ht Hrt Hcov Hsu Hfi Hoth Hed].
  constructor; auto.
  intros u i v Hu HD2 Hst. eapply Hsu; eauto.
  apply HD; [apply Hst|assumption].
Qed.

Lemma expand32_keeps (p : Pathway) (D : Z -> Z -> Prop) (u x y i : Z)
  (s : F32.CPUPathwaySolver) :
  structure32 p D s -> In u (F32.closeList s) -> In i directions ->
  toXY p u = (x, y) ->
  exists s', F32.expand DX DY ble32 p u x y i s = Some s'
             /\ structure32 p (fun a j => D a j \/ (a = u /\ j = i)) s'
             /\ F32.closeList s' = F32.closeList s.
Proof.
  intros St Hu Hi Hxy.
  pose proof (f_closed p D s St u Hu) as Hfu.
  destruct (F32.find_node u (F32.globalList s)) as [nu|] eqn:Hnu;
    [|contradiction].
  pose proof (find32_id _ _ _ Hnu) as Hid.
  assert (Hi0 : 0 <= i) by (apply In_directions in Hi; lia).
  assert (Hsame : neighbour p u i = None ->
                  structure32 p (fun a j => D a j \/ (a = u /\ j = i)) s).
  { intros Hn. destruct St as [Ho Hc Hs Hcl Hnd Hop Ht Hrt Hcov Hsu Hfi Hoth Hed].
    constructor; auto.
    intros a j w Ha [Hd|[-> ->]] Hst; [eauto|].
    destruct Hst as [_ Hst]. congruence. }
  unfold F32.expand. rewrite mask_test by assumption.
  destruct (Z.testbit (graph p u) i) eqn:Hbit; cbn [negb].
  2:{ exists s. split; [reflexivity|]. split; [|reflexivity].
      apply Hsame. unfold neighbour. rewrite Hxy, Hbit. reflexivity. }
  destruct (inrange p (x + DX i) (y + DY i)) eqn:Hr.
  2:{ exists s. split; [reflexivity|]. split; [|reflexivity].
      apply Hsame. unfold neighbour. rewrite Hxy, Hbit, Hr. reflexivity. }
  set (v := toID p (x + DX i) (y + DY i)).
  assert (Hn : neighbour p u i = Some v).
  { unfold neighbour. rewrite Hxy, Hbit, Hr. reflexivity. }
  assert (Hstep : step p u i v) by (split; assumption).
  rewrite Hnu.
  assert (Hd : route32 p (startID p) v (F32.add (F32.dist nu) (F32.COST i))).
  { rewrite COST_step_cost32. unfold F32.add, F32.prec, F32.emax.
    econstructor; [apply (f_route p D s St u nu Hnu)|exact Hstep]. }
  destruct St as [Ho Hc Hs Hcl Hnd Hop Ht Hrt Hcov Hsu Hfi Hoth Hed].
  destruct (F32.find_node v (F32.globalList s)) as [nv|] eqn:Hv.
  - destruct (F32.ltb (F32.add (F32.dist nu) (F32.COST i)) (F32.dist nv)).
    + (* a known cell reached at a smaller distance *)
      eexists. split; [reflexivity|]. split; [|reflexivity].
      constructor; cbn [F32.globalList F32.openList F32.closeList
                        F32.targetID].
      * apply creation32_set_dist. assumption.
      * intros j n Hj. rewrite find32_set_dist in Hj.
        destruct (F32.find_node j (F32.globalList s)) as [m|] eqn:Hm;
          [|discriminate].
        eapply Hc; eassumption.
      * apply find32_set_dist_keys. assumption.
      * intros j Hj. apply find32_set_dist_keys. auto.
      * assumption.
      * intros e He. apply find32_set_dist_keys.
        apply In_push32 in He as [->|He]; [cbn; congruence|auto].
      * assumption.
      * intros j n Hj. rewrite find32_set_dist in Hj.
        destruct (F32.find_node j (F32.globalList s)) as [m|] eqn:Hm;
          [|discriminate].
        injection Hj as <-.
        destruct (Z.eqb_spec j v) as [->|Hne]; [exact Hd|].
        eapply Hrt; eassumption.
      * intros j Hj Hnc. apply find32_set_dist_keys in Hj.
        destruct (Hcov j Hj Hnc) as [k Hk]. exists k.
        apply In_push32. right. assumption.
      * intros a j w Ha [Hd'|[-> ->]] Hst; apply find32_set_dist_keys;
          [eauto|].
        rewrite (step_unique p u i v w Hn Hst). congruence.
      * intros n Hj. rewrite find32_set_dist in Hj.
        destruct (F32.find_node (startID p) (F32.globalList s)) as [m|] eqn:Hm;
          [|discriminate].
        injection Hj as <-.
        destruct (startID p =? v); cbn [F32.prev]; auto.
      * intros j n Hj Hne. rewrite find32_set_dist in Hj.
        destruct (F32.find_node j (F32.globalList s)) as [m|] eqn:Hm;
          [|discriminate].
        injection Hj as <-.
        destruct (j =? v); cbn [F32.prev]; eapply Hoth; eassumption.
      * intros j n w Hj Hp. rewrite find32_set_dist in Hj.
        destruct (F32.find_node j (F32.globalList s)) as [m|] eqn:Hm;
          [|discriminate].
        injection Hj as <-.
        destruct (j =? v); cbn [F32.prev] in Hp; eapply Hed; eassumption.
    + (* a known cell left as it is *)
      exists s. split; [reflexivity|]. split; [|reflexivity].
      constructor; auto.
      intros a j w Ha [Hd'|[-> ->]] Hst; [eauto|].
      rewrite (step_unique p u i v w Hn Hst). congruence.
  - (* a cell seen for the first time *)
    eexists. split; [reflexivity|]. split; [|reflexivity].
    constructor; cbn [F32.globalList F32.openList F32.closeList
                      F32.targetID].
    + constructor; cbn [F32.id F32.prev]; [assumption|assumption|].
      intros w [= <-]. rewrite Hid, Hnu. discriminate.
    + intros j n. rewrite find32_cons. cbn [F32.id].
      destruct (Z.eqb_spec v j) as [<-|]; [|apply Hc].
      intros _. eapply neighbour_cell; eassumption.
    + apply find32_weaken. assumption.
    + intros j Hj. apply find32_weaken. auto.
    + assumption.
    + intros e He. apply In_push32 in He as [->|He].
      * cbn. rewrite Z.eqb_refl. discriminate.
      * apply find32_weaken. auto.
    + assumption.
    + intros j n. rewrite find32_cons. cbn [F32.id].
      destruct (Z.eqb_spec v j) as [<-|]; [|apply Hrt].
      intros [= <-]. exact Hd.
    + intros j Hj Hnc. destruct (Z.eq_dec j v) as [->|Hne].
      * eexists. apply In_push32. left. reflexivity.
      * rewrite find32_cons in Hj. cbn [F32.id] in Hj.
        destruct (Z.eqb_spec v j); [congruence|].
        destruct (Hcov j Hj Hnc) as [k Hk]. exists k.
        apply In_push32. right. assumption.
    + intros a j w Ha [Hd'|[-> ->]] Hst; [apply find32_weaken; eauto|].
      rewrite (step_unique p u i v w Hn Hst).
      rewrite find32_cons. cbn [F32.id]. rewrite Z.eqb_refl. discriminate.
    + intros n. rewrite find32_cons. cbn [F32.id].
      destruct (Z.eqb_spec v (startID p)) as [Hv0|]; [|apply Hfi].
      rewrite Hv0 in Hv. contradiction.
    + intros j n. rewrite find32_cons. cbn [F32.id].
      destruct (Z.eqb_spec v j) as [<-|]; [|apply Hoth].
      intros [= <-] _. cbn. discriminate.
    + intros j n w. rewrite find32_cons. cbn [F32.id].
      destruct (Z.eqb_spec v j) as [<-|]; [|apply Hed].
      intros [= <-] [= <-]. rewrite Hid. exists i. exact Hstep.
Qed.

Lemma expand_all32_keeps (p : Pathway) (u x y : Z) (dirs : list Z) :
  toXY p u = (x, y) -> incl dirs directions ->
  forall D s,
    structure32 p D s -> In u (F32.closeList s) ->
    exists s', F32.expand_all DX DY ble32 p u x y dirs s = Some s'
               /\ structure32 p (fun a j => D a j \/ (a = u /\ In j dirs)) s'
               /\ F32.closeList s' = F32.closeList s.
Proof.
  intros Hxy. induction dirs as [|i dirs IH]; intros Hdirs D s St Hu.
  - exists s. split; [reflexivity|]. split; [|reflexivity].
    eapply structure32_weaken; [|exact St]. cbn. tauto.
  - assert (Hi : In i directions) by (apply Hdirs; left; reflexivity).
    destruct (expand32_keeps p D u x y i s St Hu Hi Hxy)
      as (s1 & He1 & St1 & Hc1).
    destruct (IH (fun j Hj => Hdirs j (or_intror Hj)) _ s1 St1)
      as (s' & He' & St' & Hc'); [rewrite Hc1; assumption|].
    exists s'. cbn [F32.expand_all]. rewrite He1.
    split; [assumption|]. split; [|congruence].
    eapply structure32_weaken; [|exact St']. cbn.
    intros a j _ [Hd|[-> [<-|Hj]]]; auto.
Qed.

(** *** One turn of the main loop *)

(** Closing the cell that the pop loop hands out. *)
Lemma pop32_keeps (p : Pathway) (s : F32.CPUPathwaySolver) (e : F32.entry)
  (q : list F32.entry) :
  structure32 p (fun _ _ => True) s ->
  F32.pop_open (F32.closeList s) (F32.openList s) = Some (e, q) ->
  structure32 p (fun a _ => a <> snd e)
              (F32.mkSolver (F32.globalList s) q (snd e :: F32.closeList s)
                            (F32.target s) (F32.targetID s)).
Proof.
  intros St Hp.
  destruct (pop32_some _ _ _ _ Hp) as (stale & Hq & Hstale & Hne).
  destruct St as [Ho Hc Hs Hcl Hnd Hop Ht Hrt Hcov Hsu Hfi Hoth Hed].
  assert (Hsub : forall x, In x (e :: q) -> In x (F32.openList s)).
  { intros x Hx. rewrite Hq. apply in_or_app. right. assumption. }
  constructor; cbn [F32.globalList F32.openList F32.closeList F32.targetID];
    auto.
  - intros j [<-|Hj]; [apply Hop, Hsub; left; reflexivity|auto].
  - constructor; assumption.
  - intros x Hx. apply Hop, Hsub. right. assumption.
  - intros j Hj Hnc.
    assert (Hnc' : ~ In j (F32.closeList s))
      by (intros Hin; apply Hnc; right; exact Hin).
    destruct (Hcov j Hj Hnc') as [k Hk]. exists k.
    rewrite Hq in Hk. apply in_app_or in Hk as [Hk|[Hk|Hk]].
    + apply Hstale in Hk. contradiction.
    + exfalso. apply Hnc. left. rewrite Hk. reflexivity.
    + assumption.
  - intros a j w [<-|Ha] Hd Hst; [contradiction|eauto].
Qed.

Lemma iteration32_cases (wf : nat) (p : Pathway) (D : Z -> Z -> Prop)
  (s : F32.CPUPathwaySolver) :
  structure32 p D s ->
  (F32.openList s = [] /\ F32.iteration DX DY ble32 wf p s = F32.Returned F32.NoPath)
  \/ (F32.openList s <> []
      /\ F32.pop_open (F32.closeList s) (F32.openList s) = None
      /\ F32.iteration DX DY ble32 wf p s = F32.Returned F32.Undefined)
  \/ (exists e q n,
        F32.pop_open (F32.closeList s) (F32.openList s) = Some (e, q)
        /\ F32.find_node (snd e) (F32.globalList s) = Some n
        /\ ((snd e = F32.targetID s
             /\ F32.iteration DX DY ble32 wf p s
                = match F32.walk_back wf p (F32.globalList s) (Some (snd e)) with
                  | None => F32.Returned F32.OutOfFuel
                  | Some None => F32.Returned F32.Undefined
                  | Some (Some l) => F32.Returned (F32.Found (F32.dist n) (rev l))
                  end)
            \/ (snd e <> F32.targetID s
                /\ F32.iteration DX DY ble32 wf p s
                   = match
                       F32.expand_all DX DY ble32 p (snd e)
                         (fst (toXY p (snd e))) (snd (toXY p (snd e)))
                         directions
                         (F32.mkSolver (F32.globalList s) q
                                       (snd e :: F32.closeList s)
                                       (F32.target s) (F32.targetID s))
                     with
                     | None => F32.Returned F32.Undefined
                     | Some s2 => F32.Running s2
                     end))).
Proof.
  intros St. unfold F32.iteration.
  destruct (F32.openList s) as [|e0 q0] eqn:Hq; [left; auto|right].
  destruct (F32.pop_open (F32.closeList s) (e0 :: q0)) as [[e q]|] eqn:Hp.
  2:{ left. split; [discriminate|auto]. }
  right. cbn [F32.globalList F32.targetID].
  destruct (pop32_some _ _ _ _ Hp) as (stale & Hsplit & _ & _).
  assert (He : In e (F32.openList s)).
  { rewrite Hq, Hsplit. apply in_or_app. right. left. reflexivity. }
  pose proof (f_open p D s St e He) as Hf.
  destruct (F32.find_node (snd e) (F32.globalList s)) as [n|] eqn:Hn;
    [|contradiction].
  pose proof (find32_id _ _ _ Hn) as Hid.
  exists e, q, n. split; [reflexivity|]. split; [exact Hn|].
  rewrite Hid. destruct (Z.eqb_spec (snd e) (F32.targetID s)) as [Ht|Ht].
  - left. auto.
  - right. split; [assumption|]. destruct (toXY p (snd e)); reflexivity.
Qed.

Lemma iteration32_running (wf : nat) (p : Pathway)
  (s s' : F32.CPUPathwaySolver) :
  structure32 p (fun _ _ => True) s ->
  F32.iteration DX DY ble32 wf p s = F32.Running s' ->
  structure32 p (fun _ _ => True) s'
  /\ exists u, F32.closeList s' = u :: F32.closeList s
               /\ u <> F32.targetID s.
Proof.
  intros St Hrun.
  destruct (iteration32_cases wf p _ s St)
    as [[_ Hi]|[(_ & _ & Hi)|(e & q & n & Hp & Hn & [[Ht Hi]|[Ht Hi]])]];
    rewrite Hi in Hrun; try discriminate.
  - destruct (F32.walk_back wf p (F32.globalList s) (Some (snd e)))
      as [[l|]|]; discriminate.
  - pose proof (pop32_keeps p s e q St Hp) as St1.
    assert (Hxy : toXY p (snd e)
                  = (fst (toXY p (snd e)), snd (toXY p (snd e))))
      by (destruct (toXY p (snd e)); reflexivity).
    destruct (expand_all32_keeps p _ _ _ directions Hxy (incl_refl _) _ _ St1)
      as (s2 & He & St2 & Hc2); [left; reflexivity|].
    rewrite He in Hrun. injection Hrun as <-. split.
    + eapply structure32_weaken; [|exact St2]. cbn.
      intros a j Hj _. destruct (Z.eq_dec a (snd e)); auto.
    + exists (snd e). split; assumption.
Qed.

(** *** Initialisation and termination *)

Lemma initialize32_eq (p : Pathway) (s : F32.CPUPathwaySolver) :
  F32.initialize ble32 p s
  = F32.mkSolver
      [F32.mkNode (startID p) (F32.of_int 0) None]
      [(F32.computeFValue p (F32.mkNode (startID p) (F32.of_int 0) None),
        startID p)]
      [] (ex p, ey p) (toID p (ex p) (ey p)).
Proof. reflexivity. Qed.

Lemma initialize32_structure (p : Pathway) (s : F32.CPUPathwaySolver) :
  inrange p (sx p) (sy p) = true ->
  structure32 p (fun _ _ => True) (F32.initialize ble32 p s).
Proof.
  intros Hr. rewrite initialize32_eq.
  constructor; cbn [F32.globalList F32.openList F32.closeList F32.targetID].
  - constructor; [constructor|reflexivity|discriminate].
  - intros i n. cbn. destruct (Z.eqb_spec (startID p) i) as [<-|];
      [|discriminate].
    intros _. apply toID_cell. assumption.
  - cbn. rewrite Z.eqb_refl. discriminate.
  - intros i [].
  - constructor.
  - intros e [<-|[]]. cbn. rewrite Z.eqb_refl. discriminate.
  - reflexivity.
  - intros i n. cbn. destruct (Z.eqb_spec (startID p) i) as [<-|];
      [|discriminate].
    intros [= <-]. constructor.
  - intros i. cbn. destruct (Z.eqb_spec (startID p) i) as [<-|];
      [|congruence].
    intros _ _. eexists. left. reflexivity.
  - intros u i v [].
  - intros n. cbn. rewrite Z.eqb_refl. intros [= <-]. reflexivity.
  - intros i n. cbn. destruct (Z.eqb_spec (startID p) i); congruence.
  - intros i n u. cbn. destruct (Z.eqb_spec (startID p) i); [|discriminate].
    intros [= <-]. discriminate.
Qed.

Lemma structure32_closed_length (p : Pathway) (D : Z -> Z -> Prop)
  (s : F32.CPUPathwaySolver) :
  structure32 p D s -> (length (F32.closeList s) <= Z.to_nat (cells p))%nat.
Proof.
  intros St. apply bounded_nodup_length; [apply (f_nodup p D s St)|].
  intros i Hi. apply (f_closed p D s St) in Hi.
  destruct (F32.find_node i (F32.globalList s)) as [n|] eqn:Hf;
    [|contradiction].
  eapply f_cells; eassumption.
Qed.

Lemma structure32_walk_back (p : Pathway) (D : Z -> Z -> Prop)
  (s : F32.CPUPathwaySolver) (i : Z) (fuel : nat) :
  structure32 p D s -> F32.find_node i (F32.globalList s) <> None ->
  (Z.to_nat (cells p) <= fuel)%nat ->
  exists l, F32.walk_back fuel p (F32.globalList s) (Some i) = Some (Some l)
            /\ F32.walk_back (Z.to_nat (cells p)) p (F32.globalList s) (Some i)
               = Some (Some l).
Proof.
  intros St Hi Hfuel.
  pose proof (creation32_length _ _ (f_order p D s St) (f_cells p D s St))
    as Hlen.
  destruct (walk32_total p _ (f_order p D s St) i
              (length (F32.globalList s)) Hi (le_n _)) as (l & Hw & _).
  exists l. split; (eapply walk32_more; [|exact Hw]); lia.
Qed.

Lemma iteration32_fuel (p : Pathway) (s : F32.CPUPathwaySolver)
  (wf wf' : nat) :
  structure32 p (fun _ _ => True) s ->
  (Z.to_nat (cells p) <= wf)%nat -> (Z.to_nat (cells p) <= wf')%nat ->
  F32.iteration DX DY ble32 wf p s = F32.iteration DX DY ble32 wf' p s
  /\ F32.iteration DX DY ble32 wf p s <> F32.Returned F32.OutOfFuel.
Proof.
  intros St Hwf Hwf'. unfold F32.iteration.
  destruct (F32.openList s) as [|e0 q0]; [split; [reflexivity|discriminate]|].
  destruct (F32.pop_open (F32.closeList s) (e0 :: q0)) as [[e q]|];
    [|split; [reflexivity|discriminate]].
  cbn [F32.globalList F32.targetID].
  destruct (F32.find_node (snd e) (F32.globalList s)) as [n|] eqn:Hn;
    [|split; [reflexivity|discriminate]].
  destruct (F32.id n =? F32.targetID s).
  - destruct (structure32_walk_back p _ s (snd e) wf St) as (l & -> & Hl);
      [congruence|assumption|].
    destruct (structure32_walk_back p _ s (snd e) wf' St) as (l' & -> & Hl');
      [congruence|assumption|].
    rewrite Hl in Hl'. injection Hl' as <-. split; [reflexivity|discriminate].
  - destruct (toXY p (F32.id n)) as [x y]. split; [reflexivity|].
    destruct (F32.expand_all _ _ _ _ _ _ _ _ _); discriminate.
Qed.

Lemma solve_loop32_fuel (p : Pathway) (wf wf' : nat) :
  (Z.to_nat (cells p) <= wf)%nat -> (Z.to_nat (cells p) <= wf')%nat ->
  forall fuel fuel' s,
    structure32 p (fun _ _ => True) s ->
    (Z.to_nat (cells p) < fuel + length (F32.closeList s))%nat ->
    (Z.to_nat (cells p) < fuel' + length (F32.closeList s))%nat ->
    F32.solve_loop DX DY ble32 wf fuel p s
    = F32.solve_loop DX DY ble32 wf' fuel' p s
    /\ F32.solve_loop DX DY ble32 wf fuel p s <> F32.OutOfFuel.
Proof.
  intros Hwf Hwf'.
  induction fuel as [|fuel IH]; intros fuel' s St Hf Hf';
    pose proof (structure32_closed_length p _ s St) as Hlen; [lia|].
  destruct fuel' as [|fuel']; [lia|]. cbn [F32.solve_loop].
  destruct (iteration32_fuel p s wf wf' St Hwf Hwf') as [<- Hne].
  destruct (F32.iteration DX DY ble32 wf p s) as [s1|o] eqn:Hi.
  - destruct (iteration32_running wf p s s1 St Hi) as (St1 & u & Hc & _).
    apply IH; [assumption|rewrite Hc; cbn; lia|rewrite Hc; cbn; lia].
  - split; [reflexivity|congruence].
Qed.

(** *** What the main loop comes to *)



Lemma chain32_trail (p : Pathway) (D : Z -> Z -> Prop)
  (s : F32.CPUPathwaySolver) (i : Z) (ids : list Z) :
  structure32 p D s -> chain32 (F32.globalList s) i ids ->
  trail p (startID p) i (rev ids).
Proof.
  intros St. induction 1 as [i n Hn Hp|i n u ids Hn Hp Hc IH].
  - destruct (Z.eq_dec i (startID p)) as [->|Hne]; [constructor|].
    exfalso. apply (f_others p D s St i n Hn Hne). assumption.
  - cbn [rev]. destruct (f_edge p D s St i n u Hn Hp) as [d Hd].
    econstructor; eassumption.
Qed.

Lemma solve_loop32_found (p : Pathway) (wf : nat) (d : F32.float)
  (sol : list vec2) :
  forall fuel s,
    structure32 p (fun _ _ => True) s ->
    F32.solve_loop DX DY ble32 wf fuel p s = F32.Found d sol ->
    route32 p (startID p) (toID p (ex p) (ey p)) d
    /\ exists ids, trail p (startID p) (toID p (ex p) (ey p)) ids
                   /\ sol = map (toVec p) ids.
Proof.
  induction fuel as [|fuel IH]; intros s St Hs; [discriminate|].
  cbn [F32.solve_loop] in Hs.
  destruct (F32.iteration DX DY ble32 wf p s) as [s1|o] eqn:Hi.
  - apply (IH s1); [|assumption]. apply (iteration32_running wf p s s1 St Hi).
  - subst o.
    destruct (iteration32_cases wf p _ s St)
      as [[_ Hi']|[(_ & _ & Hi')|(e & q & n & Hp & Hn & [[Ht Hi']|[Ht Hi']])]];
      rewrite Hi' in Hi; try discriminate.
    + destruct (F32.walk_back wf p (F32.globalList s) (Some (snd e)))
        as [[l|]|] eqn:Hw; try discriminate.
      injection Hi as <- <-.
      rewrite <- (f_target p _ s St), <- Ht. split.
      * apply (f_route p _ s St). assumption.
      * destruct (walk32_chain p _ _ _ _ Hw) as (ids & Hc & ->).
        exists (rev ids). split; [eapply chain32_trail; eassumption|].
        symmetry. apply map_rev.
    + destruct (F32.expand_all _ _ _ _ _ _ _ _ _); discriminate.
Qed.

End Float32.

(** ** Rounding to 24 bits

    What the operations of [SpecFloat] at the precision of binary32 return
    on positive normal numbers: the result of one operation is the exact
    result times at most [1 + 2^-23]. *)

Lemma digits2_size (p : positive) : digits2_pos p = Pos.size p.
Proof. induction p; cbn; congruence. Qed.

Lemma digits2_bounds (p : positive) :
  2 ^ (Zpos (digits2_pos p) - 1) <= Zpos p < 2 ^ Zpos (digits2_pos p).
Proof.
  rewrite digits2_size.
  pose proof (Pos.size_gt p) as Hgt. pose proof (Pos.size_le p) as Hle.
  apply Pos2Z.pos_lt_pos in Hgt. apply Pos2Z.pos_le_pos in Hle.
  rewrite Pos2Z.inj_pow in Hgt, Hle.
  change (Zpos p~0) with (2 * Zpos p) in Hle.
  split; [|exact Hgt].
  replace (Zpos (Pos.size p)) with (Zpos (Pos.size p) - 1 + 1) in Hle by lia.
  rewrite Z.pow_add_r in Hle by lia. change (2 ^ 1) with 2 in Hle. lia.
Qed.

Lemma digits2_unique (p : positive) (k : Z) :
  2 ^ (k - 1) <= Zpos p < 2 ^ k -> Zpos (digits2_pos p) = k.
Proof.
  intros [Hlo Hhi]. pose proof (digits2_bounds p) as [Hlo' Hhi'].
  assert (0 < k).
  { destruct (Z.lt_trichotomy 0 k) as [|[<-|Hneg]]; [assumption|cbn in Hhi; lia|].
    rewrite Z.pow_neg_r in Hhi by lia. lia. }
  destruct (Z.lt_trichotomy (Zpos (digits2_pos p)) k) as [Hlt|[Heq|Hgt]];
    [|assumption|].
  - assert (2 ^ Zpos (digits2_pos p) <= 2 ^ (k - 1))
      by (apply Z.pow_le_mono_r; lia). lia.
  - assert (2 ^ k <= 2 ^ (Zpos (digits2_pos p) - 1))
      by (apply Z.pow_le_mono_r; lia). lia.
Qed.

Lemma iter_pos_nat {A : Type} (f : A -> A) (p : positive) :
  forall x, iter_pos f p x = Nat.iter (Pos.to_nat p) f x.
Proof.
  induction p as [p IH|p IH|]; intros x; cbn [iter_pos].
  - rewrite !IH, Pos2Nat.inj_xI, Nat.iter_succ_r.
    replace (2 * Pos.to_nat p)%nat with (Pos.to_nat p + Pos.to_nat p)%nat by lia.
    rewrite Nat.iter_add. reflexivity.
  - rewrite !IH, Pos2Nat.inj_xO.
    replace (2 * Pos.to_nat p)%nat with (Pos.to_nat p + Pos.to_nat p)%nat by lia.
    rewrite Nat.iter_add. reflexivity.
  - reflexivity.
Qed.

Lemma shr_1_m (mrs : shr_record) :
  0 <= shr_m mrs -> shr_m (shr_1 mrs) = shr_m mrs / 2.
Proof.
  destruct mrs as [m r s]. cbn [shr_m]. intros Hm.
  destruct m as [|[p|p|]|p]; cbn [shr_1 shr_m].
  - reflexivity.
  - change (Zpos p~1) with (2 * Zpos p + 1).
    apply Z.div_unique with (r := 1); lia.
  - change (Zpos p~0) with (2 * Zpos p).
    apply Z.div_unique with (r := 0); lia.
  - reflexivity.
  - lia.
Qed.

Lemma shr_iter_m (k : nat) (mrs : shr_record) :
  0 <= shr_m mrs ->
  shr_m (Nat.iter k shr_1 mrs) = shr_m mrs / 2 ^ Z.of_nat k.
Proof.
  intros Hm. induction k as [|k IH].
  - cbn. rewrite Z.div_1_r. reflexivity.
  - rewrite Nat.iter_succ, shr_1_m.
    + rewrite IH, Z.div_div by lia.
      rewrite Nat2Z.inj_succ, Z.pow_succ_r by lia. f_equal. lia.
    + rewrite IH. apply Z.div_pos; lia.
Qed.

Lemma round_nearest_even_range (m : Z) (l : location) :
  m <= round_nearest_even m l <= m + 1.
Proof.
  destruct l as [|[]]; cbn [round_nearest_even]; try lia.
  destruct (Z.even m); lia.
Qed.

Lemma shr_spec (mrs : shr_record) (e n : Z) :
  0 <= shr_m mrs -> 0 <= n ->
  shr_m (fst (shr mrs e n)) = shr_m mrs / 2 ^ n /\ snd (shr mrs e n) = e + n.
Proof.
  intros Hm Hn. destruct n as [|p|p]; cbn [shr fst snd]; [| |lia].
  - rewrite Z.div_1_r. lia.
  - rewrite iter_pos_nat, shr_iter_m by assumption.
    rewrite positive_nat_Z. lia.
Qed.

Lemma shr_record_of_loc_m (m : Z) (l : location) :
  shr_m (shr_record_of_loc m l) = m.
Proof. destruct l as [|[]]; reflexivity. Qed.

Lemma fexp32 (e : Z) : fexp 24 128 e = Z.max (e - 24) (-149).
Proof. reflexivity. Qed.

(** Rounding a mantissa of at least 24 bits, in the normal range. *)
Lemma binary_round_aux_bounds (M : positive) (E : Z) :
  24 <= Zpos (digits2_pos M) ->
  -149 <= Zpos (digits2_pos M) + E - 24 ->
  Zpos (digits2_pos M) + E <= 127 ->
  exists m' e',
    binary_round_aux 24 128 false (Zpos M) E loc_Exact = S754_finite false m' e'
    /\ Zpos (digits2_pos m') = 24
    /\ Zpos (digits2_pos M) + E - 24 <= e' <= Zpos (digits2_pos M) + E - 23
    /\ Zpos M - 2 ^ (Zpos (digits2_pos M) - 24)
       <= Zpos m' * 2 ^ (e' - E)
       <= Zpos M + 2 ^ (Zpos (digits2_pos M) - 24).
Proof.
  set (d := Zpos (digits2_pos M)). intros Hd Hlo Hhi.
  pose proof (digits2_bounds M) as [HMlo HMhi]. fold d in HMlo, HMhi.
  set (n := d - 24).
  assert (Hn : 0 <= n) by (unfold n; lia).
  assert (Hpow : 2 ^ (d - 1) = 2 ^ 23 * 2 ^ n /\ 2 ^ d = 2 ^ 24 * 2 ^ n).
  { split; rewrite <- Z.pow_add_r by lia; f_equal; unfold n; lia. }
  destruct Hpow as [Hp1 Hp2].
  assert (Hpn : 0 < 2 ^ n) by (apply Z.pow_pos_nonneg; lia).
  set (m1 := Zpos M / 2 ^ n).
  assert (Hm1 : 2 ^ 23 <= m1 < 2 ^ 24).
  { unfold m1. split.
    - apply Z.div_le_lower_bound; lia.
    - apply Z.div_lt_upper_bound; lia. }
  assert (Hfloor : m1 * 2 ^ n <= Zpos M < (m1 + 1) * 2 ^ n).
  { unfold m1. pose proof (Z.mul_div_le (Zpos M) (2 ^ n) Hpn).
    pose proof (Z.mul_succ_div_gt (Zpos M) (2 ^ n) Hpn). lia. }
  unfold binary_round_aux, shr_fexp.
  change (Zdigits2 (Zpos M)) with d.
  rewrite fexp32. rewrite Z.max_l by lia.
  replace (d + E - 24 - E) with n by (unfold n; lia).
  destruct (shr_spec (shr_record_of_loc (Zpos M) loc_Exact) E n)
    as [Hs1 Hs2]; [cbn; lia|assumption|].
  destruct (shr (shr_record_of_loc (Zpos M) loc_Exact) E n) as [mrs' e'].
  cbn [fst snd] in Hs1, Hs2. cbn [shr_m shr_record_of_loc] in Hs1.
  fold m1 in Hs1. rewrite Hs1. subst e'.
  pose proof (round_nearest_even_range m1 (loc_of_shr_record mrs')) as Hr.
  set (m2 := round_nearest_even m1 (loc_of_shr_record mrs')) in *.
  destruct m2 as [|q|q] eqn:Hm2; [lia| |lia].
  destruct (Z.eq_dec (Zpos q) (2 ^ 24)) as [Hcarry|Hnc].
  - (* the mantissa was rounded up to 2^24 *)
    assert (Hdq : Zpos (digits2_pos q) = 25)
      by (apply digits2_unique; rewrite Hcarry; cbn; lia).
    cbn [Zdigits2]. rewrite Hdq, fexp32, Z.max_l by lia.
    replace (25 + (E + n) - 24 - (E + n)) with 1 by lia.
    injection Hcarry as ->. cbn [shr shr_record_of_loc iter_pos shr_1 shr_m].
    rewrite (proj2 (Z.leb_le _ _)) by (unfold n; lia).
    eexists _, _. split; [reflexivity|]. split; [reflexivity|].
    split; [fold d; unfold n; lia|].
    replace (E + n + 1 - E) with (n + 1) by lia.
    rewrite Z.pow_add_r by lia. change (2 ^ 1) with 2.
    fold n. change (2 ^ 24) with 16777216 in *. change (2 ^ 23) with 8388608 in *.
    assert (m1 = 16777215) by lia. nia.
  - assert (Hdq : Zpos (digits2_pos q) = 24)
      by (apply digits2_unique; lia).
    cbn [Zdigits2]. rewrite Hdq, fexp32, Z.max_l by lia.
    replace (24 + (E + n) - 24 - (E + n)) with 0 by lia.
    cbn [shr shr_record_of_loc shr_m].
    rewrite (proj2 (Z.leb_le _ _)) by (unfold n; lia).
    exists q, (E + n). split; [reflexivity|]. split; [assumption|].
    split; [fold d; unfold n; lia|].
    replace (E + n - E) with n by lia. fold n. nia.
Qed.

Lemma binary_round_aux_exact (M : positive) (E : Z) :
  Zpos (digits2_pos M) = 24 -> -149 <= E <= 104 ->
  binary_round_aux 24 128 false (Zpos M) E loc_Exact = S754_finite false M E.
Proof.
  intros Hd HE. unfold binary_round_aux, shr_fexp.
  cbn [Zdigits2]. rewrite Hd, fexp32, Z.max_l by lia.
  replace (24 + E - 24 - E) with 0 by lia.
  cbn [shr shr_record_of_loc shr_m loc_of_shr_record round_nearest_even
       Zdigits2].
  rewrite Hd, fexp32, Z.max_l by lia.
  replace (24 + E - 24 - E) with 0 by lia.
  cbn [shr shr_record_of_loc shr_m].
  rewrite (proj2 (Z.leb_le _ _)) by lia. reflexivity.
Qed.

Lemma shl_align_fst (m : positive) (e e' : Z) :
  e' <= e -> Zpos (fst (shl_align m e e')) = Zpos m * 2 ^ (e - e').
Proof.
  intros Hle. unfold shl_align.
  destruct (e' - e) as [|d|d] eqn:Hd; cbn [fst].
  - replace (e - e') with 0 by lia. cbn. lia.
  - lia.
  - replace (e - e') with (Zpos d) by lia.
    change (Pos.iter xO m d) with (Zpower.shift_pos d m).
    rewrite Zpower.shift_pos_correct. change (2 ^ Zpos d) with (Z.pow_pos 2 d).
    lia.
Qed.

(** The conversion of a positive int below 2^24 is exact. *)
Lemma of_int_exact (k : Z) :
  0 < k < 2 ^ 24 ->
  exists m e,
    binary_normalize 24 128 k 0 false = S754_finite false m e
    /\ Zpos (digits2_pos m) = 24 /\ -23 <= e <= 0
    /\ Zpos m = k * 2 ^ (- e).
Proof.
  intros [Hpos Hlt]. destruct k as [|q|q]; [lia| |lia].
  pose proof (digits2_bounds q) as [Hlo Hhi].
  set (d := Zpos (digits2_pos q)) in *.
  assert (Hd : 1 <= d <= 24).
  { split; [unfold d; lia|].
    destruct (Z_le_gt_dec d 24) as [|Hgt]; [assumption|].
    assert (2 ^ 24 <= 2 ^ (d - 1)) by (apply Z.pow_le_mono_r; lia). lia. }
  cbn [binary_normalize]. unfold binary_round.
  fold d. rewrite Z.add_0_r, fexp32, Z.max_l by lia.
  pose proof (shl_align_fst q 0 (d - 24) ltac:(lia)) as Hm.
  assert (He : snd (shl_align q 0 (d - 24)) = d - 24).
  { unfold shl_align. destruct (d - 24 - 0) as [|r|r] eqn:Hr; cbn [snd]; lia. }
  destruct (shl_align q 0 (d - 24)) as [mz ez]. cbn [fst snd] in Hm, He.
  subst ez. replace (0 - (d - 24)) with (24 - d) in Hm by lia.
  assert (Hdm : Zpos (digits2_pos mz) = 24).
  { apply digits2_unique. rewrite Hm. split.
    - replace (24 - 1) with ((d - 1) + (24 - d)) by lia.
      rewrite Z.pow_add_r by lia.
      apply Z.mul_le_mono_nonneg_r; [apply Z.pow_nonneg; lia|assumption].
    - replace 24 with (d + (24 - d)) at 2 by lia.
      rewrite Z.pow_add_r by lia.
      apply Z.mul_lt_mono_pos_r; [apply Z.pow_pos_nonneg; lia|assumption]. }
  rewrite binary_round_aux_exact by (assumption || lia).
  exists mz, (d - 24). split; [reflexivity|]. split; [assumption|].
  split; [lia|]. rewrite Hm. f_equal. f_equal. lia.
Qed.

(** What rounding to 24 bits can add, relative to the exact mantissa. *)
Lemma binary_round_aux_upper (M : positive) (E : Z) :
  24 <= Zpos (digits2_pos M) ->
  -149 <= Zpos (digits2_pos M) + E - 24 ->
  Zpos (digits2_pos M) + E <= 127 ->
  exists m' e',
    binary_round_aux 24 128 false (Zpos M) E loc_Exact = S754_finite false m' e'
    /\ Zpos (digits2_pos m') = 24
    /\ Zpos (digits2_pos M) + E - 24 <= e' <= Zpos (digits2_pos M) + E - 23
    /\ 2 ^ 23 * (Zpos m' * 2 ^ (e' - E)) <= (2 ^ 23 + 1) * Zpos M.
Proof.
  intros Hd Hlo Hhi.
  destruct (binary_round_aux_bounds M E Hd Hlo Hhi)
    as (m' & e' & Heq & Hdm & He & Hb).
  exists m', e'. repeat split; try assumption; try lia.
  pose proof (digits2_bounds M) as [HMlo _].
  replace (Zpos (digits2_pos M) - 1)
    with (23 + (Zpos (digits2_pos M) - 24)) in HMlo by lia.
  rewrite Z.pow_add_r in HMlo by lia. lia.
Qed.

Lemma SFmul_upper (mx my : positive) (ex ey : Z) :
  Zpos (digits2_pos mx) = 24 -> Zpos (digits2_pos my) = 24 ->
  -172 <= ex + ey <= 79 ->
  exists m' e',
    SFmul 24 128 (S754_finite false mx ex) (S754_finite false my ey)
    = S754_finite false m' e'
    /\ Zpos (digits2_pos m') = 24
    /\ ex + ey + 23 <= e' <= ex + ey + 25
    /\ 2 ^ 23 * (Zpos m' * 2 ^ (e' - (ex + ey)))
       <= (2 ^ 23 + 1) * (Zpos mx * Zpos my).
Proof.
  intros Hx Hy He.
  pose proof (digits2_bounds mx) as Hbx. pose proof (digits2_bounds my) as Hby.
  rewrite Hx in Hbx. rewrite Hy in Hby.
  change (2 ^ (24 - 1)) with 8388608 in *. change (2 ^ 24) with 16777216 in *.
  assert (Hd : 47 <= Zpos (digits2_pos (mx * my)) <= 48).
  { pose proof (digits2_bounds (mx * my)) as [Hlo Hhi].
    rewrite Pos2Z.inj_mul in Hlo, Hhi.
    set (d := Zpos (digits2_pos (mx * my))) in *.
    assert (Hprod : 2 ^ 46 <= Zpos mx * Zpos my < 2 ^ 48).
    { change (2 ^ 46) with (8388608 * 8388608).
      change (2 ^ 48) with (16777216 * 16777216). nia. }
    split.
    - destruct (Z_le_gt_dec 47 d) as [|Hgt]; [assumption|].
      assert (2 ^ d <= 2 ^ 46) by (apply Z.pow_le_mono_r; lia). lia.
    - destruct (Z_le_gt_dec d 48) as [|Hgt]; [assumption|].
      assert (2 ^ 48 <= 2 ^ (d - 1)) by (apply Z.pow_le_mono_r; lia). lia. }
  cbn [SFmul xorb].
  destruct (binary_round_aux_upper (mx * my) (ex + ey))
    as (m' & e' & Heq & Hdm & He' & Hb); try lia.
  exists m', e'. rewrite Pos2Z.inj_mul in Hb.
  repeat split; try assumption; lia.
Qed.

Lemma SFadd_upper (mx my : positive) (ex ey : Z) :
  Zpos (digits2_pos mx) = 24 -> Zpos (digits2_pos my) = 24 ->
  -149 <= ex <= 102 -> -149 <= ey <= 102 ->
  exists m' e',
    SFadd 24 128 (S754_finite false mx ex) (S754_finite false my ey)
    = S754_finite false m' e'
    /\ Zpos (digits2_pos m') = 24
    /\ Z.min ex ey <= e' <= Z.max ex ey + 2
    /\ 2 ^ 23 * (Zpos m' * 2 ^ (e' - Z.min ex ey))
       <= (2 ^ 23 + 1)
          * (Zpos mx * 2 ^ (ex - Z.min ex ey)
             + Zpos my * 2 ^ (ey - Z.min ex ey)).
Proof.
  intros Hx Hy Hex Hey.
  pose proof (digits2_bounds mx) as Hbx. pose proof (digits2_bounds my) as Hby.
  rewrite Hx in Hbx. rewrite Hy in Hby.
  cbn [SFadd cond_Zopp]. set (ez := Z.min ex ey).
  pose proof (shl_align_fst mx ex ez ltac:(unfold ez; lia)) as Hax.
  pose proof (shl_align_fst my ey ez ltac:(unfold ez; lia)) as Hay.
  set (ax := fst (shl_align mx ex ez)) in *.
  set (ay := fst (shl_align my ey ez)) in *.
  change (Zpos ax + Zpos ay) with (Zpos (ax + ay)).
  cbn [binary_normalize]. unfold binary_round.
  pose proof (digits2_bounds (ax + ay)) as [Hlo Hhi].
  set (d := Zpos (digits2_pos (ax + ay))) in *.
  rewrite Pos2Z.inj_add, Hax, Hay in Hlo, Hhi.
  assert (Hpx : 0 < 2 ^ (ex - ez)) by (apply Z.pow_pos_nonneg; unfold ez; lia).
  assert (Hpy : 0 < 2 ^ (ey - ez)) by (apply Z.pow_pos_nonneg; unfold ez; lia).
  assert (Hd : 24 <= d <= 25 + Z.max ex ey - ez).
  { split.
    - destruct (Z_le_gt_dec 24 d) as [|Hgt]; [assumption|].
      assert (2 ^ d <= 2 ^ 23) by (apply Z.pow_le_mono_r; lia).
      change (2 ^ (24 - 1)) with (2 ^ 23) in *. nia.
    - destruct (Z_le_gt_dec d (25 + Z.max ex ey - ez)) as [|Hgt]; [assumption|].
      assert (Hbig : 2 ^ (25 + Z.max ex ey - ez) <= 2 ^ (d - 1))
        by (apply Z.pow_le_mono_r; unfold ez; lia).
      replace (25 + Z.max ex ey - ez) with (25 + (Z.max ex ey - ez)) in Hbig
        by lia.
      rewrite Z.pow_add_r in Hbig by (unfold ez; lia).
      assert (2 ^ (ex - ez) <= 2 ^ (Z.max ex ey - ez))
        by (apply Z.pow_le_mono_r; lia).
      assert (2 ^ (ey - ez) <= 2 ^ (Z.max ex ey - ez))
        by (apply Z.pow_le_mono_r; lia).
      change (2 ^ 25) with (2 * 2 ^ 24) in Hbig. nia. }
  rewrite fexp32, Z.max_l by lia.
  assert (Hal : shl_align (ax + ay) ez (d + ez - 24) = ((ax + ay)%positive, ez)).
  { unfold shl_align. destruct (d + ez - 24 - ez) eqn:Hz; try reflexivity. lia. }
  rewrite Hal.
  destruct (binary_round_aux_upper (ax + ay) ez)
    as (m' & e' & Heq & Hdm & He' & Hb); fold d; try lia.
  fold d in He'. exists m', e'. rewrite Pos2Z.inj_add, Hax, Hay in Hb.
  repeat split; try assumption; unfold ez in *; lia.
Qed.

Lemma IZR_pow2 (k : Z) : 0 <= k -> IZR (2 ^ k) = powerRZ 2 k.
Proof.
  intros Hk. destruct k as [|p|p]; [reflexivity| |lia].
  cbn [powerRZ]. rewrite <- (positive_nat_Z p) at 1.
  rewrite <- pow_IZR. reflexivity.
Qed.

Lemma powerRZ_2_pos (k : Z) : (0 < powerRZ 2 k)%R.
Proof. apply powerRZ_lt. lra. Qed.

Lemma SFmul_val (mx my : positive) (ex ey : Z) :
  Zpos (digits2_pos mx) = 24 -> Zpos (digits2_pos my) = 24 ->
  -172 <= ex + ey <= 79 ->
  exists m' e',
    SFmul 24 128 (S754_finite false mx ex) (S754_finite false my ey)
    = S754_finite false m' e'
    /\ Zpos (digits2_pos m') = 24
    /\ ex + ey + 23 <= e' <= ex + ey + 25
    /\ (float_val (S754_finite false m' e')
        <= (1 + / 8388608)
           * (float_val (S754_finite false mx ex)
              * float_val (S754_finite false my ey)))%R.
Proof.
  intros Hx Hy He.
  destruct (SFmul_upper mx my ex ey Hx Hy He) as (m' & e' & Heq & Hd & He' & Hb).
  exists m', e'. repeat split; try assumption; try lia.
  apply IZR_le in Hb. change (2 ^ 23) with 8388608 in Hb.
  rewrite !mult_IZR, plus_IZR, IZR_pow2 in Hb by lia.
  unfold float_val.
  replace e' with ((e' - (ex + ey)) + (ex + ey)) at 1 by lia.
  rewrite !powerRZ_add by lra.
  pose proof (powerRZ_2_pos ex) as Hpx. pose proof (powerRZ_2_pos ey) as Hpy.
  set (a := powerRZ 2 (e' - (ex + ey))) in *.
  set (bx := powerRZ 2 ex) in *. set (b := powerRZ 2 ey) in *.
  assert (HP : (0 < bx * b)%R) by (apply Rmult_lt_0_compat; assumption).
  set (u := (IZR (Zpos m') * a)%R) in *.
  set (v := (IZR (Zpos mx) * IZR (Zpos my))%R) in *.
  replace (1 * IZR (Zpos m') * (a * (bx * b)))%R with (u * (bx * b))%R
    by (unfold u; ring).
  replace (1 * IZR (Zpos mx) * bx * (1 * IZR (Zpos my) * b))%R
    with (v * (bx * b))%R by (unfold v; ring).
  set (P := (bx * b)%R) in *.
  assert (Hu : (u <= (1 + / 8388608) * v)%R) by lra.
  replace ((1 + / 8388608) * (v * P))%R with ((1 + / 8388608) * v * P)%R by ring.
  apply Rmult_le_compat_r; lra.
Qed.

Lemma SFadd_val (mx my : positive) (ex ey : Z) :
  Zpos (digits2_pos mx) = 24 -> Zpos (digits2_pos my) = 24 ->
  -149 <= ex <= 102 -> -149 <= ey <= 102 ->
  exists m' e',
    SFadd 24 128 (S754_finite false mx ex) (S754_finite false my ey)
    = S754_finite false m' e'
    /\ Zpos (digits2_pos m') = 24
    /\ Z.min ex ey <= e' <= Z.max ex ey + 2
    /\ (float_val (S754_finite false m' e')
        <= (1 + / 8388608)
           * (float_val (S754_finite false mx ex)
              + float_val (S754_finite false my ey)))%R.
Proof.
  intros Hx Hy Hex Hey.
  destruct (SFadd_upper mx my ex ey Hx Hy Hex Hey)
    as (m' & e' & Heq & Hd & He' & Hb).
  exists m', e'. repeat split; try assumption; try lia.
  set (ez := Z.min ex ey) in *.
  apply IZR_le in Hb. change (2 ^ 23) with 8388608 in Hb.
  rewrite !mult_IZR, !plus_IZR, !mult_IZR, !IZR_pow2 in Hb
    by (unfold ez; lia).
  unfold float_val.
  pose proof (powerRZ_2_pos ez) as HP.
  assert (Hs : forall e, powerRZ 2 e = (powerRZ 2 (e - ez) * powerRZ 2 ez)%R).
  { intros e. rewrite <- powerRZ_add by lra. f_equal. lia. }
  rewrite (Hs e'), (Hs ex), (Hs ey).
  set (P := powerRZ 2 ez) in *.
  set (u := (IZR (Zpos m') * powerRZ 2 (e' - ez))%R) in *.
  set (v := (IZR (Zpos mx) * powerRZ 2 (ex - ez)
             + IZR (Zpos my) * powerRZ 2 (ey - ez))%R) in *.
  replace (1 * IZR (Zpos m') * (powerRZ 2 (e' - ez) * P))%R with (u * P)%R
    by (unfold u; ring).
  replace (1 * IZR (Zpos mx) * (powerRZ 2 (ex - ez) * P)
           + 1 * IZR (Zpos my) * (powerRZ 2 (ey - ez) * P))%R
    with (v * P)%R by (unfold v; ring).
  assert (Hu : (u <= (1 + / 8388608) * v)%R) by lra.
  replace ((1 + / 8388608) * (v * P))%R with ((1 + / 8388608) * v * P)%R by ring.
  apply Rmult_le_compat_r; lra.
Qed.

Lemma of_int_val (k : Z) :
  0 < k < 2 ^ 24 ->
  exists m e,
    binary_normalize 24 128 k 0 false = S754_finite false m e
    /\ Zpos (digits2_pos m) = 24 /\ -23 <= e <= 0
    /\ float_val (S754_finite false m e) = IZR k.
Proof.
  intros Hk. destruct (of_int_exact k Hk) as (m & e & Heq & Hd & He & Hm).
  exists m, e. repeat split; try assumption; try lia.
  unfold float_val. rewrite Hm, mult_IZR, IZR_pow2 by lia.
  rewrite Rmult_1_l, Rmult_assoc, <- powerRZ_add by lra.
  replace (- e + e) with 0 by lia. cbn. ring.
Qed.

Lemma SQRT2_below : (float_val F32.SQRT2 < sqrt 2)%R.
Proof.
  unfold F32.SQRT2, float_val. cbn [powerRZ].
  change (Pos.to_nat 23) with 23%nat. cbn [pow].
  pose proof (sqrt_def 2 ltac:(lra)) as Hs.
  pose proof (sqrt_pos 2) as Hp.
  set (r := sqrt 2) in *. nra.
Qed.

(** The octile distance as the solver rounds it, against the real one:
    the two conversions are exact, the product and the sum are rounded
    once each. *)
Lemma octile32_upper (m a : Z) :
  0 <= m < 2 ^ 24 -> 0 <= a < 2 ^ 24 ->
  (float_val
     (F32.add (F32.add (S754_zero false) (F32.mul (F32.of_int m) F32.SQRT2))
              (F32.of_int a))
   <= (1 + / 8388608) * (1 + / 8388608) * (IZR m * sqrt 2 + IZR a))%R.
Proof.
  intros Hm Ha.
  pose proof SQRT2_below as Hs. pose proof (sqrt_pos 2) as Hs0.
  assert (HIm : (0 <= IZR m)%R) by (apply IZR_le; lia).
  assert (HIa : (0 <= IZR a)%R) by (apply IZR_le; lia).
  assert (Hprod : (0 <= IZR m * sqrt 2)%R) by (apply Rmult_le_pos; assumption).
  unfold F32.SQRT2 in Hs.
  set (root := float_val (S754_finite false 11863283 (-23))) in *.
  assert (HS0 : (0 < root)%R) by (unfold root, float_val; cbn [powerRZ];
    change (Pos.to_nat 23) with 23%nat; cbn [pow]; lra).
  assert (HmS : (IZR m * root <= IZR m * sqrt 2)%R)
    by (apply Rmult_le_compat_l; lra).
  unfold F32.add, F32.mul, F32.of_int, F32.SQRT2, F32.prec, F32.emax.
  destruct (Z.eq_dec m 0) as [->|Hm0]; [|destruct (of_int_val m) as
    (mm & em & Hmeq & Hmd & Hme & Hmv); [lia|]];
  (destruct (Z.eq_dec a 0) as [->|Ha0]; [|destruct (of_int_val a) as
    (ma & ea & Haeq & Had & Hae & Hav); [lia|]]).
  - cbn. lra.
  - rewrite Haeq. cbn [binary_normalize SFmul xorb SFadd]. rewrite Hav. nra.
  - rewrite Hmeq. cbn [binary_normalize].
    destruct (SFmul_val mm 11863283 em (-23) Hmd eq_refl ltac:(lia))
      as (mx & ex & Hxeq & Hxd & Hxe & Hxv).
    rewrite Hxeq. cbn [SFadd]. fold root in Hxv. rewrite Hmv in Hxv.
    nra.
  - rewrite Hmeq, Haeq.
    destruct (SFmul_val mm 11863283 em (-23) Hmd eq_refl ltac:(lia))
      as (mx & ex & Hxeq & Hxd & Hxe & Hxv).
    rewrite Hxeq. cbn [SFadd].
    destruct (SFadd_val mx ma ex ea Hxd Had ltac:(lia) ltac:(lia))
      as (mr & er & Hreq & Hrd & Hre & Hrv).
    change (binary_normalize 24 128
              (cond_Zopp false (Zpos (fst (shl_align mx ex (Z.min ex ea))))
               + cond_Zopp false (Zpos (fst (shl_align ma ea (Z.min ex ea)))))
              (Z.min ex ea) false)
      with (SFadd 24 128 (S754_finite false mx ex) (S754_finite false ma ea)).
    rewrite Hreq. fold root in Hxv. rewrite Hmv in Hxv. rewrite Hav in Hrv.
    nra.
Qed.

(** The real cost of a path is at least the octile distance between its
    ends. *)
Lemma walk_octile (p : Pathway) (a b : Z) (c : R) :
  walk p a b c -> (cost_val (h p a) <= c + cost_val (h p b))%R.
Proof.
  induction 1 as [|b c i v Hw IH Hs]; [lra|].
  pose proof (h_consistent p b i v Hs) as Hc.
  rewrite cost_val_COST in Hc. lra.
Qed.

(** ** The properties of the specification *)


Lemma route_walk (p : Pathway) (a b : Z) (c : cost) :
  route p a b c -> walk p a b (cost_val c).
Proof.
  induction 1 as [|b c i v Hr IH Hs].
  - rewrite cost_val_zero. constructor.
  - rewrite cost_val_add, cost_val_COST. econstructor; eassumption.
Qed.

Lemma walk_route (p : Pathway) (a b : Z) (r : R) :
  walk p a b r -> exists c, route p a b c /\ cost_val c = r.
Proof.
  induction 1 as [|b r i v Hw (c & Hc & <-) Hs].
  - exists cost_zero. split; [constructor|apply cost_val_zero].
  - exists (cost_add c (COST i)). split; [econstructor; eassumption|].
    rewrite cost_val_add, cost_val_COST. reflexivity.
Qed.

(** The same with exact sums.  In the solver of this section, which adds
    and compares distances as real numbers, the value is the shortest path
    cost: it is the cost of a path from the start to the target and at
    most the cost of every such path.  With a queue that hands out a least
    [f] first and the octile heuristic, the first time the target is
    popped its distance is the least.  The rounding of the floats breaks
    this, as the run on the 5 x 8 grid below shows. *)
Lemma solve_optimal_exact (p : Pathway) (s0 : CPUPathwaySolver) (fuel : nat)
  (r0 : R) :
  inrange p (sx p) (sy p) = true ->
  walk p (startID p) (toID p (ex p) (ey p)) r0 ->
  (Z.to_nat (cells p) < fuel)%nat ->
  exists optimal solution,
    solve fuel p (initialize p s0) = Found optimal solution
    /\ walk p (startID p) (toID p (ex p) (ey p)) (cost_val optimal)
    /\ forall r, walk p (startID p) (toID p (ex p) (ey p)) r ->
                 (cost_val optimal <= r)%R.
Proof.
  intros Hstart Hwalk Hfuel. unfold solve.
  destruct (walk_route p _ _ _ Hwalk) as (c0 & Hroute & _).
  destruct (solve_loop_optimal p fuel c0 ltac:(lia) Hroute fuel
              (initialize p s0) (initialize_search p s0 Hstart))
    as (d & sol & Hs & Hd & Hmin).
  - rewrite initialize_eq. cbn. tauto.
  - rewrite initialize_eq. cbn [closeList length]. lia.
  - exists d, sol. split; [assumption|]. split; [apply route_walk; assumption|].
    intros r Hr. destruct (walk_route p _ _ _ Hr) as (c & Hc & <-). auto.
Qed.

(** C5, as the solver computes it.  [computeFValue] is the 32-bit float
    [(g + min(dx, dy) * SQRT2) + |dx - dy|], each operation rounded.  The
    octile distance [min(dx, dy) * sqrt 2 + |dx - dy|] that it rounds is,
    as a real number, at most the cost of every path from the cell to the
    target; and the float that [computeFValue] returns for a node of the
    cell with [g = 0], on a grid whose [dx] and [dy] are below 2^24, is
    at most that cost times [(1 + 2^-23)^2]. *)
Theorem computeFValue_octile (p : Pathway) (node : F32.node_t) (u : Z)
  (c : R) :
  inrange p (ex p) (ey p) = true ->
  walk p u (toID p (ex p) (ey p)) c ->
  F32.computeFValue p node
  = (let '(x, y) := toXY p (F32.id node) in
     SFadd 24 128
       (SFadd 24 128 (F32.dist node)
          (SFmul 24 128
             (binary_normalize 24 128
                (Z.min (Z.abs (x - ex p)) (Z.abs (y - ey p))) 0 false)
             (S754_finite false 11863283 (-23))))
       (binary_normalize 24 128
          (Z.abs (Z.abs (x - ex p) - Z.abs (y - ey p))) 0 false))
  /\ (let '(x, y) := toXY p u in
      IZR (Z.min (Z.abs (x - ex p)) (Z.abs (y - ey p))) * sqrt 2
      + IZR (Z.abs (Z.abs (x - ex p) - Z.abs (y - ey p))) <= c)%R
  /\ (let '(x, y) := toXY p u in
      Z.abs (x - ex p) < 2 ^ 24 -> Z.abs (y - ey p) < 2 ^ 24 ->
      (float_val (F32.computeFValue p (F32.mkNode u (S754_zero false) None))
       <= (1 + / 8388608) * (1 + / 8388608) * c)%R).
Proof.
  intros Htarget Hwalk. split; [reflexivity|].
  pose proof (walk_octile p _ _ _ Hwalk) as Hle.
  rewrite (h_target p Htarget), cost_val_zero in Hle.
  unfold h in Hle. unfold F32.computeFValue. cbn [F32.id F32.dist].
  destruct (toXY p u) as [x y].
  unfold octile, cost_val in Hle; cbn [units diags] in Hle.
  split; [lra|]. intros Hdx Hdy.
  eapply Rle_trans; [apply octile32_upper; lia|].
  apply Rmult_le_compat_l; lra.
Qed.

(** C8 (start is the target).  When the start cell is the target cell,
    [solve] after [initialize] returns true with [*optimal = 0] and the
    one-cell path [[start]]. *)
Theorem solve_start_is_target (p : Pathway) (s0 : CPUPathwaySolver)
  (fuel : nat) :
  inrange p (sx p) (sy p) = true ->
  (sx p, sy p) = (ex p, ey p) ->
  (0 < fuel)%nat ->
  solve fuel p (initialize p s0) = Found cost_zero [(sx p, sy p)].
Proof.
  intros Hr Heq Hfuel. destruct fuel as [|fuel]; [lia|].
  injection Heq as Hx Hy.
  unfold solve. cbn [solve_loop]. rewrite initialize_eq. unfold iteration.
  cbn [openList closeList globalList targetID pop_open closed existsb snd
       find_node id walk_back prev dist].
  rewrite Z.eqb_refl.
  replace (toID p (ex p) (ey p)) with (startID p)
    by (unfold startID; congruence).
  rewrite Z.eqb_refl. cbn [prev id dist].
  unfold toVec, startID. rewrite (toXY_toID p _ _ Hr).
  destruct fuel; reflexivity.
Qed.


(** C10 (predecessors).  In every state that the main loop reaches, the
    predecessor of a node is a node created before it and the start node
    has none; a turn of the loop leaves the cell and the predecessor of
    every node in place; and the walk along [prev] from any node of the
    table ends after at most [N = W * H] cells. *)
Theorem prev_chain_bounded (p : Pathway) (s0 s : CPUPathwaySolver)
  (k wf : nat) :
  inrange p (sx p) (sy p) = true ->
  turns k wf p (initialize p s0) = Running s ->
  creation_order (globalList s)
  /\ (exists n, find_node (startID p) (globalList s) = Some n
                /\ prev n = None)
  /\ (forall s', iteration wf p s = Running s' -> grows s s')
  /\ (forall i fuel,
        find_node i (globalList s) <> None ->
        (Z.to_nat (cells p) <= fuel)%nat ->
        exists l, walk_back fuel p (globalList s) (Some i) = Some (Some l)
                  /\ (length l <= Z.to_nat (cells p))%nat).
Proof.
  intros Hr Hk.
  assert (St : structure p s).
  { eapply turns_structure; [|exact Hk]. apply initialize_structure.
    assumption. }
  split; [apply (st_order p s St)|]. split; [apply (st_start p s St)|].
  split.
  - intros s' Hi. apply (iteration_running wf p s s' St Hi).
  - intros i fuel Hi Hfuel.
    destruct (structure_walk_back p s i fuel St Hi Hfuel) as (l & Hw & _ & Hl).
    exists l. auto.
Qed.

(** ** Further properties of the search *)

Lemma turns_search (p : Pathway) (wf : nat) :
  forall k s s', search p (fun _ _ => True) s ->
                 turns k wf p s = Running s' ->
                 search p (fun _ _ => True) s'.
Proof.
  induction k as [|k IH]; intros s s' Se Hk; cbn in Hk.
  - injection Hk as <-. assumption.
  - destruct (iteration wf p s) as [s1|o] eqn:Hi; [|discriminate].
    apply (IH s1 s'); [|assumption]. eapply iteration_search; eassumption.
Qed.

Lemma reached_search (p : Pathway) (s0 s : CPUPathwaySolver) (k wf : nat) :
  inrange p (sx p) (sy p) = true ->
  turns k wf p (initialize p s0) = Running s ->
  search p (fun _ _ => True) s.
Proof.
  intros Hr Hk. eapply turns_search; [|exact Hk].
  apply initialize_search. assumption.
Qed.

(** X10.  In every state that the main loop reaches, the open list is in
    the order of [f]; every cell of the table that is not closed has an
    element in it that carries the current [f] of the cell; and the key of
    every element is at least the current [f] of its cell, so that an
    element goes stale only by being too large. *)
Theorem open_list_tracks_table (p : Pathway) (s0 s : CPUPathwaySolver)
  (k wf : nat) :
  inrange p (sx p) (sy p) = true ->
  turns k wf p (initialize p s0) = Running s ->
  f_sorted (openList s)
  /\ (forall i n, find_node i (globalList s) = Some n ->
                  ~ In i (closeList s) ->
                  In (computeFValue p n, i) (openList s))
  /\ (forall f i, In (f, i) (openList s) ->
        exists n, find_node i (globalList s) = Some n
                  /\ (cost_val (computeFValue p n) <= cost_val f)%R).
Proof.
  intros Hr Hk. pose proof (reached_search p s0 s k wf Hr Hk) as Se.
  split; [apply (se_sorted p _ s Se)|].
  split; [apply (se_cover p _ s Se)|apply (se_open p _ s Se)].
Qed.


(** X19.  With the sequential solver alone, on a grid where no path leads
    from the start to the target, [cpuSolve] either does not return (the
    pop loop has run the queue empty) or marks the query as solved without
    success; [output] then returns true and prints that there is no
    solution, and the optimal cost and the solution of the problem are
    left as they were. *)
Theorem cpu_query_without_path (float_equal : cost -> cost -> bool)
  (p : Pathway) (s0 : CPUPathwaySolver) (fuel : nat) :
  inrange p (sx p) (sy p) = true ->
  (forall c, ~ route p (startID p) (toID p (ex p) (ey p)) c) ->
  (Z.to_nat (cells p) < fuel)%nat ->
  gpuSolved p = false -> gpuSuccessful p = false ->
  match cpuSolve fuel p (initialize p s0) with
  | None => solve fuel p (initialize p s0) = Undefined
  | Some p' =>
      solve fuel p (initialize p s0) = NoPath
      /\ cpuSolved p' = true /\ cpuSuccessful p' = false
      /\ cpuOptimal p' = cpuOptimal p /\ cpuSolution p' = cpuSolution p
      /\ output float_equal p' = (true, [NoSolutionFrom "CPU"])
  end.
Proof.
  intros Hr Hno Hfuel Hg1 Hg2. unfold cpuSolve.
  destruct (solve fuel p (initialize p s0)) as [d sol| | |] eqn:Hs.
  - destruct (solve_found_route p s0 fuel d sol Hr Hs)
      as (_ & _ & _ & _ & Hroute & _).
    apply Hno in Hroute. contradiction.
  - repeat (split; [reflexivity|]). unfold output.
    cbn [cpuSolved gpuSolved cpuSuccessful gpuSuccessful].
    rewrite Hg1, Hg2. reflexivity.
  - reflexivity.
  - exfalso. unfold solve in Hs.
    destruct (solve_loop_fuel p fuel fuel ltac:(lia) ltac:(lia) fuel fuel
                (initialize p s0) (initialize_structure p s0 Hr)) as [_ Hne].
    + rewrite initialize_eq. cbn [closeList length]. lia.
    + rewrite initialize_eq. cbn [closeList length]. lia.
    + contradiction.
Qed.


(** ** Further properties of the solver with 32-bit floats *)

(** X21.  In the solver with 32-bit floats, whenever [solve] returns true,
    the path it writes is a path of the grid from the start to the target,
    and [*optimal] is the cost of some path from the start to the target,
    its step costs added in 32-bit floats in the order of the path.  This
    holds for every direction table and every order of the queue. *)
Theorem float_solution_is_path (ble32 : F32.entry -> F32.entry -> bool)
  (p : Pathway) (s0 : F32.CPUPathwaySolver) (fuel : nat) (d : F32.float)
  (sol : list vec2) :
  inrange p (sx p) (sy p) = true ->
  F32.solve DX DY ble32 fuel p (F32.initialize ble32 p s0) = F32.Found d sol ->
  route32 p (startID p) (toID p (ex p) (ey p)) d
  /\ exists ids, trail p (startID p) (toID p (ex p) (ey p)) ids
                 /\ sol = map (toVec p) ids.
Proof.
  intros Hr Hs.
  apply (solve_loop32_found ble32 p fuel d sol fuel _
           (initialize32_structure ble32 p s0 Hr) Hs).
Qed.

(** X22.  In the solver with 32-bit floats, when no path of the grid leads
    from the start to the target, [solve] ends without returning true: it
    returns false, or its pop loop runs the queue empty. *)
Theorem float_solve_no_route (ble32 : F32.entry -> F32.entry -> bool)
  (p : Pathway) (s0 : F32.CPUPathwaySolver) (fuel : nat) :
  inrange p (sx p) (sy p) = true ->
  (forall ids, ~ trail p (startID p) (toID p (ex p) (ey p)) ids) ->
  (Z.to_nat (cells p) < fuel)%nat ->
  F32.solve DX DY ble32 fuel p (F32.initialize ble32 p s0) = F32.NoPath
  \/ F32.solve DX DY ble32 fuel p (F32.initialize ble32 p s0) = F32.Undefined.
Proof.
  intros Hr Hno Hfuel.
  destruct (F32.solve DX DY ble32 fuel p (F32.initialize ble32 p s0))
    as [d sol| | |] eqn:Hs; auto.
  - destruct (solve_loop32_found ble32 p fuel d sol fuel _
                (initialize32_structure ble32 p s0 Hr) Hs)
      as (_ & ids & Htr & _).
    apply Hno in Htr. contradiction.
  - exfalso. unfold F32.solve in Hs.
    destruct (solve_loop32_fuel ble32 p fuel fuel ltac:(lia) ltac:(lia)
                fuel fuel (F32.initialize ble32 p s0)
                (initialize32_structure ble32 p s0 Hr)) as [_ Hne].
    + rewrite initialize32_eq. cbn [F32.closeList length]. lia.
    + rewrite initialize32_eq. cbn [F32.closeList length]. lia.
    + contradiction.
Qed.

Lemma direction_unit (i : Z) :
  In i directions -> -1 <= DX i <= 1 /\ -1 <= DY i <= 1.
Proof.
  intros Hi. apply In_directions in Hi.
  destruct (Z.ltb_spec i 4).
  - pose proof (axial i ltac:(lia)). lia.
  - pose proof (diagonal i ltac:(lia)). lia.
Qed.

Lemma In_upto (n i : Z) : In i (upto n) <-> 0 <= i < n.
Proof.
  unfold upto. rewrite in_map_iff. split.
  - intros (k & <- & Hk). apply in_seq in Hk. lia.
  - intros Hi. exists (Z.to_nat i). split; [lia|]. apply in_seq. lia.
Qed.

Lemma In_drawPixel (ps y x : Z) (rgb : Z * Z * Z) (w : set_pixel) :
  In w (drawPixel ps y x rgb) ->
  x * ps <= fst (fst w) < (x + 1) * ps
  /\ y * ps <= snd (fst w) < (y + 1) * ps
  /\ snd w = rgb.
Proof.
  unfold drawPixel. rewrite in_flat_map. intros (a & Ha & Hw).
  apply in_map_iff in Hw as (b & <- & Hb).
  apply In_upto in Ha, Hb. cbn. split; [|split]; [lia|lia|reflexivity].
Qed.

(** X14.  When [plotSolution] goes on to draw, every pixel that the
    background loop sets lies inside the image it has created. *)
Theorem plot_background_inside_image (p : Pathway) (iw ih ps : Z)
  (w : set_pixel) :
  plotSolution_canvas p = Image iw ih ps ->
  In w (plot_background p ps) ->
  0 <= fst (fst w) < iw /\ 0 <= snd (fst w) < ih.
Proof.
  unfold plotSolution_canvas.
  destruct ((width p =? 0) || (height p =? 0)); [discriminate|].
  destruct (Z.min _ _ =? 0); [discriminate|].
  intros [= <- <- <-].
  set (ps := Z.min (Z.quot (Z.quot 1024 3) (width p))
                   (Z.quot (Z.quot 768 3) (height p))).
  unfold plot_background.
  rewrite in_flat_map. intros (i & Hi & Hw).
  apply in_flat_map in Hw as (j & Hj & Hw).
  apply In_upto in Hi, Hj.
  assert (Hcell : forall a b, -1 <= a <= 1 -> -1 <= b <= 1 ->
            In w (drawPixel ps (3 * i + 1 + a) (3 * j + 1 + b)
                            (snd w)) ->
            0 <= fst (fst w) < width p * 3 * ps
            /\ 0 <= snd (fst w) < height p * 3 * ps).
  { intros a b Ha Hb Hin. apply In_drawPixel in Hin as (Hx & Hy & _).
    assert (0 < ps) by nia. nia. }
  apply in_app_or in Hw as [Hw|Hw].
  - pose proof (In_drawPixel _ _ _ _ _ Hw) as (_ & _ & Hrgb).
    apply (Hcell 0 0); try lia. rewrite Hrgb, !Z.add_0_r. exact Hw.
  - apply in_flat_map in Hw as (d & Hd & Hw).
    destruct (direction_unit d Hd) as [Hdx Hdy].
    pose proof (In_drawPixel _ _ _ _ _ Hw) as (_ & _ & Hrgb).
    apply (Hcell (DX d) (DY d)); try assumption. rewrite Hrgb. exact Hw.
Qed.


End Solver.

(** ** The reference conventions meet the assumptions *)

Lemma by_f_total (a b : entry) : by_f a b = true \/ by_f b a = true.
Proof.
  unfold by_f. destruct (cost_ltb (fst b) (fst a)) eqn:Hba; [|left; reflexivity].
  right. apply cost_ltb_lt in Hba.
  destruct (cost_ltb (fst a) (fst b)) eqn:Hab; [|reflexivity].
  apply cost_ltb_lt in Hab. lra.
Qed.

Lemma by_f_key (a b : entry) :
  by_f a b = true -> (cost_val (fst a) <= cost_val (fst b))%R.
Proof.
  unfold by_f. intros Hb. apply negb_true_iff in Hb.
  apply cost_ltb_ge. assumption.
Qed.

Lemma ref_axial (i : Z) :
  0 <= i < 4 -> Z.abs (DX_ref i) + Z.abs (DY_ref i) = 1.
Proof.
  intros Hi. assert (Hc : i = 0 \/ i = 1 \/ i = 2 \/ i = 3) by lia.
  destruct Hc as [->|[->|[->| ->]]]; reflexivity.
Qed.

Lemma ref_diagonal (i : Z) :
  4 <= i < 8 -> Z.abs (DX_ref i) = 1 /\ Z.abs (DY_ref i) = 1.
Proof.
  intros Hi. assert (Hc : i = 4 \/ i = 5 \/ i = 6 \/ i = 7) by lia.
  destruct Hc as [->|[->|[->| ->]]]; split; reflexivity.
Qed.

(** ** The detour grid *)


Lemma solve_start_is_target_witness :
  solve DX_ref DY_ref by_f 2 single_cell_grid
        (initialize by_f single_cell_grid blank_solver)
  = Found cost_zero [(0, 0)].
Proof.
  apply (solve_start_is_target DX_ref DY_ref by_f single_cell_grid
           blank_solver 2%nat).
  - reflexivity.
  - reflexivity.
  - lia.
Defined.

Lemma prev_chain_bounded_witness :
  exists s,
    turns DX_ref DY_ref by_f 3 10 detour_grid
          (initialize by_f detour_grid blank_solver) = Running s
    /\ creation_order (globalList s)
    /\ (exists n, find_node (startID detour_grid) (globalList s) = Some n
                  /\ prev n = None)
    /\ (forall s', iteration DX_ref DY_ref by_f 10 detour_grid s = Running s' ->
                   grows s s')
    /\ (forall i fuel,
          find_node i (globalList s) <> None ->
          (Z.to_nat (cells detour_grid) <= fuel)%nat ->
          exists l, walk_back fuel detour_grid (globalList s) (Some i)
                    = Some (Some l)
                    /\ (length l <= Z.to_nat (cells detour_grid))%nat).
Proof.
  eexists. split; [vm_compute; reflexivity|].
  apply (prev_chain_bounded DX_ref DY_ref by_f detour_grid blank_solver _
           3%nat 10%nat).
  - reflexivity.
  - vm_compute. reflexivity.
Defined.

(** C2 (relaxation).  On the detour grid, the third turn of the main loop
    expands cell (1,0) and lowers the distance of cell (2,0) from
    [2 * sqrt 2] to [2]; the predecessor of (2,0) stays (1,1), whose
    distance [sqrt 2] plus the diagonal step is [2 * sqrt 2], not [2]. *)
Theorem relaxation_keeps_predecessor :
  exists s,
    turns DX_ref DY_ref by_f 3 10 detour_grid
          (initialize by_f detour_grid blank_solver) = Running s
    /\ find_node 2 (globalList s) = Some (mkNode 2 (mkCost 2 0) (Some 4))
    /\ find_node 4 (globalList s) = Some (mkNode 4 (mkCost 0 1) (Some 0))
    /\ neighbour DX_ref DY_ref detour_grid 4 5 = Some 2
    /\ cost_add (mkCost 0 1) (COST 5) = mkCost 0 2
    /\ cost_ltb (mkCost 2 0) (mkCost 0 2) = true.
Proof.
  eexists. split; [vm_compute; reflexivity|].
  repeat split.
Qed.

(** C3 (path validity).  On the detour grid [solve] returns true with
    [*optimal = 4], and the path it writes goes through (1,1): it starts at
    the start and ends at the target over edges of the grid, but its step
    costs add up to [2 + 2 * sqrt 2], which is more than 4. *)
Theorem detour_solution_cost :
  solve DX_ref DY_ref by_f 10 detour_grid (initialize by_f detour_grid blank_solver)
  = Found (mkCost 4 0) [(0, 0); (1, 1); (2, 0); (2, 1); (2, 2)]
  /\ solution_cost DX_ref DY_ref detour_grid
                   [(0, 0); (1, 1); (2, 0); (2, 1); (2, 2)]
     = Some (mkCost 2 2)
  /\ cost_ltb (mkCost 4 0) (mkCost 2 2) = true.
Proof. repeat split. Qed.

(** ** The walled grid *)

Lemma walled_reach (b : Z) (c : cost) :
  route DX_ref DY_ref walled_grid 0 b c -> b = 0 \/ b = 1 \/ b = 2 \/ b = 4.
Proof.
  induction 1 as [|b c i v Hr IH [Hi Hn]]; [left; reflexivity|].
  cbn in Hi.
  destruct IH as [->|[->|[->| ->]]];
    repeat (destruct Hi as [<-|Hi]; [vm_compute in Hn; try discriminate;
                                     injection Hn as <-; lia|]);
    destruct Hi.
Qed.

(** C4 (no path).  On the walled grid no path leads to the target, and
    [solve] does not return false: once cell (2,0) is closed, the queue
    holds one stale element for it, the pop loop removes it and calls
    [top()] on the empty queue. *)
Theorem walled_top_of_empty :
  (forall c, ~ route DX_ref DY_ref walled_grid (startID walled_grid)
                     (toID walled_grid (ex walled_grid) (ey walled_grid)) c)
  /\ (exists s,
        turns DX_ref DY_ref by_f 4 13 walled_grid
              (initialize by_f walled_grid blank_solver) = Running s
        /\ openList s = [(mkCost 2 3, 2)]
        /\ closeList s = [2; 1; 4; 0])
  /\ solve DX_ref DY_ref by_f 13 walled_grid
           (initialize by_f walled_grid blank_solver) = Undefined.
Proof.
  split; [|split].
  - intros c Hr. apply walled_reach in Hr. vm_compute in Hr. lia.
  - eexists. split; [vm_compute; reflexivity|]. split; reflexivity.
  - vm_compute. reflexivity.
Qed.

(** ** The driver *)

(** C6 (cross-check).  [output] returns false exactly when both solvers
    have run and their success flags differ or their costs are not equal
    up to the tolerance; otherwise it returns true. *)
Theorem output_mismatch (float_equal : cost -> cost -> bool) (p : Pathway) :
  (fst (output float_equal p) = false
   <-> cpuSolved p = true /\ gpuSolved p = true
       /\ (cpuSuccessful p <> gpuSuccessful p
           \/ float_equal (cpuOptimal p) (gpuOptimal p) = false))
  /\ (fst (output float_equal p) = true
      <-> cpuSolved p = false \/ gpuSolved p = false
          \/ (cpuSuccessful p = gpuSuccessful p
              /\ float_equal (cpuOptimal p) (gpuOptimal p) = true)).
Proof.
  unfold output.
  destruct (cpuSolved p), (gpuSolved p), (cpuSuccessful p), (gpuSuccessful p),
    (float_equal (cpuOptimal p) (gpuOptimal p)); cbn;
    intuition congruence.
Qed.

(** C7, as the constructor has it.  Construction ends in the fatal error
    "Please set the width and height for your graph." exactly when [width]
    or [height] is missing; a width and a height that are present become
    the dimensions of the problem as they are. *)
Theorem Pathway_new_fatal (vm : options) (blank : Pathway) :
  (Pathway_new vm blank
   = Fatal "Please set the width and height for your graph."
   <-> opt_width vm = None \/ opt_height vm = None)
  /\ match opt_width vm, opt_height vm with
     | Some w, Some h' =>
         exists p, Pathway_new vm blank = Constructed p
                   /\ width p = w /\ height p = h' /\ m_size p = w * h'
     | _, _ => forall p, Pathway_new vm blank <> Constructed p
     end.
Proof.
  unfold Pathway_new.
  destruct (opt_width vm) as [w|], (opt_height vm) as [h'|]; split;
    try (split; [discriminate|intros [|]; discriminate]);
    try (split; auto; fail);
    try discriminate.
  eexists. split; [reflexivity|]. auto.
Qed.

(** C7 as stated fails: a width of 0 is not a positive integer, and the
    problem is constructed. *)
Lemma nonpositive_width_constructed :
  ~ (forall vm blank,
       valid_dimension (opt_width vm) = false
       \/ valid_dimension (opt_height vm) = false ->
       exists m, Pathway_new vm blank = Fatal m).
Proof.
  intros Hall.
  destruct (Hall (mkOptions (Some 0) (Some 5) "custom") single_cell_grid)
    as [m Hm]; [left; reflexivity|discriminate].
Qed.

(** ** The solver with 32-bit floats on concrete grids *)


Lemma detour_walk :
  walk DX_ref DY_ref detour_grid 0
       (toID detour_grid (ex detour_grid) (ey detour_grid)) (0 + 1 + 1 + 1 + 1)%R.
Proof.
  apply (walk_step DX_ref DY_ref detour_grid 0 5 (0 + 1 + 1 + 1)%R 2 8).
  apply (walk_step DX_ref DY_ref detour_grid 0 2 (0 + 1 + 1)%R 2 5).
  apply (walk_step DX_ref DY_ref detour_grid 0 1 (0 + 1)%R 0 2).
  apply (walk_step DX_ref DY_ref detour_grid 0 0 0%R 0 1).
  apply walk_here.
  all: split; [cbn; tauto|reflexivity].
Qed.


Lemma computeFValue_octile_witness :
  F32.computeFValue detour_grid (F32.mkNode 0 (S754_zero false) None)
  = (let '(x, y) := toXY detour_grid 0 in
     SFadd 24 128
       (SFadd 24 128 (S754_zero false)
          (SFmul 24 128
             (binary_normalize 24 128
                (Z.min (Z.abs (x - ex detour_grid))
                       (Z.abs (y - ey detour_grid))) 0 false)
             (S754_finite false 11863283 (-23))))
       (binary_normalize 24 128
          (Z.abs (Z.abs (x - ex detour_grid) - Z.abs (y - ey detour_grid)))
          0 false))
  /\ (let '(x, y) := toXY detour_grid 0 in
      IZR (Z.min (Z.abs (x - ex detour_grid)) (Z.abs (y - ey detour_grid)))
      * sqrt 2
      + IZR (Z.abs (Z.abs (x - ex detour_grid) - Z.abs (y - ey detour_grid)))
      <= 0 + 1 + 1 + 1 + 1)%R
  /\ (let '(x, y) := toXY detour_grid 0 in
      Z.abs (x - ex detour_grid) < 2 ^ 24 ->
      Z.abs (y - ey detour_grid) < 2 ^ 24 ->
      (float_val
         (F32.computeFValue detour_grid (F32.mkNode 0 (S754_zero false) None))
       <= (1 + / 8388608) * (1 + / 8388608) * (0 + 1 + 1 + 1 + 1))%R).
Proof.
  apply (computeFValue_octile DX_ref DY_ref ref_axial ref_diagonal detour_grid
           (F32.mkNode 0 (S754_zero false) None) 0 (0 + 1 + 1 + 1 + 1)%R).
  - reflexivity.
  - exact detour_walk.
Defined.




Lemma float_solution_is_path_witness :
  route32 DX_ref DY_ref detour_grid (startID detour_grid)
          (toID detour_grid (ex detour_grid) (ey detour_grid))
          (S754_finite false 8388608 (-21))
  /\ exists ids,
       trail DX_ref DY_ref detour_grid (startID detour_grid)
             (toID detour_grid (ex detour_grid) (ey detour_grid)) ids
       /\ [(0, 0); (1, 1); (2, 0); (2, 1); (2, 2)]
          = map (toVec detour_grid) ids.
Proof.
  apply (float_solution_is_path DX_ref DY_ref
           (by_f_then_address (fun i => i)) detour_grid blank_solver32
           10%nat).
  - reflexivity.
  - vm_compute. reflexivity.
Defined.

Lemma island_trail (b : Z) (ids : list Z) :
  trail DX_ref DY_ref island_grid 0 b ids -> b = 0.
Proof.
  induction 1 as [|b c d ids Htr IH [Hd Hn]]; [reflexivity|].
  subst b. cbn in Hd.
  repeat (destruct Hd as [<-|Hd]; [vm_compute in Hn; discriminate|]).
  destruct Hd.
Qed.

Lemma float_solve_no_route_witness :
  F32.solve DX_ref DY_ref (by_f_then_address (fun i => i)) 3 island_grid
    (F32.initialize (by_f_then_address (fun i => i)) island_grid
                    blank_solver32) = F32.NoPath
  \/ F32.solve DX_ref DY_ref (by_f_then_address (fun i => i)) 3 island_grid
       (F32.initialize (by_f_then_address (fun i => i)) island_grid
                       blank_solver32) = F32.Undefined.
Proof.
  apply (float_solve_no_route DX_ref DY_ref (by_f_then_address (fun i => i))
           island_grid blank_solver32 3%nat).
  - reflexivity.
  - intros ids Htr. apply island_trail in Htr. vm_compute in Htr.
    discriminate.
  - vm_compute. lia.
Defined.



Lemma open_8x8_route32 :
  route32 DX_ref DY_ref open_8x8 (startID open_8x8)
          (toID open_8x8 (ex open_8x8) (ey open_8x8))
          (S754_finite false 10380372 (-20)).
Proof.
  change (S754_finite false 10380372 (-20))
    with (SFadd 24 128 (SFadd 24 128 (SFadd 24 128 (SFadd 24 128
            (SFadd 24 128 (SFadd 24 128 (SFadd 24 128 (S754_zero false)
               (step_cost32 4)) (step_cost32 4)) (step_cost32 4))
            (step_cost32 4)) (step_cost32 4)) (step_cost32 4))
            (step_cost32 4)).
  apply (route32_step DX_ref DY_ref open_8x8 0 54 _ 4 63).
  apply (route32_step DX_ref DY_ref open_8x8 0 45 _ 4 54).
  apply (route32_step DX_ref DY_ref open_8x8 0 36 _ 4 45).
  apply (route32_step DX_ref DY_ref open_8x8 0 27 _ 4 36).
  apply (route32_step DX_ref DY_ref open_8x8 0 18 _ 4 27).
  apply (route32_step DX_ref DY_ref open_8x8 0 9 _ 4 18).
  apply (route32_step DX_ref DY_ref open_8x8 0 0 _ 4 9).
  apply route32_here.
  all: split; [cbn; tauto|vm_compute; reflexivity].
Qed.

Lemma open_8x8_walk :
  walk DX_ref DY_ref open_8x8 (startID open_8x8)
       (toID open_8x8 (ex open_8x8) (ey open_8x8))
       (0 + sqrt 2 + sqrt 2 + sqrt 2 + sqrt 2 + sqrt 2 + sqrt 2 + sqrt 2)%R.
Proof.
  apply (walk_step DX_ref DY_ref open_8x8 0 54 _ 4 63).
  apply (walk_step DX_ref DY_ref open_8x8 0 45 _ 4 54).
  apply (walk_step DX_ref DY_ref open_8x8 0 36 _ 4 45).
  apply (walk_step DX_ref DY_ref open_8x8 0 27 _ 4 36).
  apply (walk_step DX_ref DY_ref open_8x8 0 18 _ 4 27).
  apply (walk_step DX_ref DY_ref open_8x8 0 9 _ 4 18).
  apply (walk_step DX_ref DY_ref open_8x8 0 0 _ 4 9).
  apply walk_here.
  all: split; [cbn; tauto|vm_compute; reflexivity].
Qed.

(** C5 as stated fails.  On the 8 x 8 grid with every edge and the target
    at (7,7), [computeFValue] of the start node, whose [g] is 0, is the
    float [10380373 * 2^-20]: the product [7 * SQRT2] rounded.  The seven
    diagonal steps to the target cost [7 * sqrt 2], which is less, and
    their cost as the solver adds it is [10380372 * 2^-20], which is less
    too. *)
Lemma heuristic_exceeds_cost :
  F32.computeFValue open_8x8 (F32.mkNode 0 (S754_zero false) None)
  = S754_finite false 10380373 (-20)
  /\ route32 DX_ref DY_ref open_8x8 (startID open_8x8)
             (toID open_8x8 (ex open_8x8) (ey open_8x8))
             (S754_finite false 10380372 (-20))
  /\ SFltb (S754_finite false 10380372 (-20))
           (S754_finite false 10380373 (-20)) = true
  /\ walk DX_ref DY_ref open_8x8 (startID open_8x8)
          (toID open_8x8 (ex open_8x8) (ey open_8x8))
          (0 + sqrt 2 + sqrt 2 + sqrt 2 + sqrt 2 + sqrt 2 + sqrt 2 + sqrt 2)%R
  /\ (0 + sqrt 2 + sqrt 2 + sqrt 2 + sqrt 2 + sqrt 2 + sqrt 2 + sqrt 2
      < float_val (S754_finite false 10380373 (-20)))%R.
Proof.
  split; [vm_compute; reflexivity|].
  split; [exact open_8x8_route32|].
  split; [reflexivity|].
  split; [exact open_8x8_walk|].
  unfold float_val. cbn [powerRZ].
  change (Pos.to_nat 20) with 20%nat. cbn [pow].
  pose proof sqrt2_sq as Hs. pose proof sqrt2_gt0 as Hp.
  assert (H : (7 * sqrt 2 < 10380373 / 1048576)%R)
    by (apply (sq_compare _ 7 (sqrt 2) Hs Hp); lra).
  lra.
Qed.

(** The runs of the detour grid, of the walled grid and of the scenarios
    S1 and S3 come out with 32-bit floats as they do with exact sums. *)
Example detour_run_float :
  F32.solve DX_ref DY_ref (by_f_then_address (fun i => i)) 10 detour_grid
    (F32.initialize (by_f_then_address (fun i => i)) detour_grid
                    blank_solver32)
  = F32.Found (S754_finite false 8388608 (-21))
              [(0, 0); (1, 1); (2, 0); (2, 1); (2, 2)].
Proof. vm_compute. reflexivity. Qed.

Example walled_run_float :
  F32.solve DX_ref DY_ref (by_f_then_address (fun i => i)) 13 walled_grid
    (F32.initialize (by_f_then_address (fun i => i)) walled_grid
                    blank_solver32)
  = F32.Undefined.
Proof. vm_compute. reflexivity. Qed.

Example scenario_S1_run_float :
  F32.solve DX_ref DY_ref (by_f_then_address (fun i => i)) 10 scenario_S1
    (F32.initialize (by_f_then_address (fun i => i)) scenario_S1
                    blank_solver32)
  = F32.Found (S754_finite false 11863283 (-22)) [(0, 0); (1, 1); (2, 2)].
Proof. vm_compute. reflexivity. Qed.

Example scenario_S3_run_float :
  F32.solve DX_ref DY_ref (by_f_then_address (fun i => i)) 17 scenario_S3
    (F32.initialize (by_f_then_address (fun i => i)) scenario_S3
                    blank_solver32)
  = F32.Undefined.
Proof. vm_compute. reflexivity. Qed.

(** ** The scenarios of the specification *)

Example scenario_S1_run :
  solve DX_ref DY_ref by_f 10 scenario_S1 (initialize by_f scenario_S1 blank_solver)
  = Found (mkCost 0 2) [(0, 0); (1, 1); (2, 2)].
Proof. vm_compute. reflexivity. Qed.

Example scenario_S2_run :
  exists solution,
    solve DX_ref DY_ref by_f 26 scenario_S2
          (initialize by_f scenario_S2 blank_solver)
    = Found (mkCost 8 0) solution.
Proof. eexists. vm_compute. reflexivity. Qed.

Example scenario_S6_run :
  solve DX_ref DY_ref by_f 5 scenario_S6 (initialize by_f scenario_S6 blank_solver)
  = Found SQRT2 [(0, 0); (1, 1)].
Proof. vm_compute. reflexivity. Qed.

(** On scenario S3 the run ends as on the walled grid: cell (0,2) is
    reached over a diagonal first and over two axial steps later, and the
    element it leaves in the queue is still there when every reachable cell
    is closed. *)
Example scenario_S3_run :
  solve DX_ref DY_ref by_f 17 scenario_S3 (initialize by_f scenario_S3 blank_solver)
  = Undefined.
Proof. vm_compute. reflexivity. Qed.

(** Scenario S6 from the constructor to the output, the sequential solver
    alone. *)
Example scenario_S6_output :
  option_map (output (fun _ _ => true))
    (cpuSolve DX_ref DY_ref by_f 5 scenario_S6
              (initialize by_f scenario_S6 blank_solver))
  = Some (true, [SolutionFrom "CPU" [(0, 0); (1, 1)];
                 OptimalFrom "CPU" SQRT2;
                 Plot [(0, 0); (1, 1)] "pathwayCPU.bmp"]).
Proof. vm_compute. reflexivity. Qed.

(** ** Further properties of the driver *)

Lemma printed_cells_app (a b : list printed) :
  printed_cells (a ++ b) = printed_cells a ++ printed_cells b.
Proof.
  induction a as [|c a IH]; [reflexivity|].
  destruct c; cbn [app printed_cells]; rewrite IH; reflexivity.
Qed.

Lemma count_text_app (t : string) (a b : list printed) :
  count_text t (a ++ b) = count_text t a + count_text t b.
Proof.
  induction a as [|c a IH]; [reflexivity|].
  destruct c; cbn [app count_text]; lia.
Qed.

Lemma printSolution_loop_layout (solution : list vec2) :
  forall count, 0 <= count ->
    printed_cells (printSolution_loop count solution) = solution
    /\ count_text arrow (printSolution_loop count solution)
       = (if count =? 0 then Z.max 0 (Z.of_nat (length solution) - 1)
          else Z.of_nat (length solution))
    /\ count_text newline_tab (printSolution_loop count solution)
       = (count + Z.of_nat (length solution)) / 10 - count / 10.
Proof.
  induction solution as [|v rest IH]; intros count Hc.
  - cbn. rewrite Z.add_0_r. destruct (count =? 0); split; auto; lia.
  - destruct (IH (count + 1) ltac:(lia)) as (Hcells & Harrow & Hbreak).
    cbn [printSolution_loop length].
    rewrite !printed_cells_app, !count_text_app.
    cbn [printed_cells count_text app].
    rewrite Hcells, Harrow, Hbreak.
    replace (count + 1 =? 0) with false by (symmetry; apply Z.eqb_neq; lia).
    rewrite Z.rem_mod_nonneg by lia.
    assert (Haa : String.eqb arrow arrow = true) by reflexivity.
    assert (Han : String.eqb arrow newline_tab = false) by reflexivity.
    assert (Hna : String.eqb newline_tab arrow = false) by reflexivity.
    assert (Hnn : String.eqb newline_tab newline_tab = true) by reflexivity.
    split; [|split].
    + destruct (count =? 0), ((count + 1) mod 10 =? 0); cbn; destruct v;
        reflexivity.
    + destruct (Z.eqb_spec count 0), ((count + 1) mod 10 =? 0);
        cbn [count_text]; rewrite ?Haa, ?Hna; lia.
    + replace (count + Z.of_nat (S (length rest)))
        with (count + 1 + Z.of_nat (length rest)) by lia.
      assert (Hdiv : (count + 1) / 10
                     = count / 10 + (if (count + 1) mod 10 =? 0 then 1 else 0)).
      { destruct (Z.eqb_spec ((count + 1) mod 10) 0);
          Z.to_euclidean_division_equations; lia. }
      destruct (count =? 0), ((count + 1) mod 10 =? 0);
        cbn [count_text]; rewrite ?Han, ?Hnn; lia.
Qed.

Lemma printSolution_loop_indexed (solution : list vec2) :
  forall k : nat,
    printSolution_loop (Z.of_nat k) solution
    = flat_map (fun kv =>
         (if fst kv =? 0 then [] else [Text arrow])
         ++ (if (fst kv + 1) mod 10 =? 0 then [Text newline_tab] else [])
         ++ [Coordinates (fst (snd kv)) (snd (snd kv))])
       (combine (map Z.of_nat (seq k (length solution))) solution).
Proof.
  induction solution as [|v rest IH]; intros k; [reflexivity|].
  cbn [printSolution_loop length seq map combine flat_map fst snd].
  rewrite Z.rem_mod_nonneg by lia.
  replace (Z.of_nat k + 1) with (Z.of_nat (S k)) by lia.
  rewrite IH, <- !app_assoc. reflexivity.
Qed.

Lemma intersperse_cons (sep a : printed) (l : list printed) :
  intersperse sep (a :: l) = a :: flat_map (fun x => [sep; x]) l.
Proof.
  revert a. induction l as [|b l IH]; intros a; [reflexivity|].
  change (intersperse sep (a :: b :: l))
    with (a :: sep :: intersperse sep (b :: l)).
  rewrite IH. reflexivity.
Qed.

Lemma printSolution_loop_arrows (solution : list vec2) :
  forall count, 0 < count ->
    without_text newline_tab (printSolution_loop count solution)
    = flat_map (fun x => [Text arrow; x])
               (map (fun v => Coordinates (fst v) (snd v)) solution).
Proof.
  induction solution as [|v rest IH]; intros count Hc; [reflexivity|].
  cbn [printSolution_loop map flat_map app].
  replace (count =? 0) with false by (symmetry; apply Z.eqb_neq; lia).
  unfold without_text in *. rewrite !filter_app.
  cbn [filter app]. rewrite (IH (count + 1)) by lia.
  assert (Han : String.eqb arrow newline_tab = false) by reflexivity.
  assert (Hnn : String.eqb newline_tab newline_tab = true) by reflexivity.
  rewrite Han. destruct (Z.rem (count + 1) 10 =? 0); cbn [filter negb app];
    rewrite ?Hnn; reflexivity.
Qed.

(** X15.  [printSolution] prints a tab and then the cells of the solution
    in order.  Every cell but the first is preceded by one arrow, so that
    one arrow stands between two consecutive cells, and the 10th, the
    20th, ... cell is moreover preceded by a line break, which comes after
    the arrow.  Nothing else is printed. *)
Theorem printSolution_layout (solution : list vec2) :
  printSolution solution
  = Text tab
    :: flat_map (fun kv =>
         (if fst kv =? 0 then [] else [Text arrow])
         ++ (if (fst kv + 1) mod 10 =? 0 then [Text newline_tab] else [])
         ++ [Coordinates (fst (snd kv)) (snd (snd kv))])
       (combine (upto (Z.of_nat (length solution))) solution)
  /\ without_text newline_tab (printSolution solution)
     = Text tab
       :: intersperse (Text arrow)
            (map (fun v => Coordinates (fst v) (snd v)) solution)
  /\ printed_cells (printSolution solution) = solution
  /\ count_text arrow (printSolution solution)
     = Z.max 0 (Z.of_nat (length solution) - 1)
  /\ count_text newline_tab (printSolution solution)
     = Z.of_nat (length solution) / 10.
Proof.
  split; [|split].
  - unfold printSolution, upto. rewrite Nat2Z.id.
    change 0 with (Z.of_nat 0) at 1.
    rewrite (printSolution_loop_indexed solution 0). reflexivity.
  - unfold printSolution.
    assert (Htn : String.eqb tab newline_tab = false) by reflexivity.
    unfold without_text. cbn [filter]. rewrite Htn. cbn [negb]. f_equal.
    destruct solution as [|v rest]; [reflexivity|].
    cbn [printSolution_loop map app]. rewrite intersperse_cons.
    change (0 =? 0) with true.
    change (Z.rem (0 + 1) 10 =? 0) with false. cbn [app filter]. f_equal.
    apply (printSolution_loop_arrows rest (0 + 1)). lia.
  - destruct (printSolution_loop_layout solution 0 ltac:(lia))
      as (Hcells & Harrow & Hbreak).
    unfold printSolution. cbn [printed_cells count_text].
    rewrite Hcells, Harrow, Hbreak.
    assert (Hta : String.eqb tab arrow = false) by reflexivity.
    assert (Htn : String.eqb tab newline_tab = false) by reflexivity.
    rewrite Hta, Htn. cbn. split; [reflexivity|]. split; lia.
Qed.

(** X16.  On a grid with positive dimensions, [plotSolution] gives up with
    its warning exactly when the grid is wider than 341 or taller than 256
    cells; otherwise the pixel size is positive and the image it creates
    is at most 1023 x 768. *)
Theorem plotSolution_canvas_bounds (p : Pathway) :
  0 < width p -> 0 < height p ->
  match plotSolution_canvas p with
  | DivisionByZero => False
  | TooSmall => 341 < width p \/ 256 < height p
  | Image iw ih ps =>
      width p <= 341 /\ height p <= 256 /\ 0 < ps
      /\ iw = width p * 3 * ps /\ ih = height p * 3 * ps
      /\ 0 < iw <= 1023 /\ 0 < ih <= 768
  end.
Proof.
  intros Hw Hh. unfold plotSolution_canvas.
  replace ((width p =? 0) || (height p =? 0)) with false
    by (symmetry; apply orb_false_iff; split; apply Z.eqb_neq; lia).
  change (Z.quot 1024 3) with 341. change (Z.quot 768 3) with 256.
  rewrite !Z.quot_div_nonneg by lia.
  pose proof (Z.mul_div_le 341 (width p) Hw) as Hqw.
  pose proof (Z.mul_div_le 256 (height p) Hh) as Hqh.
  pose proof (Z.div_pos 341 (width p) ltac:(lia) Hw) as Hpw.
  pose proof (Z.div_pos 256 (height p) ltac:(lia) Hh) as Hph.
  destruct (Z.eqb_spec (Z.min (341 / width p) (256 / height p)) 0) as [H0|H0].
  - destruct (Z.min_spec (341 / width p) (256 / height p)) as [[_ Hm]|[_ Hm]];
      rewrite Hm in H0; apply Z.div_small_iff in H0; lia.
  - assert (Hps : 0 < Z.min (341 / width p) (256 / height p)) by lia.
    assert (Hd1 : 0 < 341 / width p) by lia.
    assert (Hd2 : 0 < 256 / height p) by lia.
    assert (Hw' : width p <= 341).
    { destruct (Z.le_gt_cases (width p) 341) as [|Hgt]; [assumption|].
      rewrite Z.div_small in Hd1 by lia. lia. }
    assert (Hh' : height p <= 256).
    { destruct (Z.le_gt_cases (height p) 256) as [|Hgt]; [assumption|].
      rewrite Z.div_small in Hd2 by lia. lia. }
    repeat split; try lia; nia.
Qed.

(** X17.  [prepare] throws at its first statement when [m_size] is
    negative.  Otherwise it ends in the fatal error "Please set your
    input-module parameter correctly." exactly when the input module is
    not "custom"; and with the custom module, on a number of cells that is
    a non-negative [int], it keeps the dimensions and the flags, takes the
    end points from the custom input, and leaves a mask vector of exactly
    [W * H] bytes.  A negative number of cells makes [generateGraph]
    throw. *)
Theorem prepare_outcome (custom : Z -> Z -> PathwayInput) (p : Pathway) :
  match prepare custom p with
  | LengthError =>
      m_size p < 0
      \/ (m_inputModule p = "custom"%string
          /\ - 2 ^ 31 <= width p * height p < 0)
  | IntOverflow =>
      0 <= m_size p /\ m_inputModule p = "custom"%string
      /\ ~ (- 2 ^ 31 <= width p * height p < 2 ^ 31)
  | PrepareFatal m =>
      0 <= m_size p
      /\ m = "Please set your input-module parameter correctly."%string
      /\ m_inputModule p <> "custom"%string
  | Prepared q =>
      0 <= m_size p /\ m_inputModule p = "custom"%string
      /\ 0 <= width p * height p < 2 ^ 31
      /\ width q = width p /\ height q = height p
      /\ length (m_graph q) = Z.to_nat (width p * height p)
      /\ Forall (fun b => 0 <= b < 256) (m_graph q)
      /\ (sx q, sy q) = getStartPoint (custom (height p) (width p))
      /\ (ex q, ey q) = getEndPoint (custom (height p) (width p))
      /\ cpuSolved q = cpuSolved p /\ gpuSolved q = gpuSolved p
  end.
Proof.
  unfold prepare, is_int.
  destruct (Z.ltb_spec (m_size p) 0) as [Hneg|Hsize]; [left; assumption|].
  destruct (String.eqb_spec (m_inputModule p) "custom") as [Hm|Hm];
    [|split; [assumption|split; [reflexivity|assumption]]].
  destruct (Z.leb_spec (- 2 ^ 31) (width p * height p)) as [Hlo|Hlo];
    cbn [andb negb]; [|repeat split; try assumption; lia].
  destruct (Z.ltb_spec (width p * height p) (2 ^ 31)) as [Hhi|Hhi];
    cbn [negb]; [|repeat split; try assumption; lia].
  destruct (Z.ltb_spec (width p * height p) 0) as [Hn|Hn];
    [right; split; [assumption|lia]|].
  split; [assumption|]. split; [assumption|]. split; [lia|].
  split; [reflexivity|]. split; [reflexivity|].
  cbn [generateGraph m_graph]. split.
  - rewrite length_map, length_seq. reflexivity.
  - split.
    + apply Forall_forall. intros b Hb.
      apply in_map_iff in Hb as (k & <- & _). apply Z.mod_pos_bound. lia.
    + unfold sx, sy, ex, ey. cbn.
      destruct (getStartPoint _), (getEndPoint _). auto.
Qed.

(** ** The further properties on concrete inputs *)


Lemma solve_no_route_witness :
  solve DX_ref DY_ref by_f 13 walled_grid
        (initialize by_f walled_grid blank_solver) = NoPath
  \/ solve DX_ref DY_ref by_f 13 walled_grid
           (initialize by_f walled_grid blank_solver) = Undefined.
Proof.
  apply (solve_no_route DX_ref DY_ref by_f walled_grid blank_solver 13%nat).
  - reflexivity.
  - intros c Hr. apply walled_reach in Hr. vm_compute in Hr. lia.
  - vm_compute. lia.
Defined.

Lemma table_one_record_per_cell_witness :
  exists s,
    turns DX_ref DY_ref by_f 3 10 detour_grid
          (initialize by_f detour_grid blank_solver) = Running s
    /\ NoDup (map id (globalList s))
    /\ (length (globalList s) <= Z.to_nat (cells detour_grid))%nat
    /\ (forall n, In n (globalList s) -> 0 <= id n < cells detour_grid)
    /\ (forall e, In e (openList s) -> In (snd e) (map id (globalList s)))
    /\ (forall i, In i (closeList s) -> In i (map id (globalList s))).
Proof.
  eexists. split; [vm_compute; reflexivity|].
  apply (table_one_record_per_cell DX_ref DY_ref by_f detour_grid blank_solver
           _ 3%nat 10%nat).
  - reflexivity.
  - vm_compute. reflexivity.
Defined.

Lemma turn_closes_one_cell_witness :
  exists s s',
    turns DX_ref DY_ref by_f 2 10 detour_grid
          (initialize by_f detour_grid blank_solver) = Running s
    /\ iteration DX_ref DY_ref by_f 10 detour_grid s = Running s'
    /\ exists u, closeList s' = u :: closeList s
                 /\ ~ In u (closeList s)
                 /\ u <> toID detour_grid (ex detour_grid) (ey detour_grid)
                 /\ NoDup (closeList s').
Proof.
  eexists. eexists. split; [vm_compute; reflexivity|].
  split; [vm_compute; reflexivity|].
  apply (turn_closes_one_cell DX_ref DY_ref by_f detour_grid blank_solver
           _ _ 2%nat 10%nat).
  - reflexivity.
  - vm_compute. reflexivity.
  - vm_compute. reflexivity.
Defined.

Lemma dist_never_increases_witness :
  exists s',
    iteration DX_ref DY_ref by_f 10 detour_grid
              (initialize by_f detour_grid blank_solver) = Running s'
    /\ improves (initialize by_f detour_grid blank_solver) s'.
Proof.
  eexists. split; [vm_compute; reflexivity|].
  apply (dist_never_increases DX_ref DY_ref by_f detour_grid _ _ 10%nat).
  vm_compute. reflexivity.
Defined.


Lemma solution_visits_cells_once_witness :
  exists ids,
    [(0, 0); (1, 1); (2, 0); (2, 1); (2, 2)] = map (toVec detour_grid) ids
    /\ NoDup ids
    /\ (1 <= length [(0, 0); (1, 1); (2, 0); (2, 1); (2, 2)]
        <= Z.to_nat (cells detour_grid))%nat.
Proof.
  apply (solution_visits_cells_once DX_ref DY_ref by_f detour_grid
           blank_solver 10%nat (mkCost 4 0)).
  - reflexivity.
  - vm_compute. reflexivity.
Defined.

Lemma solver_reads_inside_graph_witness :
  exists s,
    turns DX_ref DY_ref by_f 3 10 (generateGraph unfilled_3x3 detour_input)
          (initialize by_f (generateGraph unfilled_3x3 detour_input)
                      blank_solver) = Running s
    /\ length (m_graph (generateGraph unfilled_3x3 detour_input))
       = Z.to_nat (width unfilled_3x3 * height unfilled_3x3)
    /\ forall i n,
         find_node i (globalList s) = Some n ->
         0 <= i
         /\ (Z.to_nat i
             < length (m_graph (generateGraph unfilled_3x3 detour_input)))%nat
         /\ 0 <= graph (generateGraph unfilled_3x3 detour_input) i < 256.
Proof.
  eexists. split; [vm_compute; reflexivity|].
  apply (solver_reads_inside_graph DX_ref DY_ref by_f unfilled_3x3
           detour_input blank_solver _ 3%nat 10%nat).
  - reflexivity.
  - vm_compute. reflexivity.
Defined.

Lemma open_list_tracks_table_witness :
  exists s,
    turns DX_ref DY_ref by_f 3 10 detour_grid
          (initialize by_f detour_grid blank_solver) = Running s
    /\ f_sorted (openList s)
    /\ (forall i n, find_node i (globalList s) = Some n ->
                    ~ In i (closeList s) ->
                    In (computeFValue detour_grid n, i) (openList s))
    /\ (forall f i, In (f, i) (openList s) ->
          exists n, find_node i (globalList s) = Some n
                    /\ (cost_val (computeFValue detour_grid n)
                        <= cost_val f)%R).
Proof.
  eexists. split; [vm_compute; reflexivity|].
  apply (open_list_tracks_table DX_ref DY_ref by_f by_f_total by_f_key
           ref_axial ref_diagonal detour_grid blank_solver _ 3%nat 10%nat).
  - reflexivity.
  - vm_compute. reflexivity.
Defined.


Lemma plot_background_inside_image_witness :
  plotSolution_canvas tall_grid = Image 3 387 1
  /\ In (1, 1, (255, 255, 255)) (plot_background DX_ref DY_ref tall_grid 1)
  /\ (0 <= 1 < 3 /\ 0 <= 1 < 387).
Proof.
  assert (Hc : plotSolution_canvas tall_grid = Image 3 387 1)
    by (vm_compute; reflexivity).
  assert (Hin : In (1, 1, (255, 255, 255))
                   (plot_background DX_ref DY_ref tall_grid 1))
    by (vm_compute; left; reflexivity).
  split; [exact Hc|]. split; [exact Hin|].
  apply (plot_background_inside_image DX_ref DY_ref ref_axial ref_diagonal
           tall_grid 3 387 1 (1, 1, (255, 255, 255)) Hc Hin).
Defined.

Lemma plotSolution_canvas_bounds_witness :
  match plotSolution_canvas detour_grid with
  | DivisionByZero => False
  | TooSmall => 341 < width detour_grid \/ 256 < height detour_grid
  | Image iw ih ps =>
      width detour_grid <= 341 /\ height detour_grid <= 256 /\ 0 < ps
      /\ iw = width detour_grid * 3 * ps /\ ih = height detour_grid * 3 * ps
      /\ 0 < iw <= 1023 /\ 0 < ih <= 768
  end.
Proof.
  apply (plotSolution_canvas_bounds detour_grid).
  - reflexivity.
  - reflexivity.
Defined.

Lemma island_reach (b : Z) (c : cost) :
  route DX_ref DY_ref island_grid 0 b c -> b = 0.
Proof.
  induction 1 as [|b c i v Hr IH [Hi Hn]]; [reflexivity|].
  subst b. cbn in Hi.
  repeat (destruct Hi as [<-|Hi]; [vm_compute in Hn; discriminate|]).
  destruct Hi.
Qed.

Lemma cpu_query_without_path_witness :
  match cpuSolve DX_ref DY_ref by_f 3 island_grid
                 (initialize by_f island_grid blank_solver) with
  | None =>
      solve DX_ref DY_ref by_f 3 island_grid
            (initialize by_f island_grid blank_solver) = Undefined
  | Some p' =>
      solve DX_ref DY_ref by_f 3 island_grid
            (initialize by_f island_grid blank_solver) = NoPath
      /\ cpuSolved p' = true /\ cpuSuccessful p' = false
      /\ cpuOptimal p' = cpuOptimal island_grid
      /\ cpuSolution p' = cpuSolution island_grid
      /\ output (fun _ _ => true) p' = (true, [NoSolutionFrom "CPU"])
  end.
Proof.
  apply (cpu_query_without_path DX_ref DY_ref by_f (fun _ _ => true)
           island_grid blank_solver 3%nat).
  - reflexivity.
  - intros c Hr. apply island_reach in Hr. discriminate.
  - vm_compute. lia.
  - reflexivity.
  - reflexivity.
Defined.

(** X20.  When [plotSolution] goes on to draw, the pixels it sets for the
    cells of the solution and for the edges between them lie inside the
    image, provided every cell [(x, y)] of the solution has its [x] below
    the height and its [y] below the width, and consecutive cells differ
    by at most one in each coordinate. *)
Theorem plot_path_inside_image (p : Pathway) (solution : list vec2)
  (iw ih ps : Z) (w : set_pixel) :
  plotSolution_canvas p = Image iw ih ps ->
  Forall (fun v => 0 <= fst v < height p /\ 0 <= snd v < width p) solution ->
  stepwise solution ->
  In w (plot_visited solution ps ++ plot_edges solution ps) ->
  0 <= fst (fst w) < iw /\ 0 <= snd (fst w) < ih.
Proof.
  unfold plotSolution_canvas.
  destruct ((width p =? 0) || (height p =? 0)); [discriminate|].
  destruct (Z.min _ _ =? 0); [discriminate|].
  intros [= <- <- <-].
  set (ps := Z.min (Z.quot (Z.quot 1024 3) (width p))
                   (Z.quot (Z.quot 768 3) (height p))).
  intros Hcells Hstep Hin.
  assert (Hblock : forall r c, 0 <= r < 3 * height p -> 0 <= c < 3 * width p ->
            In w (drawPixel ps r c (0, 255, 0)) ->
            0 <= fst (fst w) < width p * 3 * ps
            /\ 0 <= snd (fst w) < height p * 3 * ps).
  { intros r c Hr Hc Hw. apply In_drawPixel in Hw as (Hx & Hy & _).
    assert (0 < ps) by nia. nia. }
  apply in_app_or in Hin as [Hin|Hin].
  - unfold plot_visited in Hin. apply in_flat_map in Hin as (v & Hv & Hw).
    rewrite Forall_forall in Hcells. specialize (Hcells v Hv).
    apply (Hblock (3 * fst v + 1) (3 * snd v + 1)); [lia|lia|exact Hw].
  - induction solution as [|a rest IH]; [destruct Hin|].
    destruct rest as [|b rest]; [destruct Hin|].
    cbn [plot_edges] in Hin. destruct Hstep as (Hdx & Hdy & Hrest).
    inversion Hcells as [|? ? Ha Hcells']; subst.
    inversion Hcells' as [|? ? Hb _]; subst.
    apply in_app_or in Hin as [Hw|Hin];
      [|apply in_app_or in Hin as [Hw|Hin]].
    + apply (Hblock _ _) in Hw; [exact Hw|cbn [fst snd]; lia..].
    + apply (Hblock _ _) in Hw; [exact Hw|cbn [fst snd]; lia..].
    + apply IH; assumption.
Qed.

Lemma plot_path_inside_image_witness :
  plotSolution_canvas tall_grid = Image 3 387 1
  /\ In (1, 1, (0, 255, 0))
        (plot_visited [(0, 0); (1, 0)] 1 ++ plot_edges [(0, 0); (1, 0)] 1)
  /\ (0 <= 1 < 3 /\ 0 <= 1 < 387).
Proof.
  assert (Hc : plotSolution_canvas tall_grid = Image 3 387 1)
    by (vm_compute; reflexivity).
  assert (Hin : In (1, 1, (0, 255, 0))
                   (plot_visited [(0, 0); (1, 0)] 1
                    ++ plot_edges [(0, 0); (1, 0)] 1))
    by (vm_compute; left; reflexivity).
  split; [exact Hc|]. split; [exact Hin|].
  apply (plot_path_inside_image tall_grid [(0, 0); (1, 0)] 3 387 1
           (1, 1, (0, 255, 0)) Hc).
  - repeat constructor; cbn; lia.
  - cbn. lia.
  - exact Hin.
Defined.
